(** * protoc-gen-doc: a shallow embedding of [src/main.cpp]

    The documentation generator walks protobuf descriptors, extracts the
    documentation comments, builds a tree of [QVariant] nodes and renders
    it.  This development embeds the functions of [main.cpp] and states the
    properties of the design document about them.

    Conventions of the embedding:
    - a [QString] is a [string]; every character stands for one code unit
      in the range 0..255;
    - a [QVariantHash] is a [gmap string QVariant], a [QVariantList] a
      [list QVariant];
    - library code that [main.cpp] calls but does not define ([std::sort],
      the Mustache engine, the JSON writer, the file system, the resource
      directory of built-in templates) is a [Variable] of a [Section],
      constrained by its documented contract where a proof needs one. *)

From Stdlib Require Import ZArith Ascii String List Lia Bool DecimalString.
From stdpp Require Import base option list strings gmap sorting.

Set Warnings "-register-all,-clear-no-such-hyp,-notation-for-abbreviation".
Local Open Scope string_scope.
Local Open Scope list_scope.
Local Open Scope stdpp_scope.

(** ** Characters *)

Definition LF : ascii := "010"%char.
Definition CR : ascii := "013"%char.

(** ** The [QString] operations used by [main.cpp] *)

Module QString.

(** [QChar::isSpace] on the code units 0..255: the ASCII white space
    (tab, line feed, vertical tab, form feed, carriage return, space),
    next line (0x85) and no-break space (0xA0). *)
Definition isSpace (c : ascii) : bool :=
  match c with
  | "009" | "010" | "011" | "012" | "013" | " " | "133" | "160" => true
  | _ => false
  end%char.

Definition isEmpty (s : string) : bool :=
  match s with "" => true | _ => false end.

(** [s.startsWith(p)] *)
Fixpoint startsWith (p s : string) : bool :=
  match p with
  | "" => true
  | String a p' =>
      match s with
      | String b s' => bool_decide (a = b) && startsWith p' s'
      | "" => false
      end
  end.

(** [s.startsWith(QChar c)] *)
Definition startsWithChar (c : ascii) (s : string) : bool :=
  match s with
  | String d _ => bool_decide (d = c)
  | "" => false
  end.

(** [s.mid(n)] for [n >= 0]: the string without its first [n] code
    units (the null string when [n] exceeds the size). *)
Fixpoint mid (n : nat) (s : string) : string :=
  match n, s with
  | 0, _ => s
  | S k, String _ r => mid k r
  | S _, "" => ""
  end.

(** [s.left(n)]: the first [n] code units; the whole string when [n]
    is negative or not smaller than the size. *)
Fixpoint take (n : nat) (s : string) : string :=
  match n, s with
  | S k, String c r => String c (take k r)
  | _, _ => ""
  end.

Definition left (n : Z) (s : string) : string :=
  if (n <? 0)%Z then s else take (Z.to_nat n) s.

(** [s.mid(pos, n)] for [pos >= 0]: [n] code units from [pos]; the rest
    of the string when [n] is negative. *)
Definition mid2 (pos : nat) (n : Z) (s : string) : string :=
  left n (mid pos s).

(** [s.indexOf(p)]: the position of the first occurrence of [p], or -1. *)
Fixpoint indexOf (p s : string) : Z :=
  if startsWith p s then 0%Z
  else match s with
       | "" => (-1)%Z
       | String _ r =>
           match indexOf p r with
           | Z.neg _ => (-1)%Z
           | i => (i + 1)%Z
           end
       end.

Fixpoint trim_start (s : string) : string :=
  match s with
  | String c r => if isSpace c then trim_start r else s
  | "" => ""
  end.

Fixpoint trim_end (s : string) : string :=
  match s with
  | "" => ""
  | String c r =>
      match trim_end r with
      | "" => if isSpace c then "" else String c ""
      | r' => String c r'
      end
  end.

(** [s.trimmed()]: white space removed from both ends. *)
Definition trimmed (s : string) : string := trim_end (trim_start s).

(** [a < b] on [QString]: lexicographic on the code units. *)
Definition lt (a b : string) : bool := String.ltb a b.

(** [l.join(sep)] on a [QStringList]. *)
Fixpoint join (sep : string) (l : list string) : string :=
  match l with
  | [] => ""
  | [x] => x
  | x :: r => x +:+ sep +:+ join sep r
  end.

(** Prepends a code unit to the first string of a list. *)
Definition cons_head (c : ascii) (l : list string) : list string :=
  match l with
  | [] => [String c ""]
  | x :: r => String c x :: r
  end.

(** [s.split(QChar sep)] with the default [KeepEmptyParts]: one more
    part than there are separators. *)
Fixpoint split (sep : ascii) (s : string) : list string :=
  match s with
  | "" => [""]
  | String c r =>
      if bool_decide (c = sep) then "" :: split sep r
      else cons_head c (split sep r)
  end.

(** [QString::number(n)]: the decimal digits, with [-] for negative
    numbers. *)
Definition number (n : Z) : string :=
  DecimalString.NilZero.string_of_int (Z.to_int n).

(** [l.contains(x)] on a [QStringList]. *)
Definition contains (l : list string) (x : string) : bool :=
  bool_decide (x ∈ l).

(** *** [QString::arg]

    A place marker is [%], an optional [L], and one or two digits.
    [scan] lists a string as literal code units and markers. *)
Inductive piece := Lit (c : ascii) | Marker (n : nat).

Definition digits (s : string) : option (nat * string) :=
  match s with
  | String d r =>
      match Ascii.is_nat d with
      | Some n =>
          match r with
          | String d' r' =>
              match Ascii.is_nat d' with
              | Some n' => Some (10 * n + n', r')
              | None => Some (n, r)
              end
          | "" => Some (n, r)
          end
      | None => None
      end
  | "" => None
  end.

Definition marker (s : string) : option (nat * string) :=
  match s with
  | String "%" (String "L" r) => digits r
  | String "%" r => digits r
  | _ => None
  end.

Fixpoint scan (skip : nat) (s : string) : list (piece * string) :=
  match s with
  | "" => []
  | String c r =>
      match skip with
      | S k => scan k r
      | 0 =>
          match marker s with
          | Some (n, rest) =>
              let size := String.length s - String.length rest in
              (Marker n, take size s) :: scan (size - 1) r
          | None => (Lit c, String c "") :: scan 0 r
          end
      end
  end.

Definition lowest (ps : list (piece * string)) : option nat :=
  foldr (fun p acc =>
           match p.1, acc with
           | Marker n, Some m => Some (Nat.min n m)
           | Marker n, None => Some n
           | Lit _, _ => acc
           end) None ps.

Fixpoint concat (l : list string) : string :=
  match l with
  | [] => ""
  | x :: r => x +:+ concat r
  end.

(** [s.arg(a)]: every occurrence of the lowest numbered place marker
    is replaced by [a]; a string without a marker is returned as it
    is. *)
Definition arg (a : string) (s : string) : string :=
  let ps := scan 0 s in
  match lowest ps with
  | None => s
  | Some m =>
      concat (map (fun p =>
                     match p.1 with
                     | Marker n => if Nat.eqb n m then a else p.2
                     | Lit _ => p.2
                     end) ps)
  end.

End QString.

(** ** The regular expressions of [main.cpp]

    [main.cpp] uses two patterns through [QRegularExpression] (PCRE2): a
    backtracking matcher that tries alternatives left to right and
    quantifiers greedily.  The fragment below covers both patterns. *)

Module Regex.

Inductive re :=
| Chr (c : ascii)                 (* a literal code unit *)
| Bol                             (* [^] under [MultilineOption] *)
| Alt (r1 r2 : re)                (* [r1|r2] *)
| Cat (r1 r2 : re)                (* [r1 r2] *)
| StarSpace.                      (* [\s*], greedy *)

(** [\s] without Unicode properties is stdpp's [Ascii.is_space]: tab,
    line feed, vertical tab, form feed, carriage return, space. *)

(** Greedy [\s*] with backtracking: the longest run first, then shorter
    ones, until the continuation [k] accepts. *)
Fixpoint star_space {A} (s : string) (k : string -> option A) : option A :=
  match s with
  | String c r =>
      if Ascii.is_space c then
        match star_space r k with
        | Some x => Some x
        | None => k s
        end
      else k s
  | "" => k ""
  end.

(** [exec r prev s k] matches [r] at the front of [s]; [prev] is the
    code unit just before the current position ([None] at the very
    start of the subject) and [k] receives the code unit before the
    rest and the rest.  The result is what [k] returns on the first
    successful path, in PCRE's order. *)
Fixpoint exec {A} (r : re) (prev : option ascii) (s : string)
    (k : option ascii -> string -> option A) : option A :=
  match r with
  | Chr c =>
      match s with
      | String d s' => if bool_decide (d = c) then k (Some d) s' else None
      | "" => None
      end
  | Bol =>
      match prev with
      | None => k prev s
      | Some p =>
          (* after a line feed that does not end the subject *)
          if bool_decide (p = LF) && negb (QString.isEmpty s)
          then k prev s else None
      end
  | Alt r1 r2 =>
      match exec r1 prev s k with
      | Some x => Some x
      | None => exec r2 prev s k
      end
  | Cat r1 r2 => exec r1 prev s (fun p s' => exec r2 p s' k)
  | StarSpace =>
      (* [prev] after a non-empty run is immaterial to the patterns
         here: no [Bol] follows a [StarSpace] *)
      star_space s (fun s' => k prev s')
  end.

(** The rest of the subject after the first match of [r] at the front
    of [s], if there is one. *)
Definition match_at (r : re) (prev : option ascii) (s : string)
  : option string :=
  exec r prev s (fun _ s' => Some s').

(** Number of code units a match at the front of [s] consumed. *)
Definition match_length (r : re) (prev : option ascii) (s : string)
  : option nat :=
  (fun s' => String.length s - String.length s') <$> match_at r prev s.

(** [s.replace(r, "")] over all matches, for a pattern whose matches
    are not empty: scan left to right; at a match drop the matched code
    units and go on after them.  [skip] counts the code units of the
    current match that are still to be dropped. *)
Fixpoint remove_go (r : re) (skip : nat) (prev : option ascii)
    (s : string) : string :=
  match s with
  | "" => ""
  | String c s' =>
      match skip with
      | S n => remove_go r n (Some c) s'
      | 0 =>
          match match_length r prev s with
          | Some (S n) => remove_go r n (Some c) s'
          | _ => String c (remove_go r 0 (Some c) s')
          end
      end
  end.

Definition remove (r : re) (s : string) : string := remove_go r 0 None s.

(** [s.split(r)] with [KeepEmptyParts], for a pattern whose matches are
    not empty: the parts between the matches. *)
Fixpoint split_go (r : re) (skip : nat) (prev : option ascii)
    (s : string) : list string :=
  match s with
  | "" => [""]
  | String c s' =>
      match skip with
      | S n => split_go r n (Some c) s'
      | 0 =>
          match match_length r prev s with
          | Some (S n) => "" :: split_go r n (Some c) s'
          | _ => QString.cons_head c (split_go r 0 (Some c) s')
          end
      end
  end.

Definition split (r : re) (s : string) : list string :=
  split_go r 0 None s.

End Regex.

(** [QRegularExpression("^ ", QRegularExpression::MultilineOption)] *)
Definition re_line_space : Regex.re := Regex.Cat Regex.Bol (Regex.Chr " ").

(** [QRegularExpression("(\\n|\\r|\\r\\n)\\s*(\\n|\\r|\\r\\n)")] *)
Definition re_newline : Regex.re :=
  Regex.Alt (Regex.Chr LF)
    (Regex.Alt (Regex.Chr CR) (Regex.Cat (Regex.Chr CR) (Regex.Chr LF))).

Definition re_paragraph : Regex.re :=
  Regex.Cat re_newline (Regex.Cat Regex.StarSpace re_newline).

(** ** [QVariant] *)

Inductive QVariant :=
| QInvalid
| QBool (b : bool)
| QInt (n : Z)
| QStr (s : string)
| QList (l : list QVariant)
| QHash (h : gmap string QVariant).

Module Variant.

(** [v.toHash()]: the hash held by [v], an empty one otherwise. *)
Definition toHash (v : QVariant) : gmap string QVariant :=
  match v with QHash h => h | _ => ∅ end.

(** [v.toList()] *)
Definition toList (v : QVariant) : list QVariant :=
  match v with QList l => l | _ => [] end.

(** [v.toString()]: lists, hashes and the invalid variant give the
    empty string. *)
Definition toString (v : QVariant) : string :=
  match v with
  | QStr s => s
  | QBool true => "true"
  | QBool false => "false"
  | QInt n => QString.number n
  | _ => ""
  end.

(** [h[key]] on a temporary copy of a hash: the stored value, or a
    default-constructed (invalid) variant when the key is missing. *)
Definition at_key (h : gmap string QVariant) (key : string) : QVariant :=
  default QInvalid (h !! key).

End Variant.

(** ** The protobuf descriptors, as far as [main.cpp] reads them *)

(** [gp::SourceLocation]: both comments are empty when the item has no
    source information. *)
Record SourceLocation := {
  leading_comments : string;
  trailing_comments : string
}.

(** The descriptor classes all offer [GetSourceLocation]. *)
Class Located (T : Type) := GetSourceLocation : T -> SourceLocation.

Inductive FieldType :=
| TYPE_DOUBLE | TYPE_FLOAT | TYPE_INT64 | TYPE_UINT64 | TYPE_INT32
| TYPE_FIXED64 | TYPE_FIXED32 | TYPE_BOOL | TYPE_STRING | TYPE_GROUP
| TYPE_MESSAGE | TYPE_BYTES | TYPE_UINT32 | TYPE_ENUM | TYPE_SFIXED32
| TYPE_SFIXED64 | TYPE_SINT32 | TYPE_SINT64.

Inductive FieldLabel := LABEL_OPTIONAL | LABEL_REQUIRED | LABEL_REPEATED.

Module EnumValueDescriptor.
Record t := {
  name : string;
  number : Z;
  location : SourceLocation
}.
End EnumValueDescriptor.

Module EnumDescriptor.
Record t := {
  name : string;
  value : list EnumValueDescriptor.t;
  location : SourceLocation
}.
End EnumDescriptor.

Module FieldDescriptor.
(** [message_type_name] is [message_type()->name()] and
    [enum_type_name] is [enum_type()->name()]; the first is read for
    fields of message or group type only, the second for fields of
    enum type only. *)
Record t := {
  name : string;
  type : FieldType;
  label : FieldLabel;
  message_type_name : string;
  enum_type_name : string;
  location : SourceLocation
}.
End FieldDescriptor.

Module Descriptor.
Inductive t := Build {
  name : string;
  location : SourceLocation;
  field : list FieldDescriptor.t;
  nested_type : list t;
  enum_type : list EnumDescriptor.t
}.
End Descriptor.

Module FileDescriptor.
Record t := {
  name : string;
  package : string;
  message_type : list Descriptor.t;
  enum_type : list EnumDescriptor.t
}.
End FileDescriptor.

#[export] Instance EnumValue_Located : Located EnumValueDescriptor.t :=
  EnumValueDescriptor.location.
#[export] Instance Enum_Located : Located EnumDescriptor.t :=
  EnumDescriptor.location.
#[export] Instance Field_Located : Located FieldDescriptor.t :=
  FieldDescriptor.location.
#[export] Instance Descriptor_Located : Located Descriptor.t :=
  Descriptor.location.

(** ** The generator context *)

Record DocGeneratorContext := {
  template_ : string;        (* Mustache template, empty for raw JSON *)
  outputFileName : string;
  noExclude : bool;          (* ignore @exclude directives? *)
  files : list QVariant
}.

(** ** Comments of messages, enums, enum values and fields *)

(** The check shared by both [descriptionOf] functions: the directive
    is cut off, and the item is excluded unless directives are ignored. *)
Definition checkExcluded (generatorContext : DocGeneratorContext)
    (description : string) : string * bool :=
  if QString.startsWith "@exclude" description
  then (QString.mid 8 description, negb (noExclude generatorContext))
  else (description, false).

(** [descriptionOf(const T *descriptor, bool &excluded)]: the description
    and the [excluded] flag. *)
Definition descriptionOf {T} `{Located T}
    (generatorContext : DocGeneratorContext) (descriptor : T)
  : string * bool :=
  let description := "" in
  let sourceLocation := GetSourceLocation descriptor in
  let leading := leading_comments sourceLocation in
  let description :=
    if QString.startsWithChar "*" leading || QString.startsWithChar "/" leading
    then description +:+ Regex.remove re_line_space (QString.mid 1 leading)
    else description in
  let trailing := trailing_comments sourceLocation in
  let description :=
    if QString.startsWithChar "*" trailing || QString.startsWithChar "/" trailing
    then description +:+ Regex.remove re_line_space (QString.mid 1 trailing)
    else description in
  let description := QString.trimmed description in
  checkExcluded generatorContext description.

(** ** Sorting *)

(** [nameLessThan]: one comparator for field and enum value lists.  A
    key that a hash lacks reads as the empty string. *)
Definition nameLessThan (v1 v2 : QVariant) : bool :=
  if QString.lt
       (Variant.toString (Variant.at_key (Variant.toHash v1) "field_name"))
       (Variant.toString (Variant.at_key (Variant.toHash v2) "field_name"))
  then true
  else QString.lt
         (Variant.toString (Variant.at_key (Variant.toHash v1) "value_name"))
         (Variant.toString (Variant.at_key (Variant.toHash v2) "value_name")).

(** What [std::sort] requires of its comparator on the values it is
    given: a strict weak ordering. *)
Definition strict_weak_on {A} (comp : A -> A -> bool) (l : list A) : Prop :=
  (forall x, x ∈ l -> comp x x = false) /\
  (forall x y z, x ∈ l -> y ∈ l -> z ∈ l ->
     comp x y = true -> comp y z = true -> comp x z = true) /\
  (forall x y z, x ∈ l -> y ∈ l -> z ∈ l ->
     comp x y = false -> comp y x = false ->
     comp y z = false -> comp z y = false ->
     comp x z = false /\ comp z x = false).

(** What [std::sort] promises (ISO C++, [alg.sort]): the result holds the
    same elements and no element is less than one before it.  The order
    of equivalent elements is not part of the promise. *)
Definition sorted_wrt {A} (comp : A -> A -> bool) (l : list A) : Prop :=
  forall i j x y, i < j -> l !! i = Some x -> l !! j = Some y ->
    comp y x = false.

Definition std_sort_contract {A}
    (sort : (A -> A -> bool) -> list A -> list A) : Prop :=
  forall comp l, strict_weak_on comp l ->
    sort comp l ≡ₚ l /\ sorted_wrt comp (sort comp l).

(** Two sorting functions to compare [std::sort] with.  [stable_sort]
    is an insertion sort: each element is put in front of the sorted
    rest, after the elements that are less than it, so it stays in
    front of the later elements equivalent to it. *)
Fixpoint stable_insert {A} (comp : A -> A -> bool) (x : A) (l : list A)
  : list A :=
  match l with
  | [] => [x]
  | y :: r => if comp y x then y :: stable_insert comp x r else x :: y :: r
  end.

Definition stable_sort {A} (comp : A -> A -> bool) (l : list A) : list A :=
  foldr (stable_insert comp) [] l.



(** ** Field types *)

(** The quotation mark, for the literals that hold one. *)
Definition quot : string := String "034"%char "".

(** The literal [<a href="/docs/types.php">category</a>]. *)
Definition types_php (category : string) : string :=
  "<a href=" +:+ quot +:+ "/docs/types.php" +:+ quot +:+ ">"
  +:+ category +:+ "</a>".

Definition scalarTypeName (type : FieldType) : string :=
  match type with
  | TYPE_BOOL => types_php "bool"
  | TYPE_BYTES | TYPE_STRING => types_php "string"
  | TYPE_DOUBLE | TYPE_FLOAT => types_php "float"
  | TYPE_FIXED32 | TYPE_FIXED64 | TYPE_INT32 | TYPE_INT64
  | TYPE_SFIXED32 | TYPE_SFIXED64 | TYPE_SINT32 | TYPE_SINT64
  | TYPE_UINT32 | TYPE_UINT64 => types_php "int"
  | _ => "<unknown>"
  end.

Definition typeUrl (type : string) : string :=
  "<a href=" +:+ quot +:+ "/docs/dsl-types.php#" +:+ type +:+ quot +:+ ">"
  +:+ type +:+ "</a>".

(** ** The walk over the descriptors *)

(** [addField]: appends the field to [fields] unless it is excluded. *)
Definition addField (generatorContext : DocGeneratorContext)
    (fieldDescriptor : FieldDescriptor.t) (fields : list QVariant)
  : list QVariant :=
  let '(description, excluded) :=
    descriptionOf generatorContext fieldDescriptor in
  if excluded then fields else
  let field : gmap string QVariant := ∅ in
  let field :=
    <["field_name" := QStr (FieldDescriptor.name fieldDescriptor)]> field in
  let field := <["field_description" := QStr description]> field in
  let type := FieldDescriptor.type fieldDescriptor in
  let fieldType :=
    match type with
    | TYPE_MESSAGE | TYPE_GROUP =>
        typeUrl (FieldDescriptor.message_type_name fieldDescriptor)
    | TYPE_ENUM =>
        typeUrl (FieldDescriptor.enum_type_name fieldDescriptor)
    | _ =>
        let typeName := scalarTypeName type in
        if bool_decide
             (QString.indexOf "date" (FieldDescriptor.name fieldDescriptor)
              <> (-1)%Z)
        then types_php "time"
        else typeName
    end in
  let fieldType :=
    match FieldDescriptor.label fieldDescriptor with
    | LABEL_OPTIONAL => fieldType +:+ "?"
    | LABEL_REPEATED => types_php "array" +:+ " of " +:+ fieldType
    | LABEL_REQUIRED => fieldType
    end in
  let field := <["field_type" := QStr fieldType]> field in
  fields ++ [QHash field].

Section Walk.

(** [std::sort] on a [QVariantList]. *)
Variable std_sort :
  (QVariant -> QVariant -> bool) -> list QVariant -> list QVariant.

Variable generatorContext : DocGeneratorContext.

(** The body of the loop over the values of an enum. *)
Definition addValue (valueDescriptor : EnumValueDescriptor.t)
    (values : list QVariant) : list QVariant :=
  let '(description, excluded) :=
    descriptionOf generatorContext valueDescriptor in
  if excluded then values else
  let value : gmap string QVariant := ∅ in
  let value :=
    <["value_name" := QStr (EnumValueDescriptor.name valueDescriptor)]>
      value in
  let value :=
    <["value_number" := QInt (EnumValueDescriptor.number valueDescriptor)]>
      value in
  let value := <["value_description" := QStr description]> value in
  values ++ [QHash value].

(** [addEnum]: appends the enum to [enums] unless it is excluded. *)
Definition addEnum (enumDescriptor : EnumDescriptor.t)
    (enums : list QVariant) : list QVariant :=
  let '(description, excluded) :=
    descriptionOf generatorContext enumDescriptor in
  if excluded then enums else
  let enum_ : gmap string QVariant := ∅ in
  let enum_ :=
    <["enum_name" := QStr (EnumDescriptor.name enumDescriptor)]> enum_ in
  let enum_ := <["enum_description" := QStr description]> enum_ in
  let values :=
    foldl (fun values valueDescriptor => addValue valueDescriptor values)
      [] (EnumDescriptor.value enumDescriptor) in
  let values := std_sort nameLessThan values in
  let enum_ := <["enum_values" := QList values]> enum_ in
  enums ++ [QHash enum_].

(** [addMessages]: appends the message, then its nested messages and
    enums, to [messages] and [enums]; nothing when it is excluded. *)
Fixpoint addMessages (descriptor : Descriptor.t)
    (messages enums : list QVariant) {struct descriptor}
  : list QVariant * list QVariant :=
  let '(description, excluded) :=
    descriptionOf generatorContext descriptor in
  if excluded then (messages, enums) else
  let message : gmap string QVariant := ∅ in
  let message :=
    <["message_name" := QStr (Descriptor.name descriptor)]> message in
  let message := <["message_description" := QStr description]> message in
  let fields :=
    foldl (fun fields fieldDescriptor =>
             addField generatorContext fieldDescriptor fields)
      [] (Descriptor.field descriptor) in
  let fields := std_sort nameLessThan fields in
  let message :=
    <["message_has_fields" := QBool (negb (bool_decide (fields = [])))]>
      message in
  let message := <["message_fields" := QList fields]> message in
  let messages := messages ++ [QHash message] in
  let '(messages, enums) :=
    foldl (fun '(messages, enums) nested =>
             addMessages nested messages enums)
      (messages, enums) (Descriptor.nested_type descriptor) in
  let enums :=
    foldl (fun enums enumDescriptor => addEnum enumDescriptor enums)
      enums (Descriptor.enum_type descriptor) in
  (messages, enums).

End Walk.

(** ** The description of a file *)

(** [QTextStream]: the lines that successive [readLine] calls return
    until [atEnd] holds.  A line ends at a line feed; a carriage return
    just before it belongs to the line end.  Text after the last line
    feed is a last line; at the end [readLine] returns an empty string. *)
Fixpoint readLines (s : string) : list string :=
  match s with
  | "" => []
  | String c r =>
      if bool_decide (c = LF) then "" :: readLines r
      else
        match r with
        | String d r' =>
            if bool_decide (c = CR) && bool_decide (d = LF)
            then "" :: readLines r'
            else QString.cons_head c (readLines r)
        | "" => [String c ""]
        end
  end.

(** [QFile::open] on a name: the content, or the reason of the failure. *)
Inductive OpenResult :=
| Opened (content : string)
| OpenFailed (errorString : string).

(** The loop over a block of [///] lines; [line] is the current line,
    [rest] what the stream still holds.  The loop is left when the
    stream is at its end or the line lacks the marker. *)
Fixpoint lineComments (line : string) (rest : list string)
    (description : string) : string :=
  match rest with
  | [] => description
  | next :: rest' =>
      if QString.startsWith "///" line then
        lineComments (QString.trimmed next) rest'
          (description
           +:+ QString.mid (if QString.startsWith "/// " line then 4 else 3)
                 line
           +:+ String LF "")
      else description
  end.

(** The loop over a [/** ... */] comment.  It is left at the first line
    that holds the closing marker; a comment that is not closed before
    the end of the file keeps the loop running ([None]). *)
Fixpoint blockComment (line : string) (rest : list string)
    (description : string) : option string :=
  let end_ := QString.indexOf "*/" line in
  if bool_decide (end_ = (-1)%Z) then
    let start := 0 in
    let start := if QString.startsWith "*" line then S start else start in
    let start := if QString.startsWith "* " line then S start else start in
    let description :=
      description +:+ QString.mid start line +:+ String LF "" in
    match rest with
    | next :: rest' => blockComment (QString.trimmed next) rest' description
    | [] => None
    end
  else
    let start := 0 in
    let start :=
      if QString.startsWith "*" line && negb (QString.startsWith "*/" line)
      then S start else start in
    let start := if QString.startsWith "* " line then S start else start in
    Some (description +:+ QString.mid2 start (end_ - Z.of_nat start) line).

(** The outer loop: blank lines are skipped, the first other line
    decides. *)
Fixpoint extractDescription (lines : list string) : option string :=
  match lines with
  | [] => Some ""
  | l :: rest =>
      let line := QString.trimmed l in
      if QString.isEmpty line then extractDescription rest
      else if QString.startsWith "///" line then
        let description := lineComments line rest "" in
        Some (QString.left (Z.of_nat (String.length description) - 1)
                description)
      else if QString.startsWith "/**" line
              && negb (QString.startsWith "/***/" line) then
        blockComment (QString.mid 2 line) rest ""
      else Some ""
  end.

Section Files.

Variable file_open : string -> OpenResult.

(** [descriptionOf(fileDescriptor, error, excluded)]: the description,
    the error string afterwards and the [excluded] flag, which the
    caller has set to false; [None] when the scan does not return. *)
Definition descriptionOfFile (generatorContext : DocGeneratorContext)
    (fileDescriptor : FileDescriptor.t) (error : string)
  : option (string * string * bool) :=
  let fileName := FileDescriptor.name fileDescriptor in
  match file_open fileName with
  | OpenFailed errorString =>
      Some ("", QString.arg errorString (QString.arg fileName "%1: %2"),
            false)
  | Opened content =>
      description ← extractDescription (readLines content);
      let description := QString.trimmed description in
      let '(description, excluded) :=
        checkExcluded generatorContext description in
      Some (description, error, excluded)
  end.

(** [QFileInfo(path).fileName()]: the part after the last slash. *)
Fixpoint fileName (path : string) : string :=
  match path with
  | "" => ""
  | String c r =>
      if bool_decide ("/"%char ∈ list_ascii_of_string r) then fileName r
      else if bool_decide (c = "/"%char) then r else path
  end.

Variable std_sort :
  (QVariant -> QVariant -> bool) -> list QVariant -> list QVariant.

(** [addFile]: the list of files and the error string afterwards. *)
Definition addFile (generatorContext : DocGeneratorContext)
    (fileDescriptor : FileDescriptor.t) (files : list QVariant)
    (error : string) : option (list QVariant * string) :=
  '(description, error, excluded) ←
    descriptionOfFile generatorContext fileDescriptor error;
  if (excluded : bool) then Some (files, error) else
  let file : gmap string QVariant := ∅ in
  let file :=
    <["file_name" := QStr (fileName (FileDescriptor.name fileDescriptor))]>
      file in
  let file := <["file_description" := QStr description]> file in
  let file :=
    <["file_package" := QStr (FileDescriptor.package fileDescriptor)]>
      file in
  let '(messages, enums) :=
    foldl (fun '(messages, enums) descriptor =>
             addMessages std_sort generatorContext descriptor
               messages enums)
      ([], []) (FileDescriptor.message_type fileDescriptor) in
  let file := <["file_messages" := QList messages]> file in
  let enums :=
    foldl (fun enums enumDescriptor =>
             addEnum std_sort generatorContext enumDescriptor enums)
      enums (FileDescriptor.enum_type fileDescriptor) in
  let file := <["file_enums" := QList enums]> file in
  Some (files ++ [QHash file], error).

End Files.

(** ** Parameters, templates and rendering *)

(** What a [Mustache::Renderer] holds after [render]. *)
Module Renderer.
Record t := {
  output : string;
  error : string;          (* empty when rendering succeeded *)
  errorPos : Z;
  errorPartial : string
}.
End Renderer.

(** A template filter: given the renderer's capability to render a
    sub-template in the current context, a function on the raw text. *)
Definition Filter : Type := (string -> string) -> string -> string.

(** [pFilter]: the rendered text with its paragraphs in [<p>..</p>]. *)
Definition pFilter : Filter := fun render text =>
  "<p>"
  +:+ QString.join "</p><p>" (Regex.split re_paragraph (render text))
  +:+ "</p>".

(** [s.remove(t)]: every occurrence of [t] is cut out, left to right.
    [skip] counts the code units of the current occurrence that are still
    to be dropped. *)
Fixpoint remove_go (t : string) (skip : nat) (s : string) : string :=
  match s with
  | "" => ""
  | String c r =>
      match skip with
      | S k => remove_go t k r
      | 0 =>
          if QString.startsWith t s && negb (QString.isEmpty t)
          then remove_go t (String.length t - 1) r
          else String c (remove_go t 0 r)
      end
  end.

Definition remove (t s : string) : string := remove_go t 0 s.

(** [nobrFilter]: the rendered text without line breaks. *)
Definition nobrFilter : Filter := fun render text =>
  let result := render text in
  let result := remove (String CR (String LF "")) result in
  let result := remove (String CR "") result in
  let result := remove (String LF "") result in
  result.

(** The output of the plugin: the files opened through the compiler's
    generator context, with what was printed to them, latest first. *)
Definition Sink : Type := list (string * string).

Section Generator.

(** The base names of the [*.mustache] entries of the resource
    directory [:/templates]. *)
Variable supportedFormats : list string.

Variable file_open : string -> OpenResult.

Variable std_sort :
  (QVariant -> QVariant -> bool) -> list QVariant -> list QVariant.

(** [QJsonDocument::fromVariant(files).toJson()], [None] for a null
    document. *)
Variable toJson : list QVariant -> option string.

(** [ms::Renderer::render] on a template and a context that holds the
    two filters and the list of files. *)
Variable mustache :
  Filter -> Filter -> list QVariant -> string -> Renderer.t.

Definition formattedError (template_ : string) (renderer : Renderer.t)
  : string :=
  let location := template_ in
  let location :=
    if negb (QString.isEmpty (Renderer.errorPartial renderer))
    then location +:+ " in partial " +:+ Renderer.errorPartial renderer
    else location in
  QString.arg (Renderer.error renderer)
    (QString.arg (QString.number (Renderer.errorPos renderer))
       (QString.arg location "%1:%2: %3")).

Definition usage : string :=
  QString.arg (QString.join "|" supportedFormats)
    "Usage: --doc_out=%1|<TEMPLATE_FILENAME>,<OUT_FILENAME>[,no-exclude]:<OUT_DIR>".

(** [readTemplate]: the template and the error string afterwards. *)
Definition readTemplate (name : string) (error : string)
  : string * string :=
  let builtInFileName := QString.arg name ":/templates/%1.mustache" in
  let fileName :=
    if QString.contains supportedFormats name then builtInFileName
    else name in
  match file_open fileName with
  | OpenFailed errorString =>
      ("", QString.arg errorString (QString.arg fileName "%1: %2"))
  | Opened content => (content, error)
  end.

(** [parseParameter]: success, the context and the error string
    afterwards. *)
Definition parseParameter (parameter : string)
    (generatorContext : DocGeneratorContext) (error : string)
  : bool * DocGeneratorContext * string :=
  let tokens := QString.split "," parameter in
  if bool_decide (length tokens <> 2) && bool_decide (length tokens <> 3)
  then (false, generatorContext, usage)
  else
    let noExclude_ := false in
    match
      (if bool_decide (length tokens = 3) then
         if bool_decide (tokens !!! 2 = "no-exclude") then Some true
         else None
       else Some noExclude_)
    with
    | None => (false, generatorContext, usage)
    | Some noExclude_ =>
        let '(template', error) :=
          if bool_decide (tokens !!! 0 <> "json")
          then readTemplate (tokens !!! 0) error
          else (template_ generatorContext, error) in
        (true,
         {| template_ := template';
            outputFileName := tokens !!! 1;
            noExclude := noExclude_;
            files := files generatorContext |},
         error)
    end.

(** [render]: success, the sink and the error string afterwards. *)
Definition render (generatorContext : DocGeneratorContext) (sink : Sink)
    (error : string) : bool * Sink * string :=
  let rendered : string + string :=
    if QString.isEmpty (template_ generatorContext) then
      match toJson (files generatorContext) with
      | None => inr "Failed to create JSON document"
      | Some document => inl document
      end
    else
      let renderer :=
        mustache pFilter nobrFilter (files generatorContext)
          (template_ generatorContext) in
      if negb (QString.isEmpty (Renderer.error renderer))
      then inr (formattedError (template_ generatorContext) renderer)
      else inl (Renderer.output renderer) in
  match rendered with
  | inr message => (false, sink, message)
  | inl result =>
      (true, (outputFileName generatorContext, result) :: sink, error)
  end.

(** Descriptors of one pool are told apart by their file names, so
    the comparison of two descriptor pointers is the comparison of the
    names. *)
Definition same_file (f g : FileDescriptor.t) : bool :=
  bool_decide (FileDescriptor.name f = FileDescriptor.name g).

Definition with_files (generatorContext : DocGeneratorContext)
    (files' : list QVariant) : DocGeneratorContext :=
  {| template_ := template_ generatorContext;
     outputFileName := outputFileName generatorContext;
     noExclude := noExclude generatorContext;
     files := files' |}.

(** [DocGenerator::Generate], one call of the compiler for one file:
    success, and the context, the sink and the error string
    afterwards.  [parsedFiles] is what [ListParsedFiles] returns; it
    holds [fileDescriptor]. *)
Definition Generate (parsedFiles : list FileDescriptor.t)
    (fileDescriptor : FileDescriptor.t) (parameter : string)
    (generatorContext : DocGeneratorContext) (sink : Sink)
    (error : string)
  : option (bool * DocGeneratorContext * Sink * string) :=
  let isFirst :=
    from_option (same_file fileDescriptor) false (head parsedFiles) in
  let isLast :=
    from_option (same_file fileDescriptor) false (last parsedFiles) in
  let '(parsed, generatorContext, error) :=
    if isFirst then parseParameter parameter generatorContext error
    else (true, generatorContext, error) in
  if negb parsed then Some (false, generatorContext, sink, error) else
  '(files', error) ←
    addFile file_open std_sort generatorContext fileDescriptor
      (files generatorContext) error;
  let generatorContext := with_files generatorContext files' in
  if negb (QString.isEmpty error)
  then Some (false, generatorContext, sink, error)
  else if isLast then
    let '(rendered, sink, error) := render generatorContext sink error in
    Some (rendered, generatorContext, sink, error)
  else Some (true, generatorContext, sink, error).

(** The compiler's side of a run ([CodeGenerator::GenerateAll] of the
    protobuf library): [Generate] is called for the parsed files in
    their order, and the run ends at the first call that fails or
    leaves an error. *)
Fixpoint GenerateAll_from (parsedFiles todo : list FileDescriptor.t)
    (parameter : string) (generatorContext : DocGeneratorContext)
    (sink : Sink) (error : string)
  : option (bool * DocGeneratorContext * Sink * string) :=
  match todo with
  | [] => Some (true, generatorContext, sink, error)
  | file :: todo' =>
      '(succeeded, generatorContext, sink, error) ←
        Generate parsedFiles file parameter generatorContext sink error;
      let error :=
        if negb succeeded && QString.isEmpty error
        then "Code generator returned false but provided no error description."
        else error in
      if negb (QString.isEmpty error)
      then Some (succeeded, generatorContext, sink,
                 FileDescriptor.name file +:+ ": " +:+ error)
      else if negb succeeded
      then Some (succeeded, generatorContext, sink, error)
      else GenerateAll_from parsedFiles todo' parameter generatorContext
             sink error
  end.

(** The context at the start of a run. *)
Definition initialContext : DocGeneratorContext :=
  {| template_ := ""; outputFileName := ""; noExclude := false;
     files := [] |}.

(** A whole run of the plugin on the files to generate. *)
Definition run (parsedFiles : list FileDescriptor.t) (parameter : string)
  : option (bool * DocGeneratorContext * Sink * string) :=
  GenerateAll_from parsedFiles parsedFiles parameter initialContext [] "".

End Generator.

(** * Notions used in the statements *)

(** White space at both ends, and none at both ends. *)
Definition all_space (s : string) : Prop :=
  Forall (fun c => QString.isSpace c = true) (list_ascii_of_string s).

Definition first_char (s : string) : option ascii :=
  match s with String c _ => Some c | "" => None end.

Fixpoint last_char (s : string) : option ascii :=
  match s with
  | "" => None
  | String c r => match last_char r with Some d => Some d | None => Some c end
  end.

Definition no_space_around (s : string) : Prop :=
  (forall c, first_char s = Some c -> QString.isSpace c = false) /\
  (forall c, last_char s = Some c -> QString.isSpace c = false).

(** ** The pattern [^ ] *)
(** Can [^] match right after [prev]?  (The subject is not at its end in the
    places where this is asked.) *)
Definition line_start (prev : option ascii) : bool :=
  match prev with
  | None => true
  | Some p => bool_decide (p = LF)
  end.

(** The text with one space dropped at the start of each line that has
    one; [bol] tells whether the text begins a line. *)
Fixpoint strip_from (bol : bool) (s : string) : string :=
  match s with
  | "" => ""
  | String c r =>
      if bol && bool_decide (c = " "%char) then strip_from false r
      else String c (strip_from (bool_decide (c = LF)) r)
  end.

(** The same, said line by line. *)
Definition strip_one_space (line : string) : string :=
  match line with
  | String " " r => r
  | _ => line
  end.

Definition strip_lines (s : string) : string :=
  QString.join (String LF "") (map strip_one_space (QString.split LF s)).

(** What one raw comment adds to a description, in the words of the
    design: nothing unless it begins with [*] or [/]; else the text
    after that marker, with one leading space dropped from every line
    that has one. *)
Definition comment_part (comment : string) : string :=
  match comment with
  | String m r =>
      if bool_decide (m = "*"%char) || bool_decide (m = "/"%char)
      then strip_lines r else ""
  | "" => ""
  end.

(** ** Example inputs *)

Definition honor : DocGeneratorContext :=
  {| template_ := ""; outputFileName := "doc.html"; noExclude := false;
     files := [] |}.

Definition ignore : DocGeneratorContext :=
  {| template_ := ""; outputFileName := "doc.html"; noExclude := true;
     files := [] |}.

Definition no_comment : SourceLocation :=
  {| leading_comments := ""; trailing_comments := "" |}.

(** A field declared right after the comment
    [/** @exclude Deprecated field */]. *)
Definition deprecated_field : FieldDescriptor.t :=
  {| FieldDescriptor.name := "old_id";
     FieldDescriptor.type := TYPE_INT32;
     FieldDescriptor.label := LABEL_REQUIRED;
     FieldDescriptor.message_type_name := "";
     FieldDescriptor.enum_type_name := "";
     FieldDescriptor.location :=
       {| leading_comments := "* @exclude Deprecated field ";
          trailing_comments := "" |} |}.

(** ** The lists attached to messages and enums *)

(** Does the comment of an item exclude it? *)
Definition excluded {T} `{Located T} (generatorContext : DocGeneratorContext)
    (descriptor : T) : bool :=
  (descriptionOf generatorContext descriptor).2.

(** The sort keys of a list item. *)
Definition field_name_of (v : QVariant) : string :=
  Variant.toString (Variant.at_key (Variant.toHash v) "field_name").

Definition value_name_of (v : QVariant) : string :=
  Variant.toString (Variant.at_key (Variant.toHash v) "value_name").

(** Ascending order of a key. *)
Definition ascending (key : QVariant -> string) : relation QVariant :=
  fun a b => (key a ≤ key b)%string.

(** The nodes that the walk builds for a field, an enum value, an enum
    and a message that are not excluded. *)
Definition field_type_of (fieldDescriptor : FieldDescriptor.t) : string :=
  let type := FieldDescriptor.type fieldDescriptor in
  let fieldType :=
    match type with
    | TYPE_MESSAGE | TYPE_GROUP =>
        typeUrl (FieldDescriptor.message_type_name fieldDescriptor)
    | TYPE_ENUM =>
        typeUrl (FieldDescriptor.enum_type_name fieldDescriptor)
    | _ =>
        if bool_decide
             (QString.indexOf "date" (FieldDescriptor.name fieldDescriptor)
              <> (-1)%Z)
        then types_php "time"
        else scalarTypeName type
    end in
  match FieldDescriptor.label fieldDescriptor with
  | LABEL_OPTIONAL => fieldType +:+ "?"
  | LABEL_REPEATED => types_php "array" +:+ " of " +:+ fieldType
  | LABEL_REQUIRED => fieldType
  end.

Definition field_node (generatorContext : DocGeneratorContext)
    (fieldDescriptor : FieldDescriptor.t) : QVariant :=
  QHash
    (<["field_type" := QStr (field_type_of fieldDescriptor)]>
       (<["field_description" :=
            QStr (descriptionOf generatorContext fieldDescriptor).1]>
          (<["field_name" := QStr (FieldDescriptor.name fieldDescriptor)]>
             ∅))).

Definition value_node (generatorContext : DocGeneratorContext)
    (valueDescriptor : EnumValueDescriptor.t) : QVariant :=
  QHash
    (<["value_description" :=
         QStr (descriptionOf generatorContext valueDescriptor).1]>
       (<["value_number" :=
            QInt (EnumValueDescriptor.number valueDescriptor)]>
          (<["value_name" :=
               QStr (EnumValueDescriptor.name valueDescriptor)]> ∅))).

(** The items of the fields (enum values) that are not excluded, in the
    order of the declarations. *)
Definition field_items (generatorContext : DocGeneratorContext)
    (fields : list FieldDescriptor.t) : list QVariant :=
  field_node generatorContext <$>
    filter (fun fieldDescriptor =>
              excluded generatorContext fieldDescriptor = false) fields.

Definition value_items (generatorContext : DocGeneratorContext)
    (values : list EnumValueDescriptor.t) : list QVariant :=
  value_node generatorContext <$>
    filter (fun valueDescriptor =>
              excluded generatorContext valueDescriptor = false) values.

Section Nodes.

Variable std_sort :
  (QVariant -> QVariant -> bool) -> list QVariant -> list QVariant.
Variable generatorContext : DocGeneratorContext.

Definition enum_hash (enumDescriptor : EnumDescriptor.t) : QVariant :=
  QHash
    (<["enum_values" :=
         QList (std_sort nameLessThan
                  (value_items generatorContext
                     (EnumDescriptor.value enumDescriptor)))]>
       (<["enum_description" :=
            QStr (descriptionOf generatorContext enumDescriptor).1]>
          (<["enum_name" := QStr (EnumDescriptor.name enumDescriptor)]>
             ∅))).

Definition message_hash (descriptor : Descriptor.t) : QVariant :=
  let fields :=
    std_sort nameLessThan
      (field_items generatorContext (Descriptor.field descriptor)) in
  QHash
    (<["message_fields" := QList fields]>
       (<["message_has_fields" := QBool (negb (bool_decide (fields = [])))]>
          (<["message_description" :=
               QStr (descriptionOf generatorContext descriptor).1]>
             (<["message_name" := QStr (Descriptor.name descriptor)]>
                ∅)))).

End Nodes.

(** The node that [addMessages] ([addEnum]) appends for an item, and the
    list attached to a node. *)
Definition message_node
    (std_sort : (QVariant -> QVariant -> bool) -> list QVariant -> list QVariant)
    (generatorContext : DocGeneratorContext) (descriptor : Descriptor.t)
  : option QVariant :=
  head (addMessages std_sort generatorContext descriptor [] []).1.

Definition enum_node
    (std_sort : (QVariant -> QVariant -> bool) -> list QVariant -> list QVariant)
    (generatorContext : DocGeneratorContext) (enumDescriptor : EnumDescriptor.t)
  : option QVariant :=
  head (addEnum std_sort generatorContext enumDescriptor []).

Definition message_fields (node : QVariant) : list QVariant :=
  Variant.toList (Variant.at_key (Variant.toHash node) "message_fields").

Definition enum_values (node : QVariant) : list QVariant :=
  Variant.toList (Variant.at_key (Variant.toHash node) "enum_values").



(** Example: fields, enum values, a message and an enum. *)
Definition plain_field (name description : string) : FieldDescriptor.t :=
  {| FieldDescriptor.name := name;
     FieldDescriptor.type := TYPE_STRING;
     FieldDescriptor.label := LABEL_REQUIRED;
     FieldDescriptor.message_type_name := "";
     FieldDescriptor.enum_type_name := "";
     FieldDescriptor.location :=
       {| leading_comments := "/ " +:+ description;
          trailing_comments := "" |} |}.

Definition plain_value (name : string) (number : Z)
  : EnumValueDescriptor.t :=
  {| EnumValueDescriptor.name := name;
     EnumValueDescriptor.number := number;
     EnumValueDescriptor.location := no_comment |}.

Definition greek_message : Descriptor.t :=
  Descriptor.Build "Greek" no_comment
    [plain_field "zeta" "z"; plain_field "alpha" "a"; deprecated_field;
     plain_field "mu" "m"] [] [].

Definition color_enum : EnumDescriptor.t :=
  {| EnumDescriptor.name := "Color";
     EnumDescriptor.value :=
       [plain_value "RED" 0; plain_value "BLUE" 2; plain_value "GREEN" 1];
     EnumDescriptor.location := no_comment |}.

Definition field_description_of (v : QVariant) : string :=
  Variant.toString (Variant.at_key (Variant.toHash v) "field_description").

(** What [addMessages] appends for a message and all that is nested in
    it. *)
Definition messages_of
    (std_sort : (QVariant -> QVariant -> bool) -> list QVariant -> list QVariant)
    (generatorContext : DocGeneratorContext) (descriptor : Descriptor.t)
  : list QVariant :=
  (addMessages std_sort generatorContext descriptor [] []).1.

Definition enums_of
    (std_sort : (QVariant -> QVariant -> bool) -> list QVariant -> list QVariant)
    (generatorContext : DocGeneratorContext) (descriptor : Descriptor.t)
  : list QVariant :=
  (addMessages std_sort generatorContext descriptor [] []).2.

(** A message commented [/** @exclude */], with a field and a nested
    message of its own. *)
Definition hidden_message : Descriptor.t :=
  Descriptor.Build "Hidden"
    {| leading_comments := "* @exclude "; trailing_comments := "" |}
    [plain_field "secret" "s"]
    [Descriptor.Build "Inner" no_comment [plain_field "x" "x"] [] [color_enum]]
    [color_enum].

(** ** Notions for the field types *)

(** [sub] occurs in [s]. *)
Definition occurs_in (sub s : string) : Prop :=
  exists pre post, s = pre +:+ sub +:+ post.

(** Message, group and enum fields refer to a type; all others are
    scalar. *)
Definition is_scalar (type : FieldType) : bool :=
  match type with
  | TYPE_MESSAGE | TYPE_GROUP | TYPE_ENUM => false
  | _ => true
  end.

(** The marks of the cardinality around a type string. *)
Definition with_label (label : FieldLabel) (fieldType : string) : string :=
  match label with
  | LABEL_OPTIONAL => fieldType +:+ "?"
  | LABEL_REPEATED => types_php "array" +:+ " of " +:+ fieldType
  | LABEL_REQUIRED => fieldType
  end.

Definition field_type_in (node : QVariant) : string :=
  Variant.toString (Variant.at_key (Variant.toHash node) "field_type").

(** [int32 created_date] and a field [update] of the message type
    [Change]. *)
Definition created_date : FieldDescriptor.t :=
  {| FieldDescriptor.name := "created_date";
     FieldDescriptor.type := TYPE_INT32;
     FieldDescriptor.label := LABEL_REQUIRED;
     FieldDescriptor.message_type_name := "";
     FieldDescriptor.enum_type_name := "";
     FieldDescriptor.location := no_comment |}.

Definition update_field : FieldDescriptor.t :=
  {| FieldDescriptor.name := "update";
     FieldDescriptor.type := TYPE_MESSAGE;
     FieldDescriptor.label := LABEL_REQUIRED;
     FieldDescriptor.message_type_name := "Change";
     FieldDescriptor.enum_type_name := "";
     FieldDescriptor.location := no_comment |}.

(** ** Notions for files *)

Definition has_slash (s : string) : Prop := "/"%char ∈ list_ascii_of_string s.

(** [base] is what is left of [path] after its directories. *)
Definition base_name_of (path base : string) : Prop :=
  ~ has_slash base /\
  exists dir, path = dir +:+ base /\ (dir = "" \/ last_char dir = Some "/"%char).

Definition file_name_in (node : QVariant) : string :=
  Variant.toString (Variant.at_key (Variant.toHash node) "file_name").

Definition file_package_in (node : QVariant) : string :=
  Variant.toString (Variant.at_key (Variant.toHash node) "file_package").

Definition file_description_in (node : QVariant) : string :=
  Variant.toString (Variant.at_key (Variant.toHash node) "file_description").

(** A file system with one schema file. *)
Definition one_file (name content : string) : string -> OpenResult :=
  fun path =>
    if bool_decide (path = name) then Opened content
    else OpenFailed "No such file or directory".

Definition nl : string := String LF "".

Definition person_proto : FileDescriptor.t :=
  {| FileDescriptor.name := "schemas/v1/person.proto";
     FileDescriptor.package := "demo.people";
     FileDescriptor.message_type := [greek_message];
     FileDescriptor.enum_type := [color_enum] |}.

Definition person_source : string :=
  "/// People." +:+ nl +:+ "message Greek {}" +:+ nl.

(** ** Notions for the parameter string *)

Definition has_comma (s : string) : Prop := ","%char ∈ list_ascii_of_string s.

(** The well-formed parameter strings: [template,output] and
    [template,output,no-exclude]. *)
Definition two_tokens (parameter : string) : Prop :=
  exists a b, ~ has_comma a /\ ~ has_comma b /\ parameter = a +:+ "," +:+ b.

Definition three_tokens (parameter : string) : Prop :=
  exists a b, ~ has_comma a /\ ~ has_comma b /\
    parameter = a +:+ "," +:+ b +:+ ",no-exclude".

(** The usage message for a list of built-in formats. *)
Definition usage_message (formats : list string) : string :=
  "Usage: --doc_out=" +:+ QString.join "|" formats
  +:+ "|<TEMPLATE_FILENAME>,<OUT_FILENAME>[,no-exclude]:<OUT_DIR>".

Definition no_files : string -> OpenResult :=
  fun _ => OpenFailed "No such file or directory".

(** ** Notions for a run *)

Section Rendered.

Variable toJson : list QVariant -> option string.
Variable mustache :
  Filter -> Filter -> list QVariant -> string -> Renderer.t.

(** [result] is the complete rendering of the files of a context: the
    JSON document when there is no template, else what the template
    engine gives when it reports no error. *)
Definition rendering_of (generatorContext : DocGeneratorContext)
    (result : string) : Prop :=
  (template_ generatorContext = "" /\
   toJson (files generatorContext) = Some result) \/
  (template_ generatorContext <> "" /\
   Renderer.error
     (mustache pFilter nobrFilter (files generatorContext)
        (template_ generatorContext)) = "" /\
   result =
   Renderer.output
     (mustache pFilter nobrFilter (files generatorContext)
        (template_ generatorContext))).

End Rendered.

(** Is [fileDescriptor] the last of the parsed files? *)
Definition is_last (parsedFiles : list FileDescriptor.t)
    (fileDescriptor : FileDescriptor.t) : bool :=
  from_option (same_file fileDescriptor) false (last parsedFiles).

(** A JSON writer and a template engine to run examples with: the first
    writes the number of files, the second copies the template and
    reports an error for the template [{{]. *)
Definition count_json (files : list QVariant) : option string :=
  Some (pretty.pretty (length files)).

Definition copy_engine (p nobr : Filter) (files : list QVariant)
    (template : string) : Renderer.t :=
  {| Renderer.output := template;
     Renderer.error :=
       if bool_decide (template = "{{") then "Unclosed tag" else "";
     Renderer.errorPos := 0;
     Renderer.errorPartial := "" |}.

Definition empty_proto (name : string) : FileDescriptor.t :=
  {| FileDescriptor.name := name;
     FileDescriptor.package := "";
     FileDescriptor.message_type := [];
     FileDescriptor.enum_type := [] |}.

(** A file system with the schema files [a.proto] and [b.proto] and the
    templates [good.mustache] and [bad.mustache]. *)
Definition two_files : string -> OpenResult :=
  fun path =>
    if bool_decide (path = "a.proto") then Opened ("/// A." +:+ nl)
    else if bool_decide (path = "b.proto") then Opened ("message B {}" +:+ nl)
    else if bool_decide (path = "good.mustache") then Opened "Files"
    else if bool_decide (path = "bad.mustache") then Opened "{{"
    else OpenFailed "No such file or directory".

(** What a call of [Generate], or a run, leaves behind: success, the
    names of the files in the list of the context, the sink and the
    error string. *)
Definition outcome
    (result : option (bool * DocGeneratorContext * Sink * string))
  : option (bool * list string * Sink * string) :=
  match result with
  | Some (succeeded, generatorContext, sink, error) =>
      Some (succeeded, file_name_in <$> files generatorContext, sink, error)
  | None => None
  end.

(** ** Notions for the header of a file *)

(** A line of a [///] block, and the line without the marker and
    without one space after the marker. *)
Definition has_marker (line : string) : bool :=
  match line with
  | String "/" (String "/" (String "/" _)) => true
  | _ => false
  end.

Definition strip_marker (line : string) : string :=
  match line with
  | String "/" (String "/" (String "/" (String " " r))) => r
  | String "/" (String "/" (String "/" r)) => r
  | _ => line
  end.

(** The lines of a block without their markers, joined by line feeds. *)
Definition line_doc_block (block : list string) : string :=
  QString.join nl (strip_marker <$> block).

(** A schema file whose first header line ends in a space. *)
Definition spaced_source : string :=
  "/// Title " +:+ nl +:+ "/// more" +:+ nl +:+ "message M {}" +:+ nl.

(** The schema file of the design's example, with something after the
    header. *)
Definition two_line_source : string :=
  "/// Line one" +:+ nl +:+ "/// Line two" +:+ nl +:+ nl
  +:+ "message M {}" +:+ nl.

(** ** Notions for the paragraph filter *)

Definition is_newline (c : ascii) : bool :=
  bool_decide (c = LF) || bool_decide (c = CR).

Definition all_blank (s : string) : Prop :=
  Forall (fun c => Ascii.is_space c = true) (list_ascii_of_string s).

(** The lines of a text: a line ends at a carriage return with a line
    feed after it, at a line feed alone, or at a carriage return
    alone. *)
Fixpoint text_lines (s : string) : list string :=
  match s with
  | "" => [""]
  | String c r =>
      if bool_decide (c = LF) then "" :: text_lines r
      else if bool_decide (c = CR) then
        match r with
        | String d r' =>
            if bool_decide (d = LF) then "" :: text_lines r'
            else "" :: text_lines r
        | "" => "" :: text_lines r
        end
      else QString.cons_head c (text_lines r)
  end.

(** A text holds a blank line: a line of white space only that is
    neither the first line nor the last.  Where it stands the text has a
    blank-line boundary. *)
Definition has_blank_line (s : string) : Prop :=
  exists before line after,
    text_lines s = before ++ line :: after /\
    before <> [] /\ after <> [] /\ all_blank line.

(** [Hello] and [World] on two lines, with a line end of the three
    kinds. *)
Definition crlf_text : string :=
  "Hello" +:+ String CR (String LF "World").

Definition lf_text : string := "Hello" +:+ String LF "World".

Definition cr_text : string := "Hello" +:+ String CR "World".

Definition blank_line_text : string :=
  "Hello" +:+ String LF (String LF "World").

(** What the pattern of [pFilter] matches: a line feed or carriage
    return, white space, and again a line feed or carriage return.  A
    carriage return with the line feed of one CR LF line end is such a
    pair too. *)
Definition newline_pair (sep : string) : Prop :=
  exists a ws b,
    sep = String a (ws +:+ String b "") /\
    is_newline a = true /\ all_blank ws /\ is_newline b = true.

(** No such pair lies within [s]. *)
Definition newline_pair_free (s : string) : Prop :=
  forall pre sep post, s = pre +:+ sep +:+ post -> ~ newline_pair sep.

(** A text made of a first segment and of separators, each followed by
    a further segment. *)
Fixpoint weave (first : string) (rest : list (string * string)) : string :=
  match rest with
  | [] => first
  | (sep, segment) :: rest' => first +:+ sep +:+ weave segment rest'
  end.

(** What follows [\s*(\n|\r|\r\n)] at the front of [s], when it is
    the end of a match. *)
Definition blank_then_newline (s : string) : option string :=
  Regex.star_space s (fun s' =>
    match s' with
    | String c r => if is_newline c then Some r else None
    | "" => None
    end).

(** * Notions for further properties of the walk *)

Definition has_fields_in (node : QVariant) : QVariant :=
  Variant.at_key (Variant.toHash node) "message_has_fields".

Definition message_name_of (node : QVariant) : string :=
  Variant.toString (Variant.at_key (Variant.toHash node) "message_name").

Definition enum_name_of (node : QVariant) : string :=
  Variant.toString (Variant.at_key (Variant.toHash node) "enum_name").

Definition file_messages_in (node : QVariant) : list QVariant :=
  Variant.toList (Variant.at_key (Variant.toHash node) "file_messages").

Definition file_enums_in (node : QVariant) : list QVariant :=
  Variant.toList (Variant.at_key (Variant.toHash node) "file_enums").

(** The names of the messages that a reader of the schema expects in
    the document: a message that is not excluded, then the messages
    nested in it, each with its own nested messages first. *)
Fixpoint visible_messages (generatorContext : DocGeneratorContext)
    (descriptor : Descriptor.t) : list string :=
  if excluded generatorContext descriptor then []
  else Descriptor.name descriptor
       :: flat_map (visible_messages generatorContext)
            (Descriptor.nested_type descriptor).

(** The names of the enums of a list that are not excluded. *)
Definition visible_enums (generatorContext : DocGeneratorContext)
    (enums : list EnumDescriptor.t) : list string :=
  EnumDescriptor.name <$>
    filter (fun enumDescriptor =>
              excluded generatorContext enumDescriptor = false) enums.

(** The names of the enums within a message that is not excluded: those
    of its nested messages first, then its own. *)
Fixpoint visible_nested_enums (generatorContext : DocGeneratorContext)
    (descriptor : Descriptor.t) : list string :=
  if excluded generatorContext descriptor then []
  else flat_map (visible_nested_enums generatorContext)
         (Descriptor.nested_type descriptor)
       ++ visible_enums generatorContext (Descriptor.enum_type descriptor).

(** A schema with nesting: [Outer] holds [Inner] and the enum [Kind];
    [Inner] holds the enum [Color]; [Hidden] is excluded. *)
Definition kind_enum : EnumDescriptor.t :=
  {| EnumDescriptor.name := "Kind";
     EnumDescriptor.value := [plain_value "B" 1; plain_value "A" 0];
     EnumDescriptor.location := no_comment |}.

Definition outer_message : Descriptor.t :=
  Descriptor.Build "Outer" no_comment
    [plain_field "b" "second"; plain_field "a" "first"]
    [Descriptor.Build "Inner" no_comment [plain_field "x" "x"] []
       [color_enum];
     hidden_message]
    [kind_enum].

Definition nested_proto : FileDescriptor.t :=
  {| FileDescriptor.name := "nested.proto";
     FileDescriptor.package := "demo";
     FileDescriptor.message_type := [outer_message; greek_message];
     FileDescriptor.enum_type := [color_enum] |}.

Definition nested_source : string :=
  "/// Nested." +:+ nl +:+ "message Outer {}" +:+ nl.

(** A message whose only field is excluded. *)
Definition bare_message : Descriptor.t :=
  Descriptor.Build "Bare" no_comment [deprecated_field] [] [].

(** The attached lists of a node are in ascending order of the names. *)
Definition message_sorted (node : QVariant) : Prop :=
  StronglySorted (ascending field_name_of) (message_fields node).

Definition enum_sorted (node : QVariant) : Prop :=
  StronglySorted (ascending value_name_of) (enum_values node).

(** Two hashes that hold both keys, in opposite orders. *)
Definition both_keys (field_name value_name : string) : QVariant :=
  QHash (<["value_name" := QStr value_name]>
           (<["field_name" := QStr field_name]> ∅)).

(** Is one of the fields kept? *)
Definition some_field_kept (generatorContext : DocGeneratorContext)
    (fields : list FieldDescriptor.t) : bool :=
  existsb (fun fieldDescriptor =>
             negb (excluded generatorContext fieldDescriptor)) fields.

(** A node of a file whose lists are all in order. *)
Definition file_sorted (node : QVariant) : Prop :=
  Forall message_sorted (file_messages_in node) /\
  Forall enum_sorted (file_enums_in node).

(** * Notions for further properties of the header of a file *)

(** A line is blank when trimming leaves nothing of it. *)
Definition blank (line : string) : Prop := QString.trimmed line = "".

(** Does a trimmed line open a header: a [///] line, or a [/**] comment
    other than [/***/]? *)
Definition opens_header (line : string) : bool :=
  QString.startsWith "///" line
  || QString.startsWith "/**" line && negb (QString.startsWith "/***/" line).

(** What the scan of a header leaves for the description, after the
    trimming and the [@exclude] check. *)
Definition checked_header (generatorContext : DocGeneratorContext)
    (error text : string) : option (string * string * bool) :=
  Some ((checkExcluded generatorContext (QString.trimmed text)).1, error,
        (checkExcluded generatorContext (QString.trimmed text)).2).

(** A line of a block comment without the star, and the space after
    it, at its start. *)
Definition strip_star (line : string) : string :=
  if QString.startsWith "* " line then QString.mid 2 line
  else if QString.startsWith "*" line then QString.mid 1 line
  else line.

(** The part of a line before the first [*/]. *)
Fixpoint before_close (line : string) : string :=
  if QString.startsWith "*/" line then ""
  else match line with
       | String c r => String c (before_close r)
       | "" => ""
       end.

(** The text of a block comment: the lines before the one that closes
    it, each without its star and with a line feed, and what precedes
    the closing marker in the last line. *)
Definition block_text (opening : list string) (closing : string) : string :=
  QString.concat ((fun l => strip_star l +:+ nl) <$> opening)
  +:+ strip_star (before_close closing).

(** Example files. *)
Definition plain_source : string :=
  nl +:+ "// Copyright." +:+ nl +:+ "message M {}" +:+ nl.

Definition block_source : string :=
  "/**" +:+ nl +:+ " * Title" +:+ nl +:+ " * more" +:+ nl +:+ " */ ignored"
  +:+ nl +:+ "message M {}" +:+ nl.

Definition one_line_block_source : string :=
  "/** Title */" +:+ nl +:+ "message M {}" +:+ nl.

Definition unclosed_source : string :=
  "/** Title" +:+ nl +:+ "message M {}" +:+ nl.

Definition final_block_source : string :=
  "/// One" +:+ nl +:+ "/// Two" +:+ nl +:+ "/// Three" +:+ nl.

Definition excluded_source : string :=
  "/// @exclude internal" +:+ nl +:+ "message M {}" +:+ nl.

Definition has_percent (s : string) : Prop :=
  "%"%char ∈ list_ascii_of_string s.

(** * Notions for further properties of parameters and rendering *)

(** The file that holds the template of a name: a resource of the
    plugin for a built-in format, else the file of that name. *)
Definition template_file (supportedFormats : list string) (name : string)
  : string :=
  if bool_decide (name ∈ supportedFormats)
  then ":/templates/" +:+ name +:+ ".mustache"
  else name.

(** What [render] does with the JSON writer alone. *)
Definition json_rendering (toJson : list QVariant -> option string)
    (files : list QVariant) (outputFileName : string) (sink : Sink)
    (error : string) : bool * Sink * string :=
  match toJson files with
  | Some document => (true, (outputFileName, document) :: sink, error)
  | None => (false, sink, "Failed to create JSON document")
  end.

(** A text without its carriage returns and line feeds. *)
Fixpoint without_breaks (s : string) : string :=
  match s with
  | "" => ""
  | String c r =>
      if is_newline c then without_breaks r else String c (without_breaks r)
  end.

(** A text without the occurrences of one code unit. *)
Fixpoint without_char (c : ascii) (s : string) : string :=
  match s with
  | "" => ""
  | String d r =>
      if bool_decide (c = d) then without_char c r
      else String d (without_char c r)
  end.

(** The number of carriage returns and line feeds of a text. *)
Fixpoint count_newlines (s : string) : nat :=
  match s with
  | "" => 0
  | String c r => (if is_newline c then 1 else 0) + count_newlines r
  end.

(** The place of a rendering error. *)
Definition error_location (template_ errorPartial : string) : string :=
  if bool_decide (errorPartial = "") then template_
  else template_ +:+ " in partial " +:+ errorPartial.

(** A file system with an empty template. *)
Definition empty_template : string -> OpenResult :=
  fun path =>
    if bool_decide (path = "empty.mustache") then Opened ""
    else OpenFailed "No such file or directory".

(** A file system with the built-in template of the format [html]. *)
Definition built_in_html : string -> OpenResult :=
  fun path =>
    if bool_decide (path = ":/templates/html.mustache") then Opened "<html>"
    else if bool_decide (path = "html") then Opened "local"
    else OpenFailed "No such file or directory".

(** * Notions for further properties of a run *)

(** Is [fileDescriptor] the first of the parsed files? *)
Definition is_first (parsedFiles : list FileDescriptor.t)
    (fileDescriptor : FileDescriptor.t) : bool :=
  from_option (same_file fileDescriptor) false (head parsedFiles).

(** Is the file kept: does the scan of its header return, and without
    the mark of an [@exclude] that counts? *)
Definition file_kept (file_open : string -> OpenResult)
    (generatorContext : DocGeneratorContext)
    (fileDescriptor : FileDescriptor.t) : bool :=
  match descriptionOfFile file_open generatorContext fileDescriptor "" with
  | Some (_, _, false) => true
  | _ => false
  end.

(** The names under which the kept files of a list are documented. *)
Definition documented_files (file_open : string -> OpenResult)
    (generatorContext : DocGeneratorContext)
    (parsedFiles : list FileDescriptor.t) : list string :=
  (fun fileDescriptor => fileName (FileDescriptor.name fileDescriptor)) <$>
    filter (fun fileDescriptor =>
              file_kept file_open generatorContext fileDescriptor = true)
      parsedFiles.

(** A file system with three schema files, the second of which is
    excluded. *)
Definition three_files : string -> OpenResult :=
  fun path =>
    if bool_decide (path = "src/a.proto") then Opened ("/// A." +:+ nl)
    else if bool_decide (path = "src/x.proto") then Opened excluded_source
    else if bool_decide (path = "src/b.proto")
    then Opened ("message B {}" +:+ nl)
    else OpenFailed "No such file or directory".

(** The contexts at the end of three runs. *)
Definition context_after
    (result : option (bool * DocGeneratorContext * Sink * string))
  : DocGeneratorContext :=
  match result with
  | Some (_, generatorContext, _, _) => generatorContext
  | None => initialContext
  end.

Definition two_run_context : DocGeneratorContext :=
  Eval vm_compute in
    context_after
      (run [] two_files stable_sort count_json copy_engine
         [empty_proto "a.proto"; empty_proto "b.proto"]
         "good.mustache,out.html").

Definition three_run_context : DocGeneratorContext :=
  Eval vm_compute in
    context_after
      (run [] three_files stable_sort count_json copy_engine
         [empty_proto "src/a.proto"; empty_proto "src/x.proto";
          empty_proto "src/b.proto"] "json,out.json").

Definition nested_run_context : DocGeneratorContext :=
  Eval vm_compute in
    context_after
      (run [] (one_file "nested.proto" nested_source) stable_sort count_json
         copy_engine [nested_proto] "json,out.json").

(** * Properties *)
(** ** Strings *)
Lemma append_nil_r (s : string) : s +:+ "" = s.
Proof.
  induction s as [|c s IH]; [done|].
  change (String c (s +:+ "") = String c s). by rewrite IH.
Qed.

Lemma append_cons (c : ascii) (a b : string) :
  String c a +:+ b = String c (a +:+ b).
Proof. done. Qed.

Lemma append_assoc (a b c : string) : (a +:+ b) +:+ c = a +:+ (b +:+ c).
Proof.
  induction a as [|x a IH]; [done|]. by rewrite !append_cons, IH.
Qed.

Lemma append_nil_l (s : string) : "" +:+ s = s.
Proof. done. Qed.

Lemma trim_start_split (s : string) :
  exists pre, s = pre +:+ QString.trim_start s /\ all_space pre /\
    forall c, first_char (QString.trim_start s) = Some c ->
              QString.isSpace c = false.
Proof.
  induction s as [|c s (pre & E & Hpre & Hc)].
  { exists "". repeat split; [constructor|done]. }
  simpl. destruct (QString.isSpace c) eqn:Hsp.
  - exists (String c pre). split; [by rewrite append_cons, <- E|].
    split; [by constructor|done].
  - exists "". split; [done|]. split; [constructor|].
    intros d [= <-]. done.
Qed.

Lemma trim_end_nil_inv (s : string) : QString.trim_end s = "" -> all_space s.
Proof.
  induction s as [|c s IH]; [constructor|]. simpl.
  destruct (QString.trim_end s) eqn:E; [|done].
  destruct (QString.isSpace c) eqn:Hsp; [|done].
  intros _. constructor; [done|]. by apply IH.
Qed.

Lemma trim_end_first (s : string) :
  first_char (QString.trim_end s) = None \/
  first_char (QString.trim_end s) = first_char s.
Proof.
  destruct s as [|c s]; [by left|]. simpl.
  destruct (QString.trim_end s); [|by right].
  destruct (QString.isSpace c); [by left|by right].
Qed.

Lemma trim_end_split (s : string) :
  exists post, s = QString.trim_end s +:+ post /\ all_space post /\
    forall c, last_char (QString.trim_end s) = Some c ->
              QString.isSpace c = false.
Proof.
  induction s as [|c s (post & E & Hpost & Hc)].
  { exists "". repeat split; [constructor|done]. }
  simpl. destruct (QString.trim_end s) as [|d t] eqn:Ht.
  - destruct (QString.isSpace c) eqn:Hsp.
    + exists (String c s). split; [done|]. split; [|done].
      constructor; [done|]. by apply trim_end_nil_inv.
    + exists post. split; [by rewrite append_cons, <- E|].
      split; [done|]. by intros ? [= <-].
  - exists post. split; [by rewrite append_cons, <- E|]. split; [done|].
    intros e He. apply Hc. simpl in *.
    by destruct (last_char t).
Qed.

(** [trimmed] cuts white space, and only white space, off both ends
    until none is left there. *)
Lemma trimmed_split (s : string) :
  exists pre post,
    s = pre +:+ QString.trimmed s +:+ post /\
    all_space pre /\ all_space post /\ no_space_around (QString.trimmed s).
Proof.
  destruct (trim_start_split s) as (pre & E1 & Hpre & Hfirst).
  destruct (trim_end_split (QString.trim_start s)) as (post & E2 & Hpost & Hlast).
  exists pre, post. unfold QString.trimmed. split; [by rewrite <- E2|].
  repeat split; [done..| |done].
  intros c Hc. destruct (trim_end_first (QString.trim_start s)) as [E|E];
    rewrite E in Hc; [done|by apply Hfirst].
Qed.

Lemma line_space_length (prev : option ascii) (s : string) :
  Regex.match_length re_line_space prev s =
  if line_start prev && QString.startsWithChar " " s then Some 1 else None.
Proof.
  unfold Regex.match_length, Regex.match_at, re_line_space. simpl.
  destruct prev as [p|]; simpl.
  - destruct (bool_decide (p = LF)); simpl; [|done].
    destruct s as [|c s]; simpl; [done|].
    destruct (bool_decide (c = " "%char)); simpl; [|done].
    f_equal. lia.
  - destruct s as [|c s]; simpl; [done|].
    destruct (bool_decide (c = " "%char)); simpl; [|done].
    f_equal. lia.
Qed.

Lemma remove_line_space_go (prev : option ascii) (s : string) :
  Regex.remove_go re_line_space 0 prev s = strip_from (line_start prev) s.
Proof.
  revert prev. induction s as [|c s IH]; intros prev; [done|].
  cbn [Regex.remove_go strip_from]. rewrite line_space_length.
  cbn [QString.startsWithChar].
  destruct (line_start prev && bool_decide (c = " "%char)) eqn:E.
  - rewrite IH. cbn [line_start].
    apply andb_prop in E as [_ Hc]. apply bool_decide_eq_true in Hc as ->.
    done.
  - by rewrite IH.
Qed.

Lemma split_cons (sep : ascii) (s : string) :
  exists x r, QString.split sep s = x :: r.
Proof.
  induction s as [|c s (x & r & E)]; simpl; [by eauto|].
  destruct (bool_decide (c = sep)); [by eauto|]. rewrite E. simpl. eauto.
Qed.

Lemma join_cons2 (sep x y : string) (r : list string) :
  QString.join sep (x :: y :: r) = x +:+ sep +:+ QString.join sep (y :: r).
Proof. done. Qed.

Lemma strip_from_lines (s : string) :
  strip_from true s = strip_lines s /\
  (forall x r, QString.split LF s = x :: r ->
     strip_from false s =
     QString.join (String LF "") (x :: map strip_one_space r)).
Proof.
  unfold strip_lines.
  induction s as [|c s [IHt IHf]]; [split; [done|by intros ?? [= <- <-]]|].
  destruct (split_cons LF s) as (x & r & E).
  cbn [strip_from QString.split]. rewrite E.
  destruct (bool_decide (c = LF)) eqn:Hc.
  - apply bool_decide_eq_true in Hc as ->.
    rewrite IHt, E. split.
    + done.
    + intros ?? [= <- <-]. done.
  - cbn [QString.cons_head map andb]. rewrite (IHf _ _ E). split.
    + destruct (bool_decide (c = " "%char)) eqn:Hsp.
      * apply bool_decide_eq_true in Hsp as ->. cbn [strip_one_space].
        done.
      * assert (strip_one_space (String c x) = String c x) as ->.
        { destruct c as [[] [] [] [] [] [] [] []]; done. }
        destruct r; done.
    + intros ?? [= <- <-]. destruct r; done.
Qed.

(** Removing the matches of [^ ] drops at most one space at the start of
    every line. *)
Lemma remove_line_space (s : string) :
  Regex.remove re_line_space s = strip_lines s.
Proof.
  unfold Regex.remove. rewrite remove_line_space_go.
  apply strip_from_lines.
Qed.

(** ** Comments *)

Lemma startsWithChar_cases (s : string) :
  QString.startsWithChar "*" s || QString.startsWithChar "/" s =
  match s with
  | String m _ => bool_decide (m = "*"%char) || bool_decide (m = "/"%char)
  | "" => false
  end.
Proof. by destruct s. Qed.

Lemma mid_1 (c : ascii) (s : string) : QString.mid 1 (String c s) = s.
Proof. done. Qed.

(** What [descriptionOf] appends for one raw comment. *)
Lemma comment_part_code (description comment : string) :
  (if QString.startsWithChar "*" comment || QString.startsWithChar "/" comment
   then description
        +:+ Regex.remove re_line_space (QString.mid 1 comment)
   else description) = description +:+ comment_part comment.
Proof.
  rewrite startsWithChar_cases. destruct comment as [|m r]; simpl.
  { by rewrite append_nil_r. }
  destruct (bool_decide (m = "*"%char) || bool_decide (m = "/"%char)).
  - by rewrite remove_line_space.
  - by rewrite append_nil_r.
Qed.

Lemma descriptionOf_parts {T} `{Located T}
    (generatorContext : DocGeneratorContext) (descriptor : T) :
  descriptionOf generatorContext descriptor =
  checkExcluded generatorContext
    (QString.trimmed
       (comment_part (leading_comments (GetSourceLocation descriptor))
        +:+ comment_part (trailing_comments (GetSourceLocation descriptor)))).
Proof.
  unfold descriptionOf. cbv zeta. by rewrite !comment_part_code.
Qed.

(** The directive: exactly the eight code units of [@exclude] are cut
    off, and the flag is the negation of [noExclude]. *)
Lemma checkExcluded_directive (generatorContext : DocGeneratorContext)
    (rest : string) :
  checkExcluded generatorContext ("@exclude" +:+ rest) =
  (rest, negb (noExclude generatorContext)).
Proof. reflexivity. Qed.

Lemma checkExcluded_plain (generatorContext : DocGeneratorContext)
    (description : string) :
  QString.startsWith "@exclude" description = false ->
  checkExcluded generatorContext description = (description, false).
Proof. unfold checkExcluded. by intros ->. Qed.

Lemma startsWith_split (p s : string) :
  QString.startsWith p s = true -> s = p +:+ QString.mid (String.length p) s.
Proof.
  revert s. induction p as [|c p IH]; intros s; [done|].
  destruct s as [|d s]; simpl; [done|].
  case_bool_decide as Hc; [subst d|done].
  intros Hp. by rewrite append_cons, <- IH.
Qed.

(** C4: each raw comment counts only when it begins with [*] or [/];
    then that one marker is cut off and every line loses at most one
    leading space ([comment_part]).  The leading part is followed
    directly by the trailing part, white space is cut off both ends of
    the whole, and the result goes through the [@exclude] check. *)
Theorem C4_description_of_comments {T} `{Located T}
    (generatorContext : DocGeneratorContext) (descriptor : T) :
  exists pre text post,
    comment_part (leading_comments (GetSourceLocation descriptor))
    +:+ comment_part (trailing_comments (GetSourceLocation descriptor))
    = pre +:+ text +:+ post /\
    all_space pre /\ all_space post /\ no_space_around text /\
    descriptionOf generatorContext descriptor
    = checkExcluded generatorContext text.
Proof.
  rewrite descriptionOf_parts.
  destruct (trimmed_split
    (comment_part (leading_comments (GetSourceLocation descriptor))
     +:+ comment_part (trailing_comments (GetSourceLocation descriptor))))
    as (pre & post & E & Hpre & Hpost & Hno).
  exists pre, (QString.trimmed
    (comment_part (leading_comments (GetSourceLocation descriptor))
     +:+ comment_part (trailing_comments (GetSourceLocation descriptor)))),
    post.
  by rewrite <- E.
Qed.

(** C3: the field commented [/** @exclude Deprecated field */].  With the
    directive honoured the field is left out.  With [no-exclude] the
    field is kept, and its description is what is left of the trimmed
    comment after the eight code units of the directive: the space
    that followed the directive is still there. *)
Theorem C3_exclude_example :
  descriptionOf honor deprecated_field = (" Deprecated field", true) /\
  addField honor deprecated_field [] = [] /\
  descriptionOf ignore deprecated_field = (" Deprecated field", false) /\
  (exists field,
     addField ignore deprecated_field [] = [QHash field] /\
     field !! "field_description" = Some (QStr " Deprecated field")) /\
  " Deprecated field" <> "Deprecated field".
Proof.
  split; [done|]. split; [done|]. split; [done|]. split; [|done].
  eexists. split; [reflexivity|]. by vm_compute.
Qed.

(** ** The order of [QString] *)

Lemma lt_false_le (a b : string) :
  QString.lt a b = false <-> (b ≤ a)%string.
Proof.
  unfold QString.lt, String.ltb, String.le, String.leb.
  rewrite (String.compare_antisym b a).
  destruct (a ?= b)%string; simpl; naive_solver.
Qed.

Lemma lt_true_not_le (a b : string) :
  QString.lt a b = true <-> ~ (b ≤ a)%string.
Proof.
  rewrite <- lt_false_le. destruct (QString.lt a b); naive_solver.
Qed.

Lemma lt_irrefl (a : string) : QString.lt a a = false.
Proof. by apply lt_false_le. Qed.

(** ** [nameLessThan] on the lists that [main.cpp] sorts *)

(** On items without a value name (field items) the comparator compares
    the field names; on items without a field name (enum value items) it
    compares the value names. *)
Lemma nameLessThan_fields (v1 v2 : QVariant) :
  value_name_of v1 = "" -> value_name_of v2 = "" ->
  nameLessThan v1 v2 = QString.lt (field_name_of v1) (field_name_of v2).
Proof.
  unfold nameLessThan, value_name_of, field_name_of. intros -> ->.
  by destruct (QString.lt _ _).
Qed.

Lemma nameLessThan_values (v1 v2 : QVariant) :
  field_name_of v1 = "" -> field_name_of v2 = "" ->
  nameLessThan v1 v2 = QString.lt (value_name_of v1) (value_name_of v2).
Proof.
  unfold nameLessThan, value_name_of, field_name_of. by intros -> ->.
Qed.

(** A comparator that compares one key with [<] is a strict weak
    ordering, and a list sorted by it ascends in that key. *)
Section Keyed.

Context (key : QVariant -> string) (l : list QVariant).
Hypothesis comp_key : forall x y, x ∈ l -> y ∈ l ->
  nameLessThan x y = QString.lt (key x) (key y).

Lemma keyed_strict_weak : strict_weak_on nameLessThan l.
Proof.
  split; [|split].
  - intros x Hx. rewrite comp_key by done. apply lt_irrefl.
  - intros x y z Hx Hy Hz. rewrite !comp_key by done.
    rewrite !lt_true_not_le. intros Hxy Hyz Hzx. apply Hxy.
    destruct (total (≤)%string (key y) (key z)) as [Hle|Hle]; [|done].
    by etrans.
  - intros x y z Hx Hy Hz. rewrite !comp_key by done.
    rewrite !lt_false_le. intros ????. split; by etrans.
Qed.

End Keyed.

Lemma sorted_wrt_cons_inv {A} (comp : A -> A -> bool) (x : A) (l : list A) :
  sorted_wrt comp (x :: l) ->
  Forall (fun y => comp y x = false) l /\ sorted_wrt comp l.
Proof.
  intros Hs. split.
  - apply Forall_lookup. intros i y Hy.
    apply (Hs 0 (S i) x y); [lia|done..].
  - intros i j a b Hij Ha Hb. apply (Hs (S i) (S j) a b); [lia|done..].
Qed.

Lemma sorted_wrt_strongly {A} (comp : A -> A -> bool) (l : list A) :
  sorted_wrt comp l <-> StronglySorted (fun a b => comp b a = false) l.
Proof.
  split.
  - induction l as [|x l IH]; intros Hs; [constructor|].
    apply sorted_wrt_cons_inv in Hs as [Hx Hl].
    constructor; [by apply IH|done].
  - induction 1 as [|x l Hl IH Hx]; intros i j a b Hij Ha Hb.
    { done. }
    destruct j as [|j]; [lia|]. destruct i as [|i]; simplify_eq/=.
    + rewrite Forall_lookup in Hx. by eapply Hx.
    + apply (IH i j); [lia|done..].
Qed.

Lemma sorted_wrt_ascending (key : QVariant -> string) (l : list QVariant) :
  (forall x y, x ∈ l -> y ∈ l ->
     nameLessThan x y = QString.lt (key x) (key y)) ->
  sorted_wrt nameLessThan l -> StronglySorted (ascending key) l.
Proof.
  intros Hkey Hs. apply sorted_wrt_strongly in Hs.
  induction Hs as [|x l Hl IH Hx]; [constructor|].
  constructor.
  - apply IH. intros ????. apply Hkey; by constructor.
  - rewrite Forall_forall in Hx. apply Forall_forall. intros y Hy.
    unfold ascending. apply lt_false_le. rewrite <- Hkey.
    + by apply Hx.
    + by constructor.
    + by left.
Qed.

(** ** The two reference sorts meet the contract of [std::sort] *)

Lemma strict_weak_on_subseteq {A} (comp : A -> A -> bool) (l k : list A) :
  k ⊆ l -> strict_weak_on comp l -> strict_weak_on comp k.
Proof.
  intros E (Hirr & Htr & Heq). split; [|split].
  - intros x Hx. apply Hirr. by apply E.
  - intros x y z Hx Hy Hz. apply Htr; by apply E.
  - intros x y z Hx Hy Hz. apply Heq; by apply E.
Qed.

Lemma stable_insert_perm {A} (comp : A -> A -> bool) (x : A) (l : list A) :
  stable_insert comp x l ≡ₚ x :: l.
Proof.
  induction l as [|y l IH]; simpl; [done|].
  destruct (comp y x); [|done]. rewrite IH. apply Permutation_swap.
Qed.

Lemma stable_sort_perm {A} (comp : A -> A -> bool) (l : list A) :
  stable_sort comp l ≡ₚ l.
Proof.
  induction l as [|x l IH]; simpl; [done|].
  unfold stable_sort in *. simpl. by rewrite stable_insert_perm, IH.
Qed.

(** In a strict weak ordering, "not less" is transitive. *)
Lemma strict_weak_not_less {A} (comp : A -> A -> bool) (l : list A)
    (x y z : A) :
  strict_weak_on comp l -> x ∈ l -> y ∈ l -> z ∈ l ->
  comp x y = false -> comp y z = false -> comp x z = false.
Proof.
  intros (Hirr & Htr & Heq) Hx Hy Hz Hxy Hyz.
  destruct (comp x z) eqn:Hxz; [|done].
  destruct (comp y x) eqn:Hyx.
  { by rewrite (Htr y x z) in Hyz. }
  destruct (comp z y) eqn:Hzy.
  { by rewrite (Htr x z y) in Hxy. }
  destruct (Heq x y z) as [Hxz' _]; [done..|]. congruence.
Qed.

Lemma stable_insert_sorted {A} (comp : A -> A -> bool) (x : A) (l : list A) :
  strict_weak_on comp (x :: l) ->
  StronglySorted (fun a b => comp b a = false) l ->
  StronglySorted (fun a b => comp b a = false) (stable_insert comp x l).
Proof.
  intros Hsw Hs. induction Hs as [|y l Hl IH Hy]; simpl.
  { repeat constructor. }
  pose proof Hsw as (Hirr & Htr & _).
  rewrite Forall_forall in Hy.
  destruct (comp y x) eqn:Hyx.
  - constructor.
    + apply IH. eapply strict_weak_on_subseteq; [|done]. set_solver.
    + apply Forall_forall. intros b Hb. rewrite stable_insert_perm in Hb.
      apply elem_of_cons in Hb as [->|Hb]; [|by apply Hy].
      destruct (comp x y) eqn:Hxy; [|done].
      rewrite <- (Hirr x); [|set_solver]. symmetry.
      apply (Htr x y x); [set_solver..|done|done].
  - constructor; [by constructor; [|apply Forall_forall]|].
    apply Forall_forall. intros b Hb.
    apply elem_of_cons in Hb as [->|Hb]; [done|].
    apply (strict_weak_not_less comp (x :: y :: l) b y x);
      [done|set_solver..|by apply Hy|done].
Qed.

Lemma strict_weak_on_perm {A} (comp : A -> A -> bool) (l k : list A) :
  l ≡ₚ k -> strict_weak_on comp l -> strict_weak_on comp k.
Proof.
  intros E (Hirr & Htr & Heq). split; [|split].
  - intros x Hx. apply Hirr. by rewrite E.
  - intros x y z Hx Hy Hz. apply Htr; by rewrite E.
  - intros x y z Hx Hy Hz. apply Heq; by rewrite E.
Qed.

Lemma strict_weak_on_tail {A} (comp : A -> A -> bool) (x : A) (l : list A) :
  strict_weak_on comp (x :: l) -> strict_weak_on comp l.
Proof.
  intros (Hirr & Htr & Heq). split; [|split].
  - intros a Ha. apply Hirr. set_solver.
  - intros a b c Ha Hb Hc. apply Htr; set_solver.
  - intros a b c Ha Hb Hc. apply Heq; set_solver.
Qed.

Lemma stable_sort_sorted {A} (comp : A -> A -> bool) (l : list A) :
  strict_weak_on comp l ->
  StronglySorted (fun a b => comp b a = false) (stable_sort comp l).
Proof.
  induction l as [|x l IH]; intros Hsw; [constructor|].
  unfold stable_sort in *. simpl. apply stable_insert_sorted.
  - eapply strict_weak_on_perm; [|done].
    by rewrite (stable_sort_perm comp l).
  - apply IH. by eapply strict_weak_on_tail.
Qed.

Lemma stable_sort_contract {A} : std_sort_contract (@stable_sort A).
Proof.
  intros comp l Hsw. split; [apply stable_sort_perm|].
  by apply sorted_wrt_strongly, stable_sort_sorted.
Qed.





(** ** The walk, loop by loop *)

Lemma addField_node (generatorContext : DocGeneratorContext)
    (fieldDescriptor : FieldDescriptor.t) (fields : list QVariant) :
  addField generatorContext fieldDescriptor fields =
  if excluded generatorContext fieldDescriptor then fields
  else fields ++ [field_node generatorContext fieldDescriptor].
Proof.
  unfold addField, excluded, field_node, field_type_of.
  by destruct (descriptionOf generatorContext fieldDescriptor) as [? []].
Qed.

Lemma addValue_node (generatorContext : DocGeneratorContext)
    (valueDescriptor : EnumValueDescriptor.t) (values : list QVariant) :
  addValue generatorContext valueDescriptor values =
  if excluded generatorContext valueDescriptor then values
  else values ++ [value_node generatorContext valueDescriptor].
Proof.
  unfold addValue, excluded, value_node.
  by destruct (descriptionOf generatorContext valueDescriptor) as [? []].
Qed.

(** The loop over the fields of a message appends the items of the
    fields that are not excluded, in their order. *)
Lemma field_loop (generatorContext : DocGeneratorContext)
    (fds : list FieldDescriptor.t) (fields : list QVariant) :
  foldl (fun fields fieldDescriptor =>
           addField generatorContext fieldDescriptor fields) fields fds
  = fields ++ field_items generatorContext fds.
Proof.
  unfold field_items. revert fields.
  induction fds as [|fd fds IH]; intros fields; simpl.
  { by rewrite app_nil_r. }
  rewrite IH, addField_node, filter_cons.
  destruct (excluded generatorContext fd) eqn:E.
  - rewrite decide_False by done. done.
  - rewrite decide_True by done. by rewrite <- app_assoc.
Qed.

Lemma value_loop (generatorContext : DocGeneratorContext)
    (vds : list EnumValueDescriptor.t) (values : list QVariant) :
  foldl (fun values valueDescriptor =>
           addValue generatorContext valueDescriptor values) values vds
  = values ++ value_items generatorContext vds.
Proof.
  unfold value_items. revert values.
  induction vds as [|vd vds IH]; intros values; simpl.
  { by rewrite app_nil_r. }
  rewrite IH, addValue_node, filter_cons.
  destruct (excluded generatorContext vd) eqn:E.
  - rewrite decide_False by done. done.
  - rewrite decide_True by done. by rewrite <- app_assoc.
Qed.

Section WalkFacts.

Variable std_sort :
  (QVariant -> QVariant -> bool) -> list QVariant -> list QVariant.
Variable generatorContext : DocGeneratorContext.

Lemma addEnum_node (enumDescriptor : EnumDescriptor.t)
    (enums : list QVariant) :
  addEnum std_sort generatorContext enumDescriptor enums =
  if excluded generatorContext enumDescriptor then enums
  else enums ++ [enum_hash std_sort generatorContext enumDescriptor].
Proof.
  unfold addEnum, excluded, enum_hash.
  destruct (descriptionOf generatorContext enumDescriptor) as [? []];
    [done|].
  by rewrite (value_loop _ _ []).
Qed.

(** One step of [addMessages]. *)
Lemma addMessages_unfold (descriptor : Descriptor.t)
    (messages enums : list QVariant) :
  addMessages std_sort generatorContext descriptor messages enums =
  if excluded generatorContext descriptor then (messages, enums)
  else
    let '(messages', enums') :=
      foldl (fun '(messages, enums) nested =>
               addMessages std_sort generatorContext nested messages enums)
        (messages ++ [message_hash std_sort generatorContext descriptor],
         enums)
        (Descriptor.nested_type descriptor) in
    (messages',
     foldl (fun enums enumDescriptor =>
              addEnum std_sort generatorContext enumDescriptor enums)
       enums' (Descriptor.enum_type descriptor)).
Proof.
  destruct descriptor as [n l f nested e]. cbn [addMessages].
  unfold excluded, message_hash.
  destruct (descriptionOf _ _) as [? []]; [done|].
  by rewrite (field_loop _ _ []).
Qed.

End WalkFacts.

(** ** Keys of the items *)

Lemma field_node_keys (generatorContext : DocGeneratorContext)
    (fieldDescriptor : FieldDescriptor.t) :
  field_name_of (field_node generatorContext fieldDescriptor)
  = FieldDescriptor.name fieldDescriptor /\
  value_name_of (field_node generatorContext fieldDescriptor) = "".
Proof. split; reflexivity. Qed.

Lemma value_node_keys (generatorContext : DocGeneratorContext)
    (valueDescriptor : EnumValueDescriptor.t) :
  value_name_of (value_node generatorContext valueDescriptor)
  = EnumValueDescriptor.name valueDescriptor /\
  field_name_of (value_node generatorContext valueDescriptor) = "".
Proof. split; reflexivity. Qed.

Lemma field_items_elem (generatorContext : DocGeneratorContext)
    (fds : list FieldDescriptor.t) (x : QVariant) :
  x ∈ field_items generatorContext fds <->
  exists fd, x = field_node generatorContext fd /\ fd ∈ fds /\
             excluded generatorContext fd = false.
Proof.
  unfold field_items. rewrite list_elem_of_fmap.
  split; intros (fd & -> & Hfd); exists fd; (split; [done|]).
  - apply list_elem_of_filter in Hfd as [??]. by split.
  - apply list_elem_of_filter. by destruct Hfd.
Qed.

Lemma value_items_elem (generatorContext : DocGeneratorContext)
    (vds : list EnumValueDescriptor.t) (x : QVariant) :
  x ∈ value_items generatorContext vds <->
  exists vd, x = value_node generatorContext vd /\ vd ∈ vds /\
             excluded generatorContext vd = false.
Proof.
  unfold value_items. rewrite list_elem_of_fmap.
  split; intros (vd & -> & Hvd); exists vd; (split; [done|]).
  - apply list_elem_of_filter in Hvd as [??]. by split.
  - apply list_elem_of_filter. by destruct Hvd.
Qed.

Lemma field_items_comp (generatorContext : DocGeneratorContext)
    (fds : list FieldDescriptor.t) (x y : QVariant) :
  x ∈ field_items generatorContext fds ->
  y ∈ field_items generatorContext fds ->
  nameLessThan x y = QString.lt (field_name_of x) (field_name_of y).
Proof.
  intros (fx & -> & _)%field_items_elem (fy & -> & _)%field_items_elem.
  apply nameLessThan_fields; apply field_node_keys.
Qed.

Lemma value_items_comp (generatorContext : DocGeneratorContext)
    (vds : list EnumValueDescriptor.t) (x y : QVariant) :
  x ∈ value_items generatorContext vds ->
  y ∈ value_items generatorContext vds ->
  nameLessThan x y = QString.lt (value_name_of x) (value_name_of y).
Proof.
  intros (vx & -> & _)%value_items_elem (vy & -> & _)%value_items_elem.
  apply nameLessThan_values; apply value_node_keys.
Qed.

(** ** What the contract of [std::sort] gives for a list of items *)


Section Sorted.

Context (sort : (QVariant -> QVariant -> bool) -> list QVariant -> list QVariant).
Hypothesis sort_contract : std_sort_contract sort.

Context (key : QVariant -> string) (items : list QVariant).
Hypothesis comp_key : forall x y, x ∈ items -> y ∈ items ->
  nameLessThan x y = QString.lt (key x) (key y).

Lemma sort_perm : sort nameLessThan items ≡ₚ items.
Proof. by apply sort_contract, (keyed_strict_weak key). Qed.

Lemma sort_ascending :
  StronglySorted (ascending key) (sort nameLessThan items).
Proof.
  apply sorted_wrt_ascending.
  - intros x y Hx Hy. apply comp_key; by rewrite <- sort_perm.
  - by apply sort_contract, (keyed_strict_weak key).
Qed.


End Sorted.

(** ** The walk only appends *)

(** Induction over a message and the messages nested in it. *)
Lemma Descriptor_nested_ind (P : Descriptor.t -> Prop) :
  (forall name location field nested_type enum_type,
     Forall P nested_type ->
     P (Descriptor.Build name location field nested_type enum_type)) ->
  forall descriptor, P descriptor.
Proof.
  intros Hbuild. fix IH 1. intros [name location field nested_type enum_type].
  apply Hbuild. induction nested_type as [|d ds IHds]; constructor.
  - apply IH.
  - apply IHds.
Qed.

Section Appends.

Variable std_sort :
  (QVariant -> QVariant -> bool) -> list QVariant -> list QVariant.
Variable generatorContext : DocGeneratorContext.

Notation addMessages' := (addMessages std_sort generatorContext).
Notation addEnum' := (addEnum std_sort generatorContext).
Notation messages_of' := (messages_of std_sort generatorContext).
Notation enums_of' := (enums_of std_sort generatorContext).

Lemma enum_loop (eds : list EnumDescriptor.t) (enums : list QVariant) :
  foldl (fun enums enumDescriptor => addEnum' enumDescriptor enums)
    enums eds
  = enums ++ flat_map (fun enumDescriptor => addEnum' enumDescriptor []) eds.
Proof.
  revert enums. induction eds as [|e eds IH]; intros enums; simpl.
  { by rewrite app_nil_r. }
  rewrite IH, !addEnum_node.
  destruct (excluded generatorContext e); [done|].
  by rewrite <- app_assoc.
Qed.

Lemma nested_loop (ds : list Descriptor.t) (messages enums : list QVariant) :
  Forall (fun d => forall messages enums,
            addMessages' d messages enums
            = (messages ++ messages_of' d, enums ++ enums_of' d)) ds ->
  foldl (fun '(messages, enums) nested =>
           addMessages' nested messages enums) (messages, enums) ds
  = (messages ++ flat_map messages_of' ds, enums ++ flat_map enums_of' ds).
Proof.
  intros Hds. revert messages enums.
  induction Hds as [|d ds Hd _ IH]; intros messages enums; simpl.
  { by rewrite !app_nil_r. }
  by rewrite Hd, IH, <- !app_assoc.
Qed.

(** [addMessages] leaves what is in the two lists and appends to them;
    what it appends does not depend on the lists. *)
Lemma addMessages_app (descriptor : Descriptor.t) :
  forall messages enums,
    addMessages' descriptor messages enums
    = (messages ++ messages_of' descriptor,
       enums ++ enums_of' descriptor).
Proof.
  induction descriptor as [n l f ds es IH] using Descriptor_nested_ind.
  intros messages enums. unfold messages_of, enums_of.
  rewrite !addMessages_unfold.
  destruct (excluded generatorContext _); simpl.
  { by rewrite !app_nil_r. }
  rewrite !nested_loop by done. rewrite !enum_loop.
  by rewrite <- !app_assoc.
Qed.

(** The walk, as equations. *)
Lemma messages_of_eq (descriptor : Descriptor.t) :
  messages_of' descriptor =
  if excluded generatorContext descriptor then []
  else message_hash std_sort generatorContext descriptor
       :: flat_map messages_of' (Descriptor.nested_type descriptor).
Proof.
  unfold messages_of at 1. rewrite addMessages_unfold.
  destruct (excluded generatorContext descriptor); [done|].
  rewrite nested_loop; [done|].
  apply Forall_forall. intros d _. apply addMessages_app.
Qed.

Lemma enums_of_eq (descriptor : Descriptor.t) :
  enums_of' descriptor =
  if excluded generatorContext descriptor then []
  else flat_map enums_of' (Descriptor.nested_type descriptor)
       ++ flat_map (fun enumDescriptor => addEnum' enumDescriptor [])
            (Descriptor.enum_type descriptor).
Proof.
  unfold enums_of at 1. rewrite addMessages_unfold.
  destruct (excluded generatorContext descriptor); [done|].
  rewrite nested_loop.
  - by rewrite enum_loop.
  - apply Forall_forall. intros d _. apply addMessages_app.
Qed.

Lemma message_node_kept (descriptor : Descriptor.t) :
  excluded generatorContext descriptor = false ->
  message_node std_sort generatorContext descriptor
  = Some (message_hash std_sort generatorContext descriptor).
Proof.
  intros E. unfold message_node. fold (messages_of' descriptor).
  by rewrite messages_of_eq, E.
Qed.

Lemma enum_node_kept (enumDescriptor : EnumDescriptor.t) :
  excluded generatorContext enumDescriptor = false ->
  enum_node std_sort generatorContext enumDescriptor
  = Some (enum_hash std_sort generatorContext enumDescriptor).
Proof. intros E. unfold enum_node. by rewrite addEnum_node, E. Qed.

Lemma message_hash_fields (descriptor : Descriptor.t) :
  message_fields (message_hash std_sort generatorContext descriptor)
  = std_sort nameLessThan
      (field_items generatorContext (Descriptor.field descriptor)).
Proof. reflexivity. Qed.

Lemma enum_hash_values (enumDescriptor : EnumDescriptor.t) :
  enum_values (enum_hash std_sort generatorContext enumDescriptor)
  = std_sort nameLessThan
      (value_items generatorContext (EnumDescriptor.value enumDescriptor)).
Proof. reflexivity. Qed.

End Appends.

(** ** Sorted lists and exclusion *)


Section Stable.

Context (sort : (QVariant -> QVariant -> bool) -> list QVariant -> list QVariant).
Hypothesis sort_contract : std_sort_contract sort.
Context (key : QVariant -> string) (items : list QVariant).
Hypothesis comp_key : forall x y, x ∈ items -> y ∈ items ->
  nameLessThan x y = QString.lt (key x) (key y).



End Stable.





Lemma field_items_without (generatorContext : DocGeneratorContext)
    (pre post : list FieldDescriptor.t) (fd : FieldDescriptor.t) :
  excluded generatorContext fd = true ->
  field_items generatorContext (pre ++ fd :: post)
  = field_items generatorContext (pre ++ post).
Proof.
  intros E. unfold field_items.
  rewrite !filter_app, filter_cons, decide_False; [done|].
  by rewrite E.
Qed.

Lemma value_items_without (generatorContext : DocGeneratorContext)
    (pre post : list EnumValueDescriptor.t) (vd : EnumValueDescriptor.t) :
  excluded generatorContext vd = true ->
  value_items generatorContext (pre ++ vd :: post)
  = value_items generatorContext (pre ++ post).
Proof.
  intros E. unfold value_items.
  rewrite !filter_app, filter_cons, decide_False; [done|].
  by rewrite E.
Qed.

(** C2: an excluded message or enum leaves both lists as they are,
    whatever it holds: nothing of it or beneath it is added.  An
    excluded field or enum value is left out of the list of its parent;
    the list holds the items of the other fields (values) that are not
    excluded, sorted by name, as if the excluded one were not declared. *)
Theorem C2_excluded_items_absent
    (std_sort : (QVariant -> QVariant -> bool) -> list QVariant -> list QVariant)
    (generatorContext : DocGeneratorContext) :
  std_sort_contract std_sort ->
  (forall descriptor messages enums,
     excluded generatorContext descriptor = true ->
     addMessages std_sort generatorContext descriptor messages enums
     = (messages, enums)) /\
  (forall enumDescriptor enums,
     excluded generatorContext enumDescriptor = true ->
     addEnum std_sort generatorContext enumDescriptor enums = enums) /\
  (forall descriptor pre fieldDescriptor post,
     excluded generatorContext descriptor = false ->
     Descriptor.field descriptor = pre ++ fieldDescriptor :: post ->
     excluded generatorContext fieldDescriptor = true ->
     exists node,
       message_node std_sort generatorContext descriptor = Some node /\
       message_fields node ≡ₚ field_items generatorContext (pre ++ post) /\
       StronglySorted (ascending field_name_of) (message_fields node)) /\
  (forall enumDescriptor pre valueDescriptor post,
     excluded generatorContext enumDescriptor = false ->
     EnumDescriptor.value enumDescriptor = pre ++ valueDescriptor :: post ->
     excluded generatorContext valueDescriptor = true ->
     exists node,
       enum_node std_sort generatorContext enumDescriptor = Some node /\
       enum_values node ≡ₚ value_items generatorContext (pre ++ post) /\
       StronglySorted (ascending value_name_of) (enum_values node)).
Proof.
  intros Hsort. repeat split.
  - intros d ms es E. by rewrite addMessages_unfold, E.
  - intros e es E. by rewrite addEnum_node, E.
  - intros d pre fd post Hd Hfields Hfd.
    exists (message_hash std_sort generatorContext d).
    split; [by apply message_node_kept|].
    rewrite message_hash_fields, Hfields, (field_items_without _ _ _ _ Hfd).
    pose proof (field_items_comp generatorContext (pre ++ post)) as Hkey.
    split; [by eapply sort_perm|by apply sort_ascending].
  - intros e pre vd post He Hvalues Hvd.
    exists (enum_hash std_sort generatorContext e).
    split; [by apply enum_node_kept|].
    rewrite enum_hash_values, Hvalues, (value_items_without _ _ _ _ Hvd).
    pose proof (value_items_comp generatorContext (pre ++ post)) as Hkey.
    split; [by eapply sort_perm|by apply sort_ascending].
Qed.

Lemma C2_excluded_items_absent_witness :
  std_sort_contract (@stable_sort QVariant) /\
  excluded honor hidden_message = true /\
  addMessages stable_sort honor hidden_message [QInt 1] [QInt 2]
  = ([QInt 1], [QInt 2]) /\
  excluded honor deprecated_field = true /\
  (exists node,
     message_node stable_sort honor greek_message = Some node /\
     message_fields node
     ≡ₚ field_items honor
          ([plain_field "zeta" "z"; plain_field "alpha" "a"]
           ++ [plain_field "mu" "m"]) /\
     StronglySorted (ascending field_name_of) (message_fields node)).
Proof.
  pose proof (C2_excluded_items_absent stable_sort honor stable_sort_contract)
    as (Hmessage & _ & Hfield & _).
  split; [apply stable_sort_contract|].
  split; [reflexivity|].
  split; [exact (Hmessage hidden_message [QInt 1] [QInt 2] eq_refl)|].
  split; [reflexivity|].
  exact (Hfield greek_message
           [plain_field "zeta" "z"; plain_field "alpha" "a"]
           deprecated_field [plain_field "mu" "m"] eq_refl eq_refl eq_refl).
Defined.

(** ** Field types *)

Lemma startsWith_app (p post : string) : QString.startsWith p (p +:+ post) = true.
Proof.
  induction p as [|c p IH]; [done|].
  rewrite append_cons. simpl. by rewrite bool_decide_true, IH.
Qed.

Lemma indexOf_range (p s : string) :
  QString.indexOf p s = (-1)%Z \/ (0 <= QString.indexOf p s)%Z.
Proof.
  induction s as [|c s IH]; simpl.
  - destruct (QString.startsWith p ""); [right|left]; done.
  - destruct (QString.startsWith p (String c s)); [by right|].
    destruct IH as [->|IH]; [by left|].
    destruct (QString.indexOf p s); [right|right|]; lia.
Qed.

(** [indexOf] finds a substring exactly when it occurs. *)
Lemma indexOf_occurs (p s : string) :
  QString.indexOf p s <> (-1)%Z <-> occurs_in p s.
Proof.
  split.
  - induction s as [|c s IH]; simpl.
    + destruct (QString.startsWith p "") eqn:E; [|done]. intros _.
      exists "", (QString.mid (String.length p) "").
      by apply startsWith_split.
    + destruct (QString.startsWith p (String c s)) eqn:E.
      * intros _. exists "", (QString.mid (String.length p) (String c s)).
        by apply startsWith_split.
      * intros Hi. destruct IH as (pre & post & ->).
        { by destruct (QString.indexOf p s). }
        by exists (String c pre), post.
  - intros (pre & post & ->). induction pre as [|c pre IH].
    + rewrite append_nil_l. destruct (p +:+ post) eqn:E; simpl;
        rewrite <- E, startsWith_app; done.
    + rewrite append_cons. simpl.
      destruct (QString.startsWith p _); [done|].
      destruct (indexOf_range p (pre +:+ p +:+ post)) as [?|Hr]; [done|].
      destruct (QString.indexOf p (pre +:+ p +:+ post)); lia.
Qed.

Lemma field_type_in_node (generatorContext : DocGeneratorContext)
    (fieldDescriptor : FieldDescriptor.t) :
  field_type_in (field_node generatorContext fieldDescriptor)
  = field_type_of fieldDescriptor.
Proof.
  unfold field_type_in, field_node. cbn [Variant.toHash].
  unfold Variant.at_key. by rewrite lookup_insert_eq.
Qed.

(** C5, as the code has it: a field of scalar kind whose name holds
    [date] is shown with the type [time], whatever [scalarTypeName]
    gives for its kind; the mark of the cardinality is put around it as
    around any type.  A field of message or group kind, and a field of
    enum kind, is shown with the link to its type whatever its name
    is. *)
Theorem C5_date_in_scalar_field_name
    (generatorContext : DocGeneratorContext)
    (fieldDescriptor : FieldDescriptor.t) (fields : list QVariant) :
  excluded generatorContext fieldDescriptor = false ->
  exists node,
    addField generatorContext fieldDescriptor fields = fields ++ [node] /\
    (is_scalar (FieldDescriptor.type fieldDescriptor) = true ->
     occurs_in "date" (FieldDescriptor.name fieldDescriptor) ->
     field_type_in node
     = with_label (FieldDescriptor.label fieldDescriptor)
         (types_php "time")) /\
    (FieldDescriptor.type fieldDescriptor = TYPE_MESSAGE \/
     FieldDescriptor.type fieldDescriptor = TYPE_GROUP ->
     field_type_in node
     = with_label (FieldDescriptor.label fieldDescriptor)
         (typeUrl (FieldDescriptor.message_type_name fieldDescriptor))) /\
    (FieldDescriptor.type fieldDescriptor = TYPE_ENUM ->
     field_type_in node
     = with_label (FieldDescriptor.label fieldDescriptor)
         (typeUrl (FieldDescriptor.enum_type_name fieldDescriptor))).
Proof.
  intros Hex.
  exists (field_node generatorContext fieldDescriptor).
  rewrite addField_node, Hex. split; [done|].
  rewrite field_type_in_node. unfold field_type_of, with_label.
  split; [|split].
  - intros Hscalar Hdate%indexOf_occurs.
    rewrite bool_decide_true by done.
    by destruct (FieldDescriptor.type fieldDescriptor).
  - by intros [-> | ->].
  - by intros ->.
Qed.

Lemma C5_date_in_scalar_field_name_witness :
  excluded honor created_date = false /\
  is_scalar (FieldDescriptor.type created_date) = true /\
  occurs_in "date" (FieldDescriptor.name created_date) /\
  (exists node,
     addField honor created_date [] = [] ++ [node] /\
     field_type_in node = with_label LABEL_REQUIRED (types_php "time") /\
     field_type_in node <> scalarTypeName TYPE_INT32) /\
  excluded honor update_field = false /\
  occurs_in "date" (FieldDescriptor.name update_field) /\
  exists node,
    addField honor update_field [] = [] ++ [node] /\
    field_type_in node = with_label LABEL_REQUIRED (typeUrl "Change").
Proof.
  assert (occurs_in "date" (FieldDescriptor.name created_date)) as Hdate.
  { by exists "created_", "". }
  split; [reflexivity|]. split; [reflexivity|]. split; [exact Hdate|].
  split.
  - destruct (C5_date_in_scalar_field_name honor created_date [] eq_refl)
      as (node & Hnode & Htype & _).
    specialize (Htype eq_refl Hdate).
    exists node. split; [exact Hnode|]. split; [exact Htype|].
    rewrite Htype. vm_compute. discriminate.
  - split; [reflexivity|]. split; [by exists "up", ""|].
    destruct (C5_date_in_scalar_field_name honor update_field [] eq_refl)
      as (node & Hnode & _ & Htype & _).
    exists node. split; [exact Hnode|]. apply Htype. by left.
Defined.

(** C5 as stated fails for a field of message type: the name [update]
    holds [date], and the field is shown with the link to its message
    type. *)
Lemma C5_every_field_counterexample :
  excluded honor update_field = false /\
  occurs_in "date" (FieldDescriptor.name update_field) /\
  exists node,
    addField honor update_field [] = [] ++ [node] /\
    field_type_in node = typeUrl "Change" /\
    field_type_in node
    <> with_label (FieldDescriptor.label update_field) (types_php "time").
Proof.
  split; [reflexivity|]. split; [by exists "up", ""|].
  eexists. split; [reflexivity|]. split; [reflexivity|].
  vm_compute. discriminate.
Qed.

(** ** Files *)

Lemma fileName_no_slash (path : string) : ~ has_slash (fileName path).
Proof.
  unfold has_slash. induction path as [|c r IH]; simpl.
  { by intros ?%elem_of_nil. }
  case_bool_decide as Hr; [done|].
  case_bool_decide as Hc; [done|].
  simpl. intros [?|?]%elem_of_cons; congruence.
Qed.

Lemma last_char_cons (c : ascii) (s : string) :
  s <> "" -> last_char (String c s) = last_char s.
Proof. destruct s as [|d s]; [done|]. intros _. simpl. by destruct (last_char s). Qed.

Lemma fileName_base (path : string) : base_name_of path (fileName path).
Proof.
  split; [apply fileName_no_slash|].
  induction path as [|c r (dir & E & Hdir)]; simpl.
  { exists "". by split; [|left]. }
  case_bool_decide as Hr.
  - exists (String c dir). split; [by rewrite append_cons, <- E|]. right.
    assert (dir <> "") as Hne.
    { intros ->. rewrite append_nil_l in E. rewrite E in Hr.
      by apply fileName_no_slash in Hr. }
    rewrite last_char_cons by done. by destruct Hdir.
  - case_bool_decide as Hc.
    + subst c. exists "/". by split; [|right].
    + exists "". by split; [|left].
Qed.

(** C10: a file that is not excluded is stored with the last component
    of its path as its name, with the package as the descriptor gives it
    and with the description that was extracted. *)
Theorem C10_file_name_is_base_name
    (file_open : string -> OpenResult)
    (std_sort : (QVariant -> QVariant -> bool) -> list QVariant -> list QVariant)
    (generatorContext : DocGeneratorContext)
    (fileDescriptor : FileDescriptor.t) (files : list QVariant)
    (error description error' : string) :
  descriptionOfFile file_open generatorContext fileDescriptor error
  = Some (description, error', false) ->
  exists node,
    addFile file_open std_sort generatorContext fileDescriptor files error
    = Some (files ++ [node], error') /\
    base_name_of (FileDescriptor.name fileDescriptor) (file_name_in node) /\
    file_package_in node = FileDescriptor.package fileDescriptor /\
    file_description_in node = description.
Proof.
  intros Hdescription. unfold addFile. rewrite Hdescription. simpl.
  destruct (foldl _ _ _) as [messages enums].
  eexists. split; [reflexivity|].
  split; [apply fileName_base|]. split; reflexivity.
Qed.

Lemma C10_file_name_is_base_name_witness :
  descriptionOfFile (one_file "schemas/v1/person.proto" person_source)
    honor person_proto ""
  = Some ("People.", "", false) /\
  exists node,
    addFile (one_file "schemas/v1/person.proto" person_source) stable_sort
      honor person_proto [] ""
    = Some ([] ++ [node], "") /\
    file_name_in node = "person.proto" /\
    file_package_in node = "demo.people" /\
    file_description_in node = "People.".
Proof.
  split; [reflexivity|].
  destruct (C10_file_name_is_base_name
              (one_file "schemas/v1/person.proto" person_source) stable_sort
              honor person_proto [] "" "People." "" eq_refl)
    as (node & Hnode & _ & Hpackage & Hdescription).
  exists node. split; [exact Hnode|].
  split; [|split; [exact Hpackage|exact Hdescription]].
  injection Hnode as <-. reflexivity.
Defined.

(** ** The parameter string *)

Lemma cons_head_cons (c : ascii) (x : string) (l : list string) :
  QString.cons_head c (x :: l) = String c x :: l.
Proof. done. Qed.

(** [split] cuts at every separator: the parts hold none, and joining
    them with the separator gives the string back. *)
Lemma split_join (sep : ascii) (s : string) :
  QString.join (String sep "") (QString.split sep s) = s /\
  Forall (fun part => sep ∉ list_ascii_of_string part) (QString.split sep s).
Proof.
  induction s as [|c s [IHj IHf]]; simpl.
  { split; [done|]. repeat constructor. by intros ?%elem_of_nil. }
  destruct (split_cons sep s) as (x & r & E). rewrite E in *.
  case_bool_decide as Hc.
  - subst c. split.
    + rewrite join_cons2, IHj. done.
    + constructor; [by intros ?%elem_of_nil|done].
  - rewrite cons_head_cons. inversion_clear IHf as [|?? Hx Hr]. split.
    + destruct r as [|y r]; simpl in *; [by rewrite IHj|].
      by rewrite append_cons, IHj.
    + constructor; [|done]. simpl. intros [?|?]%elem_of_cons; congruence.
Qed.

Lemma split_unique (sep : ascii) (l : list string) :
  l <> [] -> Forall (fun part => sep ∉ list_ascii_of_string part) l ->
  QString.split sep (QString.join (String sep "") l) = l.
Proof.
  induction l as [|x l IH]; [done|]. intros _ Hl.
  inversion_clear Hl as [|?? Hx Hl'].
  assert (forall rest,
    QString.split sep (x +:+ String sep rest) = x :: QString.split sep rest)
    as Hfirst.
  { intros rest. induction x as [|c x IHx]; simpl.
    - by rewrite bool_decide_true.
    - simpl in Hx.
      rewrite bool_decide_false by (intros ->; apply Hx; by left).
      rewrite IHx; [done|]. intros ?. apply Hx. by right. }
  destruct l as [|y l].
  - simpl. clear IH Hfirst. induction x as [|c x IHx]; simpl; [done|].
    simpl in Hx.
    rewrite bool_decide_false by (intros ->; apply Hx; by left).
    rewrite IHx; [done|]. intros ?. apply Hx. by right.
  - rewrite join_cons2. change (String sep "" +:+ ?r) with (String sep r).
    rewrite Hfirst, IH; done.
Qed.

Lemma usage_eq (supportedFormats : list string) :
  usage supportedFormats = usage_message supportedFormats.
Proof. reflexivity. Qed.

Lemma two_tokens_split (parameter : string) :
  two_tokens parameter <->
  exists a b, QString.split "," parameter = [a; b].
Proof.
  split.
  - intros (a & b & Ha & Hb & ->).
    exists a, b. apply (split_unique "," [a; b]); [done|].
    by repeat constructor.
  - intros (a & b & E). destruct (split_join "," parameter) as [Hj Hf].
    rewrite E in Hj, Hf. exists a, b.
    inversion_clear Hf as [|?? Ha Hf']. inversion_clear Hf' as [|?? Hb _].
    by rewrite <- Hj.
Qed.

Lemma three_tokens_split (parameter : string) :
  three_tokens parameter <->
  exists a b, QString.split "," parameter = [a; b; "no-exclude"].
Proof.
  split.
  - intros (a & b & Ha & Hb & ->).
    exists a, b. apply (split_unique "," [a; b; "no-exclude"]); [done|].
    repeat constructor; [done..|].
    vm_compute. intros H. repeat (apply elem_of_cons in H as [H|H]; [done|]).
    by apply elem_of_nil in H.
  - intros (a & b & E). destruct (split_join "," parameter) as [Hj Hf].
    rewrite E in Hj, Hf. exists a, b.
    inversion_clear Hf as [|?? Ha Hf']. inversion_clear Hf' as [|?? Hb _].
    by rewrite <- Hj.
Qed.

(** C9: parsing succeeds exactly on [template,output] and
    [template,output,no-exclude]; on every other parameter string it
    fails, leaves the context as it is and gives the usage message, which
    lists the built-in formats. *)
Theorem C9_parameter_tokens
    (supportedFormats : list string) (file_open : string -> OpenResult)
    (parameter : string) (generatorContext : DocGeneratorContext)
    (error : string) :
  ((parseParameter supportedFormats file_open parameter generatorContext
      error).1.1 = true
   <-> two_tokens parameter \/ three_tokens parameter) /\
  ((parseParameter supportedFormats file_open parameter generatorContext
      error).1.1 = false
   <-> parseParameter supportedFormats file_open parameter generatorContext
         error
       = (false, generatorContext, usage_message supportedFormats)).
Proof.
  rewrite two_tokens_split, three_tokens_split.
  unfold parseParameter. rewrite usage_eq.
  destruct (QString.split "," parameter) as [|a [|b [|c [|d l]]]] eqn:E;
    simpl.
  - split; [|done]. split; [done|]. by intros [(?&?&?)|(?&?&?)].
  - split; [|done]. split; [done|]. by intros [(?&?&?)|(?&?&?)].
  - destruct (if bool_decide (a <> "json") then _ else _) as [t e].
    simpl. split; [|done]. split; [|done]. intros _. left. by exists a, b.
  - case_bool_decide as Hc.
    + subst c. destruct (if bool_decide (a <> "json") then _ else _) as [t e].
      simpl. split; [|done]. split; [|done]. intros _. right. by exists a, b.
    + simpl. split; [|done]. split; [done|].
      intros [(?&?&?)|(?&?&?)]; congruence.
  - split; [|done]. split; [done|]. by intros [(?&?&?)|(?&?&?)].
Qed.

(** ** A run *)

Lemma isEmpty_true (s : string) : QString.isEmpty s = true <-> s = "".
Proof. by destruct s. Qed.

Lemma isEmpty_false (s : string) : QString.isEmpty s = false <-> s <> "".
Proof. by destruct s. Qed.

Section Run.

Variable supportedFormats : list string.
Variable file_open : string -> OpenResult.
Variable std_sort :
  (QVariant -> QVariant -> bool) -> list QVariant -> list QVariant.
Variable toJson : list QVariant -> option string.
Variable mustache :
  Filter -> Filter -> list QVariant -> string -> Renderer.t.

Notation render' := (render toJson mustache).
Notation Generate' :=
  (Generate supportedFormats file_open std_sort toJson mustache).
Notation GenerateAll_from' :=
  (GenerateAll_from supportedFormats file_open std_sort toJson mustache).

(** [render] either fails and leaves the sink, or has the complete
    rendering and writes it. *)
Lemma render_cases (generatorContext : DocGeneratorContext) (sink : Sink)
    (error : string) :
  (exists message,
     render' generatorContext sink error = (false, sink, message)) \/
  (exists result,
     render' generatorContext sink error
     = (true, (outputFileName generatorContext, result) :: sink, error) /\
     rendering_of toJson mustache generatorContext result).
Proof.
  unfold render, rendering_of.
  destruct (QString.isEmpty (template_ generatorContext)) eqn:Ht.
  - apply isEmpty_true in Ht.
    destruct (toJson (files generatorContext)) as [document|];
      [right|left]; eauto.
  - apply isEmpty_false in Ht.
    destruct (QString.isEmpty (Renderer.error _)) eqn:He; simpl.
    + apply isEmpty_true in He. right. eauto 10.
    + left. eauto.
Qed.



Lemma distinct_files_last (parsedFiles pre post : list FileDescriptor.t)
    (file : FileDescriptor.t) :
  NoDup (FileDescriptor.name <$> parsedFiles) ->
  parsedFiles = pre ++ file :: post -> post <> [] ->
  is_last parsedFiles file = false.
Proof.
  intros Hnd -> Hpost. unfold is_last.
  destruct (last post) as [g|] eqn:Hg; [|by apply last_None in Hg].
  rewrite last_app, last_cons, Hg. simpl. unfold same_file.
  apply bool_decide_false. intros Hname.
  rewrite fmap_app, fmap_cons in Hnd.
  apply NoDup_app in Hnd as (_ & _ & Hnd).
  apply NoDup_cons in Hnd as [Hnotin _]. apply Hnotin.
  rewrite Hname. apply list_elem_of_fmap_2.
  apply last_Some in Hg as (l' & ->). set_solver.
Qed.


End Run.

(** C8: the code does not stop at the first error.  When the template
    cannot be read, [parseParameter] sets the error string and returns
    true all the same, and [Generate] goes on to [addFile], which opens
    and scans the schema file and adds it to the list before the call
    fails.  When the schema file cannot be opened either, [addFile] sets
    the error string anew, adds the file all the same, and the first
    error is lost: the run reports the second one.  Nothing is written
    in any of these cases. *)
Theorem C8_goes_on_after_the_first_error :
  parseParameter [] two_files "typo.mustache,out.html" initialContext ""
  = (true,
     {| template_ := ""; outputFileName := "out.html"; noExclude := false;
        files := [] |},
     "typo.mustache: No such file or directory") /\
  outcome
    (Generate [] two_files stable_sort count_json copy_engine
       [empty_proto "a.proto"] (empty_proto "a.proto")
       "typo.mustache,out.html" initialContext [] "")
  = Some (false, ["a.proto"], [],
          "typo.mustache: No such file or directory") /\
  outcome
    (Generate [] two_files stable_sort count_json copy_engine
       [empty_proto "c.proto"] (empty_proto "c.proto")
       "typo.mustache,out.html" initialContext [] "")
  = Some (false, ["c.proto"], [], "c.proto: No such file or directory") /\
  outcome
    (run [] two_files stable_sort count_json copy_engine
       [empty_proto "c.proto"; empty_proto "a.proto"]
       "typo.mustache,out.html")
  = Some (false, ["c.proto"], [],
          "c.proto: c.proto: No such file or directory").
Proof.
  split; [vm_compute; reflexivity|]. split; [vm_compute; reflexivity|].
  split; vm_compute; reflexivity.
Qed.

(** ** The header of a file *)

Lemma has_marker_startsWith (line : string) :
  QString.startsWith "///" line = has_marker line.
Proof.
  destruct line as [|a [|b [|c r]]]; simpl; try done;
    repeat (case_bool_decide; subst; simpl; try done);
    repeat match goal with
    | |- context [match ?x with Ascii _ _ _ _ _ _ _ _ => _ end] =>
        destruct x as [[] [] [] [] [] [] [] []]; try done
    end.
Qed.

Lemma strip_marker_mid (line : string) :
  has_marker line = true ->
  QString.mid (if QString.startsWith "/// " line then 4 else 3) line
  = strip_marker line.
Proof.
  destruct line as [|a [|b [|c r]]]; simpl; try done;
    repeat match goal with
    | |- context [match ?x with Ascii _ _ _ _ _ _ _ _ => _ end] =>
        destruct x as [[] [] [] [] [] [] [] []]; try done
    end.
  intros _. destruct r as [|d r]; simpl; [done|].
  case_bool_decide as Hd; [by subst d|].
  destruct d as [[] [] [] [] [] [] [] []]; done.
Qed.

Lemma lineComments_block (block : list string) :
  forall line description next rest,
    has_marker line = true ->
    Forall (fun l => has_marker (QString.trimmed l) = true) block ->
    has_marker (QString.trimmed next) = false ->
    lineComments line (block ++ next :: rest) description
    = description
      +:+ QString.concat
            ((fun l => strip_marker l +:+ nl)
               <$> line :: (QString.trimmed <$> block)).
Proof.
  induction block as [|b block IH]; intros line description next rest Hline
    Hblock Hnext; cbn [app lineComments fmap list_fmap].
  - rewrite has_marker_startsWith, Hline, strip_marker_mid by done.
    cbn [QString.concat]. rewrite append_nil_r.
    destruct rest as [|r rest]; cbn [lineComments]; [done|].
    by rewrite has_marker_startsWith, Hnext.
  - inversion_clear Hblock as [|?? Hb Hblock'].
    rewrite has_marker_startsWith, Hline, strip_marker_mid by done.
    rewrite IH by done. cbn [QString.concat fmap list_fmap].
    by rewrite !append_assoc.
Qed.

Lemma concat_lines_join (line : string) (lines : list string) :
  QString.concat ((fun l => l +:+ nl) <$> line :: lines)
  = QString.join nl (line :: lines) +:+ nl.
Proof.
  revert line. induction lines as [|l lines IH]; intros line.
  - simpl. by rewrite append_nil_r.
  - rewrite fmap_cons. cbn [QString.concat]. rewrite IH, join_cons2.
    by rewrite !append_assoc.
Qed.

Lemma length_append (a b : string) :
  String.length (a +:+ b) = String.length a + String.length b.
Proof. induction a as [|c a IH]; [done|]. rewrite append_cons. simpl. lia. Qed.

Lemma left_drop_last (s : string) (c : ascii) :
  QString.left (Z.of_nat (String.length (s +:+ String c "")) - 1)
    (s +:+ String c "") = s.
Proof.
  unfold QString.left. rewrite length_append. simpl.
  rewrite (proj2 (Z.ltb_ge _ _)) by lia.
  replace (Z.to_nat (Z.of_nat (String.length s + 1) - 1))
    with (String.length s) by lia.
  induction s as [|d s IH]; [done|]. rewrite append_cons. simpl. by rewrite IH.
Qed.

Lemma extractDescription_skip (blanks lines : list string) :
  Forall (fun l => QString.trimmed l = "") blanks ->
  extractDescription (blanks ++ lines) = extractDescription lines.
Proof.
  induction 1 as [|b blanks Hb _ IH]; [done|]. simpl. by rewrite Hb.
Qed.

Lemma has_marker_nonempty (line : string) :
  has_marker line = true -> QString.isEmpty line = false.
Proof. by destruct line. Qed.

(** The scan of a file that begins with a block of [///] lines which
    some other line follows. *)
Lemma extractDescription_block (blanks block rest : list string)
    (next : string) :
  Forall (fun l => QString.trimmed l = "") blanks ->
  block <> [] ->
  Forall (fun l => has_marker (QString.trimmed l) = true) block ->
  has_marker (QString.trimmed next) = false ->
  extractDescription (blanks ++ block ++ next :: rest)
  = Some (line_doc_block (QString.trimmed <$> block)).
Proof.
  intros Hblanks Hne Hblock Hnext.
  rewrite extractDescription_skip by done.
  destruct block as [|first block]; [done|].
  inversion_clear Hblock as [|?? Hfirst Hblock'].
  cbn [app extractDescription].
  rewrite (has_marker_nonempty _ Hfirst), has_marker_startsWith, Hfirst.
  rewrite lineComments_block by done. rewrite append_nil_l.
  f_equal. unfold line_doc_block.
  change (fun l => strip_marker l +:+ nl)
    with ((fun l => l +:+ nl) ∘ strip_marker).
  rewrite list_fmap_compose, fmap_cons, concat_lines_join.
  apply left_drop_last.
Qed.

(** C6, as the code has it: when the first line that is not blank
    begins, after trimming, with [///], and the block of such lines is
    followed by some other line, the description is made of the trimmed
    lines of the block: the marker and one space after it are cut off
    each, the lines are joined by line feeds, white space is cut off both
    ends of the result, and the [@exclude] check is applied.  A file that
    begins with [/// Line one], [/// Line two] and an empty line has the
    description [Line one], line feed, [Line two], whatever follows. *)
Theorem C6_line_doc_header
    (file_open : string -> OpenResult)
    (generatorContext : DocGeneratorContext)
    (fileDescriptor : FileDescriptor.t) (error : string) :
  (forall content blanks block next rest,
     file_open (FileDescriptor.name fileDescriptor) = Opened content ->
     readLines content = blanks ++ block ++ next :: rest ->
     Forall (fun l => QString.trimmed l = "") blanks ->
     block <> [] ->
     Forall (fun l => has_marker (QString.trimmed l) = true) block ->
     has_marker (QString.trimmed next) = false ->
     descriptionOfFile file_open generatorContext fileDescriptor error
     = Some
         ((checkExcluded generatorContext
             (QString.trimmed
                (line_doc_block (QString.trimmed <$> block)))).1,
          error,
          (checkExcluded generatorContext
             (QString.trimmed
                (line_doc_block (QString.trimmed <$> block)))).2)) /\
  (forall continuation,
     file_open (FileDescriptor.name fileDescriptor)
     = Opened ("/// Line one" +:+ nl +:+ "/// Line two" +:+ nl +:+ nl
               +:+ continuation) ->
     descriptionOfFile file_open generatorContext fileDescriptor error
     = Some ("Line one" +:+ nl +:+ "Line two", error, false)).
Proof.
  split.
  - intros content blanks block next rest Hopen Hlines Hblanks Hne Hblock
      Hnext.
    unfold descriptionOfFile. rewrite Hopen, Hlines.
    rewrite extractDescription_block by done. simpl.
    by destruct (checkExcluded _ _).
  - intros continuation Hopen.
    unfold descriptionOfFile. rewrite Hopen.
    change (readLines _)
      with ([] ++ ["/// Line one"; "/// Line two"]
            ++ "" :: readLines continuation).
    rewrite (extractDescription_block [] ["/// Line one"; "/// Line two"]);
      [done|done|done|by repeat constructor|done].
Qed.

Lemma C6_line_doc_header_witness :
  readLines two_line_source
  = [] ++ ["/// Line one"; "/// Line two"] ++ "" :: ["message M {}"] /\
  descriptionOfFile (one_file "m.proto" two_line_source) honor
    (empty_proto "m.proto") ""
  = Some ("Line one" +:+ nl +:+ "Line two", "", false).
Proof.
  split; [reflexivity|].
  apply (proj1 (C6_line_doc_header (one_file "m.proto" two_line_source) honor
                  (empty_proto "m.proto") "")
           two_line_source [] ["/// Line one"; "/// Line two"] ""
           ["message M {}"]).
  - reflexivity.
  - reflexivity.
  - constructor.
  - discriminate.
  - repeat constructor.
  - reflexivity.
Defined.

(** C6 as stated fails where a line of the block ends in white space:
    the lines are trimmed before the marker is cut off, so the space at
    the end of [/// Title ] is no part of the description, though it is
    neither the marker nor the one space after it.  Trimming the whole
    result would not remove it either. *)
Lemma C6_line_end_counterexample :
  readLines spaced_source = ["/// Title "; "/// more"; "message M {}"] /\
  line_doc_block ["/// Title "; "/// more"] = "Title " +:+ nl +:+ "more" /\
  descriptionOfFile (one_file "m.proto" spaced_source) honor
    (empty_proto "m.proto") ""
  = Some ("Title" +:+ nl +:+ "more", "", false) /\
  "Title" +:+ nl +:+ "more" <> line_doc_block ["/// Title "; "/// more"] /\
  "Title" +:+ nl +:+ "more"
  <> QString.trimmed (line_doc_block ["/// Title "; "/// more"]).
Proof. repeat split; done. Qed.

(** What the scan does with a block that ends the file is left open by
    C6 above: the loop stops before it has taken the last line. *)
Example line_block_at_end_of_file :
  extractDescription (readLines ("/// One" +:+ nl +:+ "/// Two" +:+ nl))
  = Some "One" /\
  extractDescription (readLines "/// Only") = Some "".
Proof. split; reflexivity. Qed.

(** ** The paragraph pattern *)

Lemma star_space_ext {A} (s : string) (k1 k2 : string -> option A) :
  (forall x, k1 x = k2 x) -> Regex.star_space s k1 = Regex.star_space s k2.
Proof.
  intros Hk. induction s as [|c s IH]; simpl; [done|].
  by rewrite IH, Hk.
Qed.

(** [(\n|\r|\r\n)] with a continuation. *)
Lemma newline_then {A} (prev : option ascii) (s : string)
    (k : option ascii -> string -> option A) :
  Regex.exec re_newline prev s k
  = match s with
    | String c r =>
        if bool_decide (c = LF) then k (Some LF) r
        else if bool_decide (c = CR) then
          match k (Some CR) r with
          | Some x => Some x
          | None =>
              match r with
              | String d r' =>
                  if bool_decide (d = LF) then k (Some LF) r' else None
              | "" => None
              end
          end
        else None
    | "" => None
    end.
Proof.
  destruct s as [|c r]; simpl; [done|].
  case_bool_decide as Hlf.
  - subst c. rewrite bool_decide_false by done.
    by destruct (k (Some LF) r).
  - case_bool_decide as Hcr; [subst c|done].
    destruct (k (Some CR) r); [done|].
    destruct r as [|d r']; [done|]. by case_bool_decide; subst.
Qed.

Lemma newline_final (prev : option ascii) (s : string) :
  Regex.exec re_newline prev s (fun _ s' => Some s')
  = match s with
    | String c r => if is_newline c then Some r else None
    | "" => None
    end.
Proof.
  rewrite newline_then. destruct s as [|c r]; [done|]. unfold is_newline.
  by repeat case_bool_decide.
Qed.

Lemma blank_then_newline_exec (p : option ascii) (s : string) :
  Regex.star_space s
    (fun s' => Regex.exec re_newline p s' (fun _ s'' => Some s''))
  = blank_then_newline s.
Proof. apply star_space_ext. intros x. apply newline_final. Qed.

(** The pattern at the front of a string, without the engine. *)
Lemma paragraph_match (prev : option ascii) (s : string) :
  Regex.match_at re_paragraph prev s
  = match s with
    | String c r =>
        if bool_decide (c = LF) then blank_then_newline r
        else if bool_decide (c = CR) then
          match blank_then_newline r with
          | Some x => Some x
          | None =>
              match r with
              | String d r' =>
                  if bool_decide (d = LF) then blank_then_newline r' else None
              | "" => None
              end
          end
        else None
    | "" => None
    end.
Proof.
  unfold Regex.match_at, re_paragraph. cbn [Regex.exec].
  rewrite newline_then. destruct s as [|c r]; [done|].
  rewrite !blank_then_newline_exec.
  destruct r as [|d r']; [done|]. by rewrite !blank_then_newline_exec.
Qed.

Lemma paragraph_match_prev (prev : option ascii) (s : string) :
  Regex.match_at re_paragraph prev s = Regex.match_at re_paragraph None s.
Proof. by rewrite !paragraph_match. Qed.

(** Soundness and completeness of [\s*] with a continuation. *)
Lemma star_space_sound {A} (s : string) (k : string -> option A) (x : A) :
  Regex.star_space s k = Some x ->
  exists ws s', s = ws +:+ s' /\ all_blank ws /\ k s' = Some x.
Proof.
  induction s as [|c s IH]; simpl.
  { intros Hk. exists "", "". by repeat split; [constructor|]. }
  destruct (Ascii.is_space c) eqn:Hc.
  - destruct (Regex.star_space s k) as [y|] eqn:Hs.
    + intros [= ->]. destruct (IH eq_refl) as (ws & s' & -> & Hws & Hk).
      exists (String c ws), s'. repeat split; [|done]. by constructor.
    + intros Hk. exists "", (String c s). by repeat split; [constructor|].
  - intros Hk. exists "", (String c s). by repeat split; [constructor|].
Qed.

Lemma star_space_complete {A} (ws s' : string) (k : string -> option A) :
  all_blank ws -> is_Some (k s') -> is_Some (Regex.star_space (ws +:+ s') k).
Proof.
  intros Hws Hk. induction ws as [|c ws IH].
  - rewrite append_nil_l. destruct s' as [|c s]; simpl; [done|].
    destruct (Ascii.is_space c); [|done].
    by destruct (Regex.star_space s k).
  - inversion_clear Hws as [|?? Hc Hws']. rewrite append_cons. simpl.
    rewrite Hc. destruct (IH Hws') as [x ->]. by eexists.
Qed.

Lemma blank_then_newline_sound (s rest : string) :
  blank_then_newline s = Some rest ->
  exists ws b, s = ws +:+ String b rest /\ all_blank ws /\ is_newline b = true.
Proof.
  intros (ws & s' & -> & Hws & Hk)%star_space_sound.
  destruct s' as [|b r]; [done|].
  destruct (is_newline b) eqn:Hb; [|done]. injection Hk as ->. eauto.
Qed.

Lemma blank_then_newline_complete (ws post : string) (b : ascii) :
  all_blank ws -> is_newline b = true ->
  is_Some (blank_then_newline (ws +:+ String b post)).
Proof.
  intros Hws Hb. apply star_space_complete; [done|]. by rewrite Hb.
Qed.

Lemma is_newline_blank (c : ascii) :
  is_newline c = true -> Ascii.is_space c = true.
Proof.
  unfold is_newline. intros [->%bool_decide_eq_true| ->%bool_decide_eq_true]%orb_prop;
    done.
Qed.

(** A match is such a pair, and where a pair begins there is a
    match. *)
Lemma paragraph_match_sound (prev : option ascii) (s rest : string) :
  Regex.match_at re_paragraph prev s = Some rest ->
  exists sep, newline_pair sep /\ s = sep +:+ rest.
Proof.
  rewrite paragraph_match. destruct s as [|c r]; [done|].
  assert (forall a r0, is_newline a = true ->
            blank_then_newline r0 = Some rest ->
            exists sep, newline_pair sep /\ String a r0 = sep +:+ rest) as Hone.
  { intros a r0 Ha (ws & b & -> & Hws & Hb)%blank_then_newline_sound.
    exists (String a (ws +:+ String b "")). split.
    - by exists a, ws, b.
    - by rewrite append_cons, append_assoc. }
  case_bool_decide as Hlf.
  { subst c. by apply Hone. }
  case_bool_decide as Hcr; [subst c|done].
  destruct (blank_then_newline r) eqn:Hr.
  { intros [= ->]. by apply Hone. }
  destruct r as [|d r']; [done|]. case_bool_decide as Hd; [subst d|done].
  intros (ws & b & -> & Hws & Hb)%blank_then_newline_sound.
  exists (String CR (String LF ws +:+ String b "")). split.
  - exists CR, (String LF ws), b.
    split; [done|]. split; [done|]. split; [by constructor|done].
  - by rewrite !append_cons, append_assoc.
Qed.

Lemma paragraph_match_complete (prev : option ascii) (sep post : string) :
  newline_pair sep -> is_Some (Regex.match_at re_paragraph prev (sep +:+ post)).
Proof.
  intros (a & ws & b & -> & Ha & Hws & Hb).
  rewrite paragraph_match, append_cons, append_assoc.
  change (String b "" +:+ post) with (String b post).
  pose proof (blank_then_newline_complete ws post b Hws Hb) as [x Hx].
  unfold is_newline in Ha.
  case_bool_decide; [by rewrite Hx|].
  case_bool_decide; [|done]. by rewrite Hx.
Qed.

Lemma newline_pair_length (sep : string) : newline_pair sep -> 2 <= String.length sep.
Proof.
  intros (a & ws & b & -> & _). simpl. rewrite length_append. simpl. lia.
Qed.

(** ** Splitting at the matches of the pattern *)

Lemma mid_app_length (t rest : string) :
  QString.mid (String.length t) (t +:+ rest) = rest.
Proof. induction t as [|c t IH]; [done|]. by rewrite append_cons. Qed.

Lemma weave_app (a b : string) (rest : list (string * string)) :
  weave (a +:+ b) rest = a +:+ weave b rest.
Proof. destruct rest as [|[sep seg] rest]; simpl; [done|]. by rewrite append_assoc. Qed.

Lemma weave_cons (c : ascii) (first : string) (rest : list (string * string)) :
  weave (String c first) rest = String c (weave first rest).
Proof. apply (weave_app (String c "") first). Qed.

Lemma not_newline_pair_nil : ~ newline_pair "".
Proof. intros H%newline_pair_length. simpl in H. lia. Qed.

(** What [match_length] tells about the front of a string. *)
Lemma paragraph_match_length (prev : option ascii) (s : string) :
  match Regex.match_length re_paragraph prev s with
  | Some (S n) =>
      exists sep rest,
        newline_pair sep /\ s = sep +:+ rest /\ String.length sep = S n
  | Some 0 => False
  | None => forall sep post, newline_pair sep -> s <> sep +:+ post
  end.
Proof.
  unfold Regex.match_length.
  destruct (Regex.match_at re_paragraph prev s) as [rest|] eqn:Hm; simpl.
  - apply paragraph_match_sound in Hm as (sep & Hsep & ->).
    pose proof (newline_pair_length sep Hsep) as Hlen.
    rewrite length_append.
    replace (String.length sep + String.length rest - String.length rest)
      with (String.length sep) by lia.
    destruct (String.length sep) as [|n] eqn:Hn; [lia|]. eauto.
  - intros sep post Hsep ->.
    destruct (paragraph_match_complete prev sep post Hsep) as [x Hx].
    congruence.
Qed.

(** The parts that [split] returns and the matches between them make up
    the text; every match is a pair of line ends and no part holds one. *)
Lemma split_paragraph_go (s : string) :
  forall skip prev,
  exists first rest,
    Regex.split_go re_paragraph skip prev s = first :: rest.*2 /\
    QString.mid skip s = weave first rest /\
    Forall (fun p => newline_pair p.1) rest /\
    Forall newline_pair_free (first :: rest.*2).
Proof.
  induction s as [|c s IH]; intros skip prev.
  { exists "", []. split; [done|]. split; [by destruct skip|].
    split; [constructor|]. repeat constructor.
    intros pre sep post E Hsep. apply newline_pair_length in Hsep.
    apply (f_equal String.length) in E. rewrite !length_append in E.
    simpl in E. lia. }
  destruct skip as [|k]; cbn [Regex.split_go QString.mid].
  2: { apply IH. }
  pose proof (paragraph_match_length prev (String c s)) as Hm.
  destruct (Regex.match_length re_paragraph prev (String c s)) as [[|n]|].
  - done.
  - destruct Hm as (sep & rest0 & Hsep & E & Hlen).
    destruct sep as [|c' t]; [done|].
    rewrite append_cons in E. injection E as <- ->.
    injection Hlen as <-.
    destruct (IH (String.length t) (Some c))
      as (first & rest & Hsplit & Hmid & Hb & Hfree).
    rewrite mid_app_length in Hmid. subst rest0.
    exists "", ((String c t, first) :: rest).
    split; [by rewrite Hsplit|]. split; [done|].
    split; [by constructor|]. constructor; [|done].
    intros pre sep post E Hsep'. apply newline_pair_length in Hsep'.
    apply (f_equal String.length) in E. rewrite !length_append in E.
    simpl in E. lia.
  - destruct (IH 0 (Some c)) as (first & rest & Hsplit & Hmid & Hb & Hfree).
    simpl in Hmid. subst s.
    exists (String c first), rest.
    split; [by rewrite Hsplit|]. split; [by rewrite weave_cons|].
    split; [done|].
    inversion_clear Hfree as [|?? Hfirst Hrest]. constructor; [|done].
    intros [|c' pre] sep post E Hsep.
    + rewrite append_nil_l in E.
      apply (Hm sep (weave post rest) Hsep).
      by rewrite <- weave_cons, E, weave_app.
    + rewrite append_cons in E. injection E as <- E.
      by apply (Hfirst pre sep post).
Qed.

(** The filter renders its argument, cuts the rendered text at the
    matches of the pattern, joins the parts with [</p><p>] and puts
    [<p>] before and [</p>] after the whole.  The parts and the matches
    between them make up the rendered text, and no part holds a
    match. *)
Lemma pFilter_parts (render : string -> string) (text : string) :
  exists first rest,
    render text = weave first rest /\
    Forall (fun p => newline_pair p.1) rest /\
    Forall newline_pair_free (first :: rest.*2) /\
    pFilter render text
    = "<p>" +:+ QString.join "</p><p>" (first :: rest.*2) +:+ "</p>".
Proof.
  destruct (split_paragraph_go (render text) 0 None)
    as (first & rest & Hsplit & Hmid & Hb & Hfree).
  exists first, rest. unfold pFilter, Regex.split. by rewrite Hsplit.
Qed.

(** C7: the filter splits a text that has no blank line.  The rendered
    text [Hello], CR LF, [World] has two lines and no blank line, and the
    filter makes two paragraphs of it: the pattern takes the carriage
    return for one line end and the line feed for a second one, although
    it names CR LF as one line end.  With a lone line feed, or a lone
    carriage return, between the two words the text stays one paragraph;
    with two line feeds, a blank line, it is split as the claim says. *)
Theorem C7_crlf_line_end_is_split :
  text_lines crlf_text = ["Hello"; "World"] /\
  ~ has_blank_line crlf_text /\
  pFilter (fun text => text) crlf_text = "<p>Hello</p><p>World</p>" /\
  text_lines lf_text = ["Hello"; "World"] /\
  pFilter (fun text => text) lf_text = "<p>" +:+ lf_text +:+ "</p>" /\
  text_lines cr_text = ["Hello"; "World"] /\
  pFilter (fun text => text) cr_text = "<p>" +:+ cr_text +:+ "</p>" /\
  has_blank_line blank_line_text /\
  pFilter (fun text => text) blank_line_text = "<p>Hello</p><p>World</p>".
Proof.
  split; [reflexivity|]. split.
  { intros (before & line & after & Hlines & Hbefore & Hafter & _).
    change (text_lines crlf_text) with ["Hello"; "World"] in Hlines.
    destruct before as [|b1 [|b2 [|b3 before]]]; [done| | |];
      destruct after as [|a1 after]; done. }
  split; [reflexivity|]. split; [reflexivity|]. split; [reflexivity|].
  split; [reflexivity|]. split; [reflexivity|]. split; [|reflexivity].
  exists ["Hello"], "", ["World"]. split; [reflexivity|].
  split; [done|]. split; [done|]. constructor.
Qed.

(** ** Further examples of the design *)

Example fields_in_name_order :
  field_name_of <$>
    message_fields (default QInvalid (message_node stable_sort honor greek_message))
  = ["alpha"; "mu"; "zeta"].
Proof. by vm_compute. Qed.

Example repeated_and_optional_string :
  with_label LABEL_REPEATED (scalarTypeName TYPE_STRING)
  = types_php "array" +:+ " of " +:+ types_php "string" /\
  with_label LABEL_OPTIONAL (scalarTypeName TYPE_STRING)
  = types_php "string" +:+ "?".
Proof. split; reflexivity. Qed.

Example no_line_breaks :
  nobrFilter (fun text => text)
    ("a" +:+ String CR (String LF ("b" +:+ String LF ("c" +:+ String CR "d"))))
  = "abcd".
Proof. reflexivity. Qed.

Example block_header :
  extractDescription
    (readLines ("/**" +:+ nl +:+ " * Title" +:+ nl +:+ " * more" +:+ nl
                +:+ " */" +:+ nl +:+ "message M {}" +:+ nl))
  = Some (nl +:+ "Title" +:+ nl +:+ "more" +:+ nl) /\
  extractDescription (readLines ("/** never closed" +:+ nl)) = None.
Proof. split; reflexivity. Qed.

Example runs :
  (exists generatorContext,
     run [] two_files stable_sort count_json copy_engine
       [empty_proto "a.proto"; empty_proto "b.proto"] "json,out.json"
     = Some (true, generatorContext, [("out.json", "2")], "")) /\
  (exists generatorContext,
     run [] two_files stable_sort count_json copy_engine
       [empty_proto "a.proto"; empty_proto "b.proto"] "bad.mustache,out.html"
     = Some (false, generatorContext, [], "b.proto: {{:0: Unclosed tag")) /\
  (exists generatorContext,
     run [] two_files stable_sort count_json copy_engine
       [empty_proto "a.proto"; empty_proto "c.proto"] "json,out.json"
     = Some (false, generatorContext, [],
             "c.proto: c.proto: No such file or directory")) /\
  run [] two_files stable_sort count_json copy_engine
    [empty_proto "a.proto"] "json"
  = Some (false, initialContext, [],
          "a.proto: " +:+ usage_message []).
Proof.
  split; [eexists; by vm_compute|]. split; [eexists; by vm_compute|].
  split; [eexists; by vm_compute|]. by vm_compute.
Qed.

(** * Further properties of the walk *)

Lemma Forall_flat_map {A B} (P : B -> Prop) (f : A -> list B) (l : list A) :
  Forall (fun x => Forall P (f x)) l -> Forall P (flat_map f l).
Proof.
  induction 1 as [|x l Hx _ IH]; simpl; [constructor|].
  by apply Forall_app.
Qed.

Lemma fmap_flat_map {A B C} (g : B -> C) (f : A -> list B) (l : list A) :
  g <$> flat_map f l = flat_map (fun x => g <$> f x) l.
Proof.
  induction l as [|x l IH]; simpl; [done|]. by rewrite fmap_app, IH.
Qed.

Lemma flat_map_ext_Forall {A B} (f g : A -> list B) (l : list A) :
  Forall (fun x => f x = g x) l -> flat_map f l = flat_map g l.
Proof. induction 1 as [|x l Hx _ IH]; simpl; [done|]. by rewrite Hx, IH. Qed.

Section WalkMore.

Variable std_sort :
  (QVariant -> QVariant -> bool) -> list QVariant -> list QVariant.
Variable generatorContext : DocGeneratorContext.

(** The enums of a list, loop by loop. *)
Lemma enum_nodes (eds : list EnumDescriptor.t) :
  flat_map (fun enumDescriptor =>
              addEnum std_sort generatorContext enumDescriptor []) eds
  = enum_hash std_sort generatorContext <$>
      filter (fun enumDescriptor =>
                excluded generatorContext enumDescriptor = false) eds.
Proof.
  induction eds as [|e eds IH]; simpl; [done|].
  rewrite addEnum_node, filter_cons, IH.
  destruct (excluded generatorContext e) eqn:E.
  - by rewrite decide_False.
  - by rewrite decide_True.
Qed.

(** What [addFile] puts into the node of a file that is kept. *)
Lemma addFile_kept (file_open : string -> OpenResult)
    (fileDescriptor : FileDescriptor.t) (files : list QVariant)
    (error description error' : string) :
  descriptionOfFile file_open generatorContext fileDescriptor error
  = Some (description, error', false) ->
  exists node,
    addFile file_open std_sort generatorContext fileDescriptor files error
    = Some (files ++ [node], error') /\
    file_description_in node = description /\
    file_messages_in node
    = flat_map (messages_of std_sort generatorContext)
        (FileDescriptor.message_type fileDescriptor) /\
    file_enums_in node
    = flat_map (enums_of std_sort generatorContext)
        (FileDescriptor.message_type fileDescriptor)
      ++ flat_map (fun enumDescriptor =>
                     addEnum std_sort generatorContext enumDescriptor [])
           (FileDescriptor.enum_type fileDescriptor).
Proof.
  intros Hdescription. unfold addFile. rewrite Hdescription. simpl.
  rewrite nested_loop.
  2: { apply Forall_forall. intros d _. apply addMessages_app. }
  rewrite enum_loop. simpl.
  eexists. split; [reflexivity|]. repeat split.
Qed.

Lemma message_hash_sorted (descriptor : Descriptor.t) :
  std_sort_contract std_sort ->
  message_sorted (message_hash std_sort generatorContext descriptor).
Proof.
  intros Hsort. unfold message_sorted. rewrite message_hash_fields.
  apply sort_ascending; [done|]. apply field_items_comp.
Qed.

Lemma enum_hash_sorted (enumDescriptor : EnumDescriptor.t) :
  std_sort_contract std_sort ->
  enum_sorted (enum_hash std_sort generatorContext enumDescriptor).
Proof.
  intros Hsort. unfold enum_sorted. rewrite enum_hash_values.
  apply sort_ascending; [done|]. apply value_items_comp.
Qed.

Lemma enum_nodes_sorted (eds : list EnumDescriptor.t) :
  std_sort_contract std_sort ->
  Forall enum_sorted
    (flat_map (fun enumDescriptor =>
                 addEnum std_sort generatorContext enumDescriptor []) eds).
Proof.
  intros Hsort. rewrite enum_nodes. apply Forall_fmap, Forall_forall.
  intros e _. by apply enum_hash_sorted.
Qed.

Lemma messages_of_sorted (descriptor : Descriptor.t) :
  std_sort_contract std_sort ->
  Forall message_sorted (messages_of std_sort generatorContext descriptor) /\
  Forall enum_sorted (enums_of std_sort generatorContext descriptor).
Proof.
  intros Hsort.
  induction descriptor as [n l f ds es IH] using Descriptor_nested_ind.
  rewrite messages_of_eq, enums_of_eq.
  destruct (excluded generatorContext _); [by split|]. split.
  - constructor; [by apply message_hash_sorted|].
    apply Forall_flat_map. eapply Forall_impl; [exact IH|]. by intros d [??].
  - apply Forall_app. split; [|by apply enum_nodes_sorted].
    apply Forall_flat_map. eapply Forall_impl; [exact IH|]. by intros d [??].
Qed.

Lemma messages_of_names (descriptor : Descriptor.t) :
  message_name_of <$> messages_of std_sort generatorContext descriptor
  = visible_messages generatorContext descriptor /\
  enum_name_of <$> enums_of std_sort generatorContext descriptor
  = visible_nested_enums generatorContext descriptor.
Proof.
  induction descriptor as [n l f ds es IH] using Descriptor_nested_ind.
  rewrite messages_of_eq, enums_of_eq.
  cbn [visible_messages visible_nested_enums].
  destruct (excluded generatorContext _); [by split|]. split.
  - rewrite fmap_cons, fmap_flat_map. f_equal.
    apply flat_map_ext_Forall. eapply Forall_impl; [exact IH|].
    by intros d [??].
  - rewrite fmap_app, fmap_flat_map, enum_nodes. f_equal.
    + apply flat_map_ext_Forall. eapply Forall_impl; [exact IH|].
      by intros d [??].
    + unfold visible_enums. rewrite <- list_fmap_compose.
      by apply list_fmap_ext.
Qed.

End WalkMore.

(** * The comparator and the lists *)

(** X1: at both calls of [std::sort] the comparator [nameLessThan] is a
    strict weak ordering on the list that is sorted: the fields that
    [addField] collected for a message, and the values collected for an
    enum.  The requirement of [std::sort] is met. *)
Theorem X1_comparator_valid_where_used
    (generatorContext : DocGeneratorContext)
    (descriptor : Descriptor.t) (enumDescriptor : EnumDescriptor.t) :
  strict_weak_on nameLessThan
    (foldl (fun fields fieldDescriptor =>
              addField generatorContext fieldDescriptor fields)
       [] (Descriptor.field descriptor)) /\
  strict_weak_on nameLessThan
    (foldl (fun values valueDescriptor =>
              addValue generatorContext valueDescriptor values)
       [] (EnumDescriptor.value enumDescriptor)).
Proof.
  rewrite field_loop, value_loop. simpl. split.
  - apply (keyed_strict_weak field_name_of). apply field_items_comp.
  - apply (keyed_strict_weak value_name_of). apply value_items_comp.
Qed.

(** X2: [nameLessThan] is no ordering of hashes that hold both keys: when
    the field names of two hashes are in one order and their value names
    in the other, each of the two is less than the other, so the
    comparator is not a strict weak ordering on a list with both. *)
Theorem X2_comparator_needs_one_key (v1 v2 : QVariant) :
  QString.lt (field_name_of v1) (field_name_of v2) = true ->
  QString.lt (value_name_of v2) (value_name_of v1) = true ->
  nameLessThan v1 v2 = true /\ nameLessThan v2 v1 = true /\
  ~ strict_weak_on nameLessThan [v1; v2].
Proof.
  intros Hf Hv.
  assert (H12 : nameLessThan v1 v2 = true).
  { unfold field_name_of in Hf. unfold nameLessThan. by rewrite Hf. }
  assert (H21 : nameLessThan v2 v1 = true).
  { unfold value_name_of in Hv. unfold nameLessThan. rewrite Hv.
    by case_match. }
  split; [done|]. split; [done|].
  intros (Hirr & Htrans & _).
  assert (nameLessThan v1 v1 = true) as H11.
  { apply (Htrans v1 v2 v1); try done; set_solver. }
  rewrite Hirr in H11; [done|set_solver].
Qed.

Lemma X2_comparator_needs_one_key_witness :
  QString.lt (field_name_of (both_keys "a" "z"))
    (field_name_of (both_keys "b" "y")) = true /\
  QString.lt (value_name_of (both_keys "b" "y"))
    (value_name_of (both_keys "a" "z")) = true /\
  nameLessThan (both_keys "a" "z") (both_keys "b" "y") = true /\
  nameLessThan (both_keys "b" "y") (both_keys "a" "z") = true.
Proof.
  split; [reflexivity|]. split; [reflexivity|].
  pose proof (X2_comparator_needs_one_key
                (both_keys "a" "z") (both_keys "b" "y")
                eq_refl eq_refl) as (H12 & H21 & _).
  by split.
Defined.

Lemma field_items_nil (generatorContext : DocGeneratorContext)
    (fds : list FieldDescriptor.t) :
  negb (bool_decide (field_items generatorContext fds = []))
  = some_field_kept generatorContext fds.
Proof.
  unfold field_items, some_field_kept.
  induction fds as [|fd fds IH]; simpl; [done|].
  rewrite filter_cons. destruct (excluded generatorContext fd) eqn:E.
  - rewrite decide_False by done. simpl. exact IH.
  - rewrite decide_True by done. reflexivity.
Qed.

(** X3: the flag [message_has_fields] of a message tells whether one of
    its fields is kept, not whether it declares fields: it is false for
    a message whose fields are all excluded, and it is true exactly when
    the attached list [message_fields] is not empty. *)
Theorem X3_has_fields_flag
    (std_sort : (QVariant -> QVariant -> bool) -> list QVariant -> list QVariant)
    (generatorContext : DocGeneratorContext) (descriptor : Descriptor.t) :
  std_sort_contract std_sort ->
  excluded generatorContext descriptor = false ->
  exists node,
    message_node std_sort generatorContext descriptor = Some node /\
    has_fields_in node
    = QBool (some_field_kept generatorContext (Descriptor.field descriptor)) /\
    (has_fields_in node = QBool true <-> message_fields node <> []).
Proof.
  intros Hsort E. eexists. split; [by apply message_node_kept|].
  rewrite message_hash_fields.
  set (items := field_items generatorContext (Descriptor.field descriptor)).
  assert (Hperm : std_sort nameLessThan items ≡ₚ items).
  { apply (sort_perm _ Hsort field_name_of). apply field_items_comp. }
  assert (Hnil : std_sort nameLessThan items = [] <-> items = []).
  { split; intros H.
    - rewrite H in Hperm. apply Permutation_nil_l in Hperm.
      symmetry. exact Hperm.
    - rewrite H in Hperm. apply Permutation_nil_r in Hperm.
      rewrite H. exact Hperm. }
  assert (Hflag :
    has_fields_in (message_hash std_sort generatorContext descriptor)
    = QBool (negb (bool_decide (std_sort nameLessThan items = [])))).
  { reflexivity. }
  rewrite Hflag. split.
  - f_equal. rewrite <- field_items_nil. fold items.
    f_equal. apply bool_decide_ext. exact Hnil.
  - split.
    + intros [= H]. apply negb_true_iff, bool_decide_eq_false in H. done.
    + intros H. by rewrite bool_decide_eq_false_2.
Qed.

Lemma X3_has_fields_flag_witness :
  std_sort_contract (@stable_sort QVariant) /\
  excluded honor bare_message = false /\
  Descriptor.field bare_message = [deprecated_field] /\
  exists node,
    message_node stable_sort honor bare_message = Some node /\
    has_fields_in node = QBool false /\
    message_fields node = [].
Proof.
  split; [apply stable_sort_contract|]. split; [reflexivity|].
  split; [reflexivity|].
  destruct (X3_has_fields_flag stable_sort honor bare_message
              stable_sort_contract eq_refl) as (node & Hnode & Hflag & _).
  exists node. split; [exact Hnode|].
  split; [exact Hflag|].
  vm_compute in Hnode. by injection Hnode as <-.
Defined.

Lemma excluded_noExclude {T} `{Located T}
    (generatorContext : DocGeneratorContext) (descriptor : T) :
  noExclude generatorContext = true ->
  excluded generatorContext descriptor = false.
Proof.
  intros Hno. unfold excluded. rewrite descriptionOf_parts.
  unfold checkExcluded. rewrite Hno. by destruct (QString.startsWith _ _).
Qed.

Lemma filter_all {A} (P : A -> Prop) `{forall x, Decision (P x)} (l : list A) :
  Forall P l -> filter P l = l.
Proof.
  induction 1 as [|x l Hx _ IH]; [done|].
  by rewrite filter_cons, decide_True, IH.
Qed.

(** X4: when the [no-exclude] option is set, no field and no enum value is
    left out: the list attached to a message holds the names of all its
    declared fields, each as often as it is declared, and the list of an
    enum those of all its values. *)
Theorem X4_no_exclude_keeps_everything
    (std_sort : (QVariant -> QVariant -> bool) -> list QVariant -> list QVariant)
    (generatorContext : DocGeneratorContext)
    (descriptor : Descriptor.t) (enumDescriptor : EnumDescriptor.t) :
  std_sort_contract std_sort ->
  noExclude generatorContext = true ->
  (exists node,
     message_node std_sort generatorContext descriptor = Some node /\
     field_name_of <$> message_fields node
     ≡ₚ FieldDescriptor.name <$> Descriptor.field descriptor) /\
  (exists node,
     enum_node std_sort generatorContext enumDescriptor = Some node /\
     value_name_of <$> enum_values node
     ≡ₚ EnumValueDescriptor.name <$> EnumDescriptor.value enumDescriptor).
Proof.
  intros Hsort Hno. split.
  - eexists. split; [by apply message_node_kept, excluded_noExclude|].
    rewrite message_hash_fields.
    rewrite (sort_perm _ Hsort field_name_of) by apply field_items_comp.
    unfold field_items. rewrite filter_all.
    + by rewrite <- list_fmap_compose.
    + apply Forall_forall. intros fd _. by apply excluded_noExclude.
  - eexists. split; [by apply enum_node_kept, excluded_noExclude|].
    rewrite enum_hash_values.
    rewrite (sort_perm _ Hsort value_name_of) by apply value_items_comp.
    unfold value_items. rewrite filter_all.
    + by rewrite <- list_fmap_compose.
    + apply Forall_forall. intros vd _. by apply excluded_noExclude.
Qed.

Lemma X4_no_exclude_keeps_everything_witness :
  std_sort_contract (@stable_sort QVariant) /\
  noExclude ignore = true /\
  (exists node,
     message_node stable_sort ignore greek_message = Some node /\
     field_name_of <$> message_fields node
     ≡ₚ ["zeta"; "alpha"; "old_id"; "mu"]) /\
  (exists node,
     enum_node stable_sort ignore color_enum = Some node /\
     value_name_of <$> enum_values node ≡ₚ ["RED"; "BLUE"; "GREEN"]).
Proof.
  split; [apply stable_sort_contract|]. split; [reflexivity|].
  exact (X4_no_exclude_keeps_everything stable_sort ignore greek_message
           color_enum stable_sort_contract eq_refl).
Defined.

(** X5: the messages of a file are one flat list in the order of the
    declarations, each message followed by the messages nested in it;
    the enums are one flat list too: for each top-level message the
    enums of its nested messages and then its own, and the enums of the
    file itself at the end.  What an excluded message holds is in
    neither list. *)
Theorem X5_flat_lists_of_a_file
    (file_open : string -> OpenResult)
    (std_sort : (QVariant -> QVariant -> bool) -> list QVariant -> list QVariant)
    (generatorContext : DocGeneratorContext)
    (fileDescriptor : FileDescriptor.t) (files : list QVariant)
    (error description error' : string) :
  descriptionOfFile file_open generatorContext fileDescriptor error
  = Some (description, error', false) ->
  exists node,
    addFile file_open std_sort generatorContext fileDescriptor files error
    = Some (files ++ [node], error') /\
    message_name_of <$> file_messages_in node
    = flat_map (visible_messages generatorContext)
        (FileDescriptor.message_type fileDescriptor) /\
    enum_name_of <$> file_enums_in node
    = flat_map (visible_nested_enums generatorContext)
        (FileDescriptor.message_type fileDescriptor)
      ++ visible_enums generatorContext
           (FileDescriptor.enum_type fileDescriptor).
Proof.
  intros Hdescription.
  destruct (addFile_kept std_sort generatorContext file_open fileDescriptor
              files error description error' Hdescription)
    as (node & Hadd & _ & Hmessages & Henums).
  exists node. split; [exact Hadd|]. split.
  - rewrite Hmessages, fmap_flat_map. apply flat_map_ext_Forall.
    apply Forall_forall. intros d _. apply messages_of_names.
  - rewrite Henums, fmap_app, fmap_flat_map, enum_nodes. f_equal.
    + apply flat_map_ext_Forall.
      apply Forall_forall. intros d _. apply messages_of_names.
    + unfold visible_enums. rewrite <- list_fmap_compose.
      by apply list_fmap_ext.
Qed.

Lemma X5_flat_lists_of_a_file_witness :
  descriptionOfFile (one_file "nested.proto" nested_source) honor
    nested_proto ""
  = Some ("Nested.", "", false) /\
  exists node,
    addFile (one_file "nested.proto" nested_source) stable_sort honor
      nested_proto [] ""
    = Some ([] ++ [node], "") /\
    message_name_of <$> file_messages_in node = ["Outer"; "Inner"; "Greek"] /\
    enum_name_of <$> file_enums_in node = ["Color"; "Kind"; "Color"].
Proof.
  split; [reflexivity|].
  exact (X5_flat_lists_of_a_file (one_file "nested.proto" nested_source)
           stable_sort honor nested_proto [] "" "Nested." "" eq_refl).
Defined.

(** * Further properties of the header of a file *)

Lemma descriptionOfFile_opened (file_open : string -> OpenResult)
    (generatorContext : DocGeneratorContext)
    (fileDescriptor : FileDescriptor.t) (error content text : string) :
  file_open (FileDescriptor.name fileDescriptor) = Opened content ->
  extractDescription (readLines content) = Some text ->
  descriptionOfFile file_open generatorContext fileDescriptor error
  = checked_header generatorContext error text.
Proof.
  intros Hopen Htext. unfold descriptionOfFile, checked_header.
  rewrite Hopen, Htext. simpl. by destruct (checkExcluded _ _).
Qed.

Lemma extractDescription_plain (line : string) (rest : list string) :
  QString.trimmed line <> "" ->
  opens_header (QString.trimmed line) = false ->
  extractDescription (line :: rest) = Some "".
Proof.
  intros Hne Hopens. cbn [extractDescription].
  apply isEmpty_false in Hne. rewrite Hne.
  unfold opens_header in Hopens.
  apply orb_false_iff in Hopens as [-> ->]. done.
Qed.

(** X6: a file without a header has the empty description, is not
    excluded and leaves the error string alone: a file whose lines are
    all blank, and a file whose first line that is not blank begins,
    after trimming, neither with [///] nor with a [/**] other than
    [/***/]. *)
Theorem X6_no_header
    (file_open : string -> OpenResult)
    (generatorContext : DocGeneratorContext)
    (fileDescriptor : FileDescriptor.t) (error content : string)
    (blanks rest : list string) :
  file_open (FileDescriptor.name fileDescriptor) = Opened content ->
  readLines content = blanks ++ rest ->
  Forall blank blanks ->
  match rest with
  | [] => True
  | line :: _ =>
      QString.trimmed line <> "" /\
      opens_header (QString.trimmed line) = false
  end ->
  descriptionOfFile file_open generatorContext fileDescriptor error
  = Some ("", error, false).
Proof.
  intros Hopen Hlines Hblanks Hrest.
  rewrite (descriptionOfFile_opened _ _ _ _ content "" Hopen); [done|].
  rewrite Hlines, extractDescription_skip by done.
  destruct rest as [|line rest]; [done|].
  destruct Hrest as [Hne Hopens]. by apply extractDescription_plain.
Qed.

Lemma X6_no_header_witness :
  readLines plain_source = [""] ++ ["// Copyright."; "message M {}"] /\
  descriptionOfFile (one_file "m.proto" plain_source) honor
    (empty_proto "m.proto") "earlier"
  = Some ("", "earlier", false).
Proof.
  split; [reflexivity|].
  apply (X6_no_header (one_file "m.proto" plain_source) honor
           (empty_proto "m.proto") "earlier" plain_source
           [""] ["// Copyright."; "message M {}"]).
  - reflexivity.
  - reflexivity.
  - by repeat constructor.
  - by split.
Defined.

(** ** Block comments *)

Lemma blockComment_eq (line : string) (rest : list string)
    (description : string) :
  blockComment line rest description
  = if bool_decide (QString.indexOf "*/" line = (-1)%Z) then
      match rest with
      | next :: rest' =>
          blockComment (QString.trimmed next) rest'
            (description
             +:+ QString.mid
                   (let start := 0 in
                    let start :=
                      if QString.startsWith "*" line then S start
                      else start in
                    if QString.startsWith "* " line then S start else start)
                   line
             +:+ String LF "")
      | [] => None
      end
    else
      Some (description
            +:+ QString.mid2
                  (let start := 0 in
                   let start :=
                     if QString.startsWith "*" line
                        && negb (QString.startsWith "*/" line)
                     then S start else start in
                   if QString.startsWith "* " line then S start else start)
                  (QString.indexOf "*/" line
                   - Z.of_nat
                       (let start := 0 in
                        let start :=
                          if QString.startsWith "*" line
                             && negb (QString.startsWith "*/" line)
                          then S start else start in
                        if QString.startsWith "* " line then S start
                        else start))
                  line).
Proof. destruct rest; reflexivity. Qed.

Lemma startsWith_cons (a : ascii) (p : string) (s : string) :
  QString.startsWith (String a p) s
  = match s with
    | String b s' => bool_decide (a = b) && QString.startsWith p s'
    | "" => false
    end.
Proof. done. Qed.

Lemma strip_star_mid (line : string) :
  QString.mid
    (let start := 0 in
     let start := if QString.startsWith "*" line then S start else start in
     if QString.startsWith "* " line then S start else start)
    line
  = strip_star line.
Proof.
  unfold strip_star. destruct line as [|a [|b r]]; [done| |].
  - rewrite !startsWith_cons. by case_bool_decide.
  - rewrite !startsWith_cons. cbn [QString.startsWith].
    case_bool_decide; [|done]. simpl. by case_bool_decide.
Qed.

Lemma not_occurs_indexOf (p s : string) :
  ~ occurs_in p s <-> QString.indexOf p s = (-1)%Z.
Proof.
  rewrite <- indexOf_occurs.
  destruct (decide (QString.indexOf p s = (-1)%Z)); naive_solver.
Qed.

Lemma blockComment_open (line next : string) (rest : list string)
    (description : string) :
  ~ occurs_in "*/" line ->
  blockComment line (next :: rest) description
  = blockComment (QString.trimmed next) rest
      (description +:+ strip_star line +:+ nl).
Proof.
  intros Hopen%not_occurs_indexOf.
  rewrite blockComment_eq, Hopen, bool_decide_true by done.
  by rewrite strip_star_mid.
Qed.

Lemma blockComment_unclosed (rest : list string) :
  forall line description,
    ~ occurs_in "*/" line ->
    Forall (fun l => ~ occurs_in "*/" (QString.trimmed l)) rest ->
    blockComment line rest description = None.
Proof.
  induction rest as [|next rest IH]; intros line description Hline Hrest.
  - apply not_occurs_indexOf in Hline.
    by rewrite blockComment_eq, Hline, bool_decide_true.
  - inversion_clear Hrest as [|?? Hnext Hrest'].
    rewrite blockComment_open by done. by apply IH.
Qed.

Lemma indexOf_cons (p : string) (c : ascii) (s : string) :
  QString.startsWith p (String c s) = false ->
  QString.indexOf p s <> (-1)%Z ->
  QString.indexOf p (String c s) = (QString.indexOf p s + 1)%Z.
Proof.
  intros Hstart Hs. cbn [QString.indexOf]. rewrite Hstart.
  destruct (indexOf_range p s) as [?|Hr]; [done|].
  destruct (QString.indexOf p s); lia.
Qed.

Lemma indexOf_cons_none (p : string) (c : ascii) (s : string) :
  QString.startsWith p (String c s) = false ->
  QString.indexOf p s = (-1)%Z ->
  QString.indexOf p (String c s) = (-1)%Z.
Proof. intros Hstart Hs. cbn [QString.indexOf]. by rewrite Hstart, Hs. Qed.

Lemma indexOf_start (p s : string) :
  QString.startsWith p s = true -> QString.indexOf p s = 0%Z.
Proof. intros H. destruct s; cbn [QString.indexOf]; by rewrite H. Qed.

(** The part before the first [*/] is what [left] cuts at its index. *)
Lemma left_before_close (line : string) :
  QString.indexOf "*/" line <> (-1)%Z ->
  QString.left (QString.indexOf "*/" line) line = before_close line.
Proof.
  induction line as [|c line IH]; [done|]. intros Hi.
  destruct (QString.startsWith "*/" (String c line)) eqn:Hstart.
  - rewrite indexOf_start by done. cbn [before_close]. by rewrite Hstart.
  - assert (QString.indexOf "*/" line <> (-1)%Z) as Hline.
    { intros Hline. by rewrite indexOf_cons_none in Hi. }
    rewrite indexOf_cons by done. cbn [before_close]. rewrite Hstart.
    specialize (IH Hline). unfold QString.left in *.
    destruct (indexOf_range "*/" line) as [?|Hr]; [done|].
    rewrite (proj2 (Z.ltb_ge _ _)) in IH by lia.
    rewrite (proj2 (Z.ltb_ge _ _)) by lia.
    replace (Z.to_nat (QString.indexOf "*/" line + 1))
      with (S (Z.to_nat (QString.indexOf "*/" line))) by lia.
    cbn [QString.take]. by rewrite IH.
Qed.

Lemma closing_part (line : string) :
  QString.indexOf "*/" line <> (-1)%Z ->
  QString.mid2
    (let start := 0 in
     let start :=
       if QString.startsWith "*" line && negb (QString.startsWith "*/" line)
       then S start else start in
     if QString.startsWith "* " line then S start else start)
    (QString.indexOf "*/" line
     - Z.of_nat
         (let start := 0 in
          let start :=
            if QString.startsWith "*" line
               && negb (QString.startsWith "*/" line)
            then S start else start in
          if QString.startsWith "* " line then S start else start))
    line
  = strip_star (before_close line).
Proof.
  intros Hi. cbv zeta.
  destruct (QString.startsWith "*/" line) eqn:Hclose.
  { (* the line begins with the closing marker *)
    rewrite andb_false_r.
    assert (QString.startsWith "* " line = false) as ->.
    { destruct line as [|a [|b r]]; try done.
      all: rewrite !startsWith_cons in *; cbn [QString.startsWith] in *.
      all: repeat case_bool_decide; subst; try done. }
    rewrite indexOf_start by done.
    destruct line; cbn [before_close]; by rewrite Hclose. }
  rewrite andb_true_r.
  destruct line as [|a line]; [done|].
  assert (QString.indexOf "*/" line <> (-1)%Z) as Hline.
  { intros Hline. by rewrite indexOf_cons_none in Hi. }
  rewrite indexOf_cons by done.
  cbn [before_close]. rewrite Hclose.
  destruct (QString.startsWith "*" (String a line)) eqn:Hstar.
  2: { (* no star at the start *)
    assert (QString.startsWith "* " (String a line) = false) as ->.
    { rewrite !startsWith_cons in *. cbn [QString.startsWith] in *.
      by case_bool_decide. }
    unfold strip_star.
    assert (QString.startsWith "* " (String a (before_close line)) = false)
      as ->.
    { rewrite !startsWith_cons in *. cbn [QString.startsWith] in *.
      by case_bool_decide. }
    assert (QString.startsWith "*" (String a (before_close line)) = false)
      as ->.
    { rewrite !startsWith_cons in *. cbn [QString.startsWith] in *.
      by case_bool_decide. }
    unfold QString.mid2. cbn [QString.mid].
    change (Z.of_nat 0) with 0%Z. rewrite Z.sub_0_r.
    rewrite <- (left_before_close line) by done.
    unfold QString.left.
    destruct (indexOf_range "*/" line) as [?|Hr]; [done|].
    rewrite !(proj2 (Z.ltb_ge _ _)) by lia.
    replace (Z.to_nat (QString.indexOf "*/" line + 1))
      with (S (Z.to_nat (QString.indexOf "*/" line))) by lia.
    done. }
  assert (a = "*"%char) as ->.
  { rewrite startsWith_cons in Hstar. cbn [QString.startsWith] in Hstar.
    by case_bool_decide. }
  destruct (QString.startsWith "* " (String "*" line)) eqn:Hspace.
  - (* a star and a space *)
    destruct line as [|b line]; [done|].
    assert (b = " "%char) as ->.
    { rewrite !startsWith_cons in Hspace. cbn [QString.startsWith] in Hspace.
      rewrite bool_decide_true in Hspace by done. by case_bool_decide. }
    assert (QString.indexOf "*/" line <> (-1)%Z) as Hline'.
    { intros Hline'. by rewrite indexOf_cons_none in Hline. }
    rewrite (indexOf_cons _ " ") by done.
    cbn [before_close].
    change (QString.startsWith "*/" (String " " line)) with false.
    cbv iota. unfold strip_star.
    change (QString.startsWith "* " (String "*" (String " " _))) with true.
    cbv iota. unfold QString.mid2. cbn [QString.mid].
    rewrite <- (left_before_close line) by done.
    f_equal. change (Z.of_nat 2) with 2%Z. lia.
  - (* a star alone *)
    unfold QString.mid2. cbn [QString.mid].
    change (Z.of_nat 1) with 1%Z.
    replace (QString.indexOf "*/" line + 1 - 1)%Z
      with (QString.indexOf "*/" line) by lia.
    rewrite left_before_close by done.
    unfold strip_star.
    assert (QString.startsWith "* " (String "*" (before_close line)) = false)
      as ->.
    { destruct line as [|b line]; [done|]. cbn [before_close].
      destruct (QString.startsWith "*/" (String b line)); [done|].
      rewrite !startsWith_cons in *. cbn [QString.startsWith] in *.
      rewrite bool_decide_true in * by done. by case_bool_decide. }
    done.
Qed.

Lemma blockComment_closing (line : string) (rest : list string)
    (description : string) :
  occurs_in "*/" line ->
  blockComment line rest description
  = Some (description +:+ strip_star (before_close line)).
Proof.
  intros Hi%indexOf_occurs.
  rewrite blockComment_eq, bool_decide_false by done.
  by rewrite closing_part.
Qed.

Lemma blockComment_block (body : list string) :
  forall line description last rest,
    Forall (fun l => ~ occurs_in "*/" l) (line :: (QString.trimmed <$> body)) ->
    occurs_in "*/" (QString.trimmed last) ->
    blockComment line (body ++ last :: rest) description
    = Some (description
            +:+ block_text (line :: (QString.trimmed <$> body))
                  (QString.trimmed last)).
Proof.
  unfold block_text.
  induction body as [|b body IH]; intros line description last rest Hopen
    Hlast; inversion_clear Hopen as [|?? Hline Hbody].
  - cbn [app]. rewrite blockComment_open, blockComment_closing by done.
    cbn [fmap list_fmap QString.concat].
    by rewrite append_nil_r, !append_assoc.
  - cbn [app]. rewrite blockComment_open by done.
    rewrite IH by done.
    cbn [fmap list_fmap QString.concat]. by rewrite !append_assoc.
Qed.

Lemma opens_block (line : string) :
  QString.startsWith "/**" line = true ->
  QString.startsWith "/***/" line = false ->
  QString.isEmpty line = false /\ QString.startsWith "///" line = false.
Proof.
  destruct line as [|a [|b [|c r]]]; try done.
  - rewrite !startsWith_cons. cbn [QString.startsWith].
    by repeat (case_bool_decide; subst; try done).
  - intros Hopen _. split; [done|]. revert Hopen.
    rewrite !startsWith_cons. cbn [QString.startsWith].
    repeat (case_bool_decide; subst; try done).
Qed.

Lemma extractDescription_opening (line : string) (rest : list string) :
  QString.startsWith "/**" (QString.trimmed line) = true ->
  QString.startsWith "/***/" (QString.trimmed line) = false ->
  extractDescription (line :: rest)
  = blockComment (QString.mid 2 (QString.trimmed line)) rest "".
Proof.
  intros Hopen Hnot. cbn [extractDescription].
  destruct (opens_block _ Hopen Hnot) as [-> ->]. by rewrite Hopen, Hnot.
Qed.

(** X7: a header in a [/** ... */] comment.  The description is made of
    the trimmed lines of the comment up to its first closing marker: the
    first line without its [/*], each line without a star and a space
    after it at its start, the lines before the closing one each with a
    line feed; what follows the closing marker is left out.  When the
    first line holds the closing marker, the description is the text
    between the two markers.  In both cases white space is cut off both
    ends and the [@exclude] check applied. *)
Theorem X7_block_comment_header
    (file_open : string -> OpenResult)
    (generatorContext : DocGeneratorContext)
    (fileDescriptor : FileDescriptor.t) (error content : string)
    (blanks : list string) (first : string) :
  file_open (FileDescriptor.name fileDescriptor) = Opened content ->
  Forall blank blanks ->
  QString.startsWith "/**" (QString.trimmed first) = true ->
  QString.startsWith "/***/" (QString.trimmed first) = false ->
  (forall rest,
     readLines content = blanks ++ first :: rest ->
     occurs_in "*/" (QString.mid 2 (QString.trimmed first)) ->
     descriptionOfFile file_open generatorContext fileDescriptor error
     = checked_header generatorContext error
         (block_text [] (QString.mid 2 (QString.trimmed first)))) /\
  (forall body last rest,
     readLines content = blanks ++ first :: body ++ last :: rest ->
     Forall (fun l => ~ occurs_in "*/" l)
       (QString.mid 2 (QString.trimmed first) :: (QString.trimmed <$> body)) ->
     occurs_in "*/" (QString.trimmed last) ->
     descriptionOfFile file_open generatorContext fileDescriptor error
     = checked_header generatorContext error
         (block_text
            (QString.mid 2 (QString.trimmed first)
             :: (QString.trimmed <$> body))
            (QString.trimmed last))).
Proof.
  intros Hopen Hblanks Hstart Hnot. split.
  - intros rest Hlines Hclose.
    apply (descriptionOfFile_opened _ _ _ _ content); [done|].
    rewrite Hlines, extractDescription_skip by done.
    rewrite extractDescription_opening by done.
    by rewrite blockComment_closing.
  - intros body last rest Hlines Hbody Hclose.
    apply (descriptionOfFile_opened _ _ _ _ content); [done|].
    rewrite Hlines, extractDescription_skip by done.
    rewrite extractDescription_opening by done.
    by rewrite blockComment_block.
Qed.

Lemma not_occurs_compute (p s : string) :
  QString.indexOf p s = (-1)%Z -> ~ occurs_in p s.
Proof. by intros H%not_occurs_indexOf. Qed.

Lemma occurs_compute (p s : string) :
  QString.indexOf p s <> (-1)%Z -> occurs_in p s.
Proof. by intros H%indexOf_occurs. Qed.

Lemma X7_block_comment_header_witness :
  descriptionOfFile (one_file "m.proto" one_line_block_source) honor
    (empty_proto "m.proto") ""
  = Some ("Title", "", false) /\
  descriptionOfFile (one_file "m.proto" block_source) honor
    (empty_proto "m.proto") ""
  = Some ("Title" +:+ nl +:+ "more", "", false).
Proof.
  split.
  - apply (proj1 (X7_block_comment_header
                    (one_file "m.proto" one_line_block_source) honor
                    (empty_proto "m.proto") "" one_line_block_source
                    [] "/** Title */" eq_refl (Forall_nil_2 _) eq_refl
                    eq_refl) ["message M {}"]).
    + reflexivity.
    + by apply occurs_compute.
  - apply (proj2 (X7_block_comment_header
                    (one_file "m.proto" block_source) honor
                    (empty_proto "m.proto") "" block_source
                    [] "/**" eq_refl (Forall_nil_2 _) eq_refl eq_refl)
             [" * Title"; " * more"] " */ ignored" ["message M {}"]).
    + reflexivity.
    + repeat constructor; by apply not_occurs_compute.
    + by apply occurs_compute.
Defined.

(** X8: a [/** ... ] comment that opens the header and is closed in no
    line of the file keeps the scan of the header running: neither
    [descriptionOf] nor [addFile] returns. *)
Theorem X8_unclosed_header_never_returns
    (file_open : string -> OpenResult)
    (std_sort : (QVariant -> QVariant -> bool) -> list QVariant -> list QVariant)
    (generatorContext : DocGeneratorContext)
    (fileDescriptor : FileDescriptor.t) (files : list QVariant)
    (error content : string)
    (blanks : list string) (first : string) (rest : list string) :
  file_open (FileDescriptor.name fileDescriptor) = Opened content ->
  readLines content = blanks ++ first :: rest ->
  Forall blank blanks ->
  QString.startsWith "/**" (QString.trimmed first) = true ->
  Forall (fun l => ~ occurs_in "*/" l)
    (QString.mid 2 (QString.trimmed first) :: (QString.trimmed <$> rest)) ->
  descriptionOfFile file_open generatorContext fileDescriptor error = None /\
  addFile file_open std_sort generatorContext fileDescriptor files error
  = None.
Proof.
  intros Hopen Hlines Hblanks Hstart Hnone.
  inversion_clear Hnone as [|?? Hfirst Hrest].
  assert (QString.startsWith "/***/" (QString.trimmed first) = false) as Hnot.
  { destruct (QString.startsWith "/***/" _) eqn:E; [|done].
    apply startsWith_split in E. destruct Hfirst. rewrite E.
    by exists "*", (QString.mid 5 (QString.trimmed first)). }
  assert (descriptionOfFile file_open generatorContext fileDescriptor error
          = None) as Hdescription.
  { unfold descriptionOfFile.
    rewrite Hopen, Hlines, extractDescription_skip by done.
    rewrite extractDescription_opening by done.
    rewrite blockComment_unclosed; [done|done|].
    rewrite Forall_fmap in Hrest. exact Hrest. }
  split; [done|]. unfold addFile. by rewrite Hdescription.
Qed.

Lemma X8_unclosed_header_never_returns_witness :
  readLines unclosed_source = [] ++ "/** Title" :: ["message M {}"] /\
  descriptionOfFile (one_file "m.proto" unclosed_source) honor
    (empty_proto "m.proto") "" = None /\
  addFile (one_file "m.proto" unclosed_source) stable_sort honor
    (empty_proto "m.proto") [] "" = None.
Proof.
  split; [reflexivity|].
  apply (X8_unclosed_header_never_returns
           (one_file "m.proto" unclosed_source) stable_sort honor
           (empty_proto "m.proto") [] "" unclosed_source
           [] "/** Title" ["message M {}"]).
  - reflexivity.
  - reflexivity.
  - constructor.
  - reflexivity.
  - repeat constructor; by apply not_occurs_compute.
Defined.

(** ** A block of [///] lines at the end of the file *)

Lemma lineComments_final (block : list string) :
  forall line description,
    Forall (fun l => has_marker (QString.trimmed l) = true) block ->
    has_marker line = true ->
    lineComments line block description
    = description
      +:+ QString.concat
            ((fun l => strip_marker l +:+ nl)
               <$> removelast (line :: (QString.trimmed <$> block))).
Proof.
  induction block as [|b block IH]; intros line description Hblock Hline.
  - simpl. by rewrite append_nil_r.
  - inversion_clear Hblock as [|?? Hb Hblock'].
    cbn [lineComments].
    rewrite has_marker_startsWith, Hline, strip_marker_mid by done.
    rewrite IH by done. rewrite fmap_cons.
    change (removelast (line :: ?x :: ?l))
      with (line :: removelast (x :: l)).
    cbn [fmap list_fmap QString.concat]. by rewrite !append_assoc.
Qed.

Lemma left_concat_lines (lines : list string) :
  QString.left
    (Z.of_nat (String.length
                 (QString.concat ((fun l => l +:+ nl) <$> lines))) - 1)
    (QString.concat ((fun l => l +:+ nl) <$> lines))
  = QString.join nl lines.
Proof.
  destruct lines as [|line lines]; [done|].
  rewrite concat_lines_join. apply left_drop_last.
Qed.

(** X9: when the block of [///] lines that opens the header runs to
    the end of the file, its last line is not part of the description:
    the description is made of the lines of the block before the last
    one.  A header that is one [///] line at the end of the file gives
    the empty description. *)
Theorem X9_line_header_at_end_of_file
    (file_open : string -> OpenResult)
    (generatorContext : DocGeneratorContext)
    (fileDescriptor : FileDescriptor.t) (error content : string)
    (blanks block : list string) :
  file_open (FileDescriptor.name fileDescriptor) = Opened content ->
  readLines content = blanks ++ block ->
  Forall blank blanks ->
  Forall (fun l => has_marker (QString.trimmed l) = true) block ->
  descriptionOfFile file_open generatorContext fileDescriptor error
  = checked_header generatorContext error
      (line_doc_block (removelast (QString.trimmed <$> block))).
Proof.
  intros Hopen Hlines Hblanks Hblock.
  apply (descriptionOfFile_opened _ _ _ _ content); [done|].
  rewrite Hlines, extractDescription_skip by done.
  destruct block as [|first block]; [done|].
  inversion_clear Hblock as [|?? Hfirst Hblock'].
  cbn [extractDescription].
  rewrite (has_marker_nonempty _ Hfirst), has_marker_startsWith, Hfirst.
  rewrite lineComments_final by done. rewrite append_nil_l.
  f_equal. unfold line_doc_block. rewrite fmap_cons.
  change (fun l => strip_marker l +:+ nl)
    with ((fun l => l +:+ nl) ∘ strip_marker).
  rewrite list_fmap_compose. apply left_concat_lines.
Qed.

Lemma X9_line_header_at_end_of_file_witness :
  readLines final_block_source = [] ++ ["/// One"; "/// Two"; "/// Three"] /\
  descriptionOfFile (one_file "m.proto" final_block_source) honor
    (empty_proto "m.proto") ""
  = Some ("One" +:+ nl +:+ "Two", "", false).
Proof.
  split; [reflexivity|].
  apply (X9_line_header_at_end_of_file
           (one_file "m.proto" final_block_source) honor
           (empty_proto "m.proto") "" final_block_source
           [] ["/// One"; "/// Two"; "/// Three"]).
  - reflexivity.
  - reflexivity.
  - constructor.
  - by repeat constructor.
Defined.

(** * Place markers and error messages *)

Lemma marker_not_percent (c : ascii) (r : string) :
  c <> "%"%char -> QString.marker (String c r) = None.
Proof.
  intros Hc. unfold QString.marker.
  destruct c as [[] [] [] [] [] [] [] []]; try done; destruct r; done.
Qed.

Lemma has_percent_cons (c : ascii) (s : string) :
  ~ has_percent (String c s) <-> c <> "%"%char /\ ~ has_percent s.
Proof.
  unfold has_percent. simpl. rewrite not_elem_of_cons. naive_solver.
Qed.

Lemma has_percent_app (s t : string) :
  ~ has_percent (s +:+ t) <-> ~ has_percent s /\ ~ has_percent t.
Proof.
  induction s as [|c s IH].
  - rewrite append_nil_l. unfold has_percent at 2. simpl.
    rewrite elem_of_nil. naive_solver.
  - rewrite append_cons, !has_percent_cons, IH. naive_solver.
Qed.

Lemma scan_literal (s t : string) :
  ~ has_percent s ->
  QString.scan 0 (s +:+ t)
  = ((fun c => (QString.Lit c, String c "")) <$> list_ascii_of_string s)
    ++ QString.scan 0 t.
Proof.
  induction s as [|c s IH]; [done|].
  intros [Hc Hs]%has_percent_cons. rewrite append_cons.
  cbn [QString.scan]. rewrite marker_not_percent by done.
  simpl. by rewrite IH.
Qed.

Lemma lowest_literal (s : string) (ps : list (QString.piece * string)) :
  QString.lowest
    (((fun c => (QString.Lit c, String c "")) <$> list_ascii_of_string s)
     ++ ps)
  = QString.lowest ps.
Proof. induction s as [|c s IH]; [done|]. simpl. exact IH. Qed.

Lemma concat_literal (f : QString.piece * string -> string) (s : string)
    (ps : list (QString.piece * string)) :
  (forall c, f (QString.Lit c, String c "") = String c "") ->
  QString.concat
    (map f (((fun c => (QString.Lit c, String c "")) <$> list_ascii_of_string s)
            ++ ps))
  = s +:+ QString.concat (map f ps).
Proof.
  intros Hf. induction s as [|c s IH]; [done|].
  cbn [list_ascii_of_string fmap list_fmap app map QString.concat].
  fold (fmap (M:=list) (fun c => (QString.Lit c, String c ""))
          (list_ascii_of_string s)).
  by rewrite Hf, IH.
Qed.

(** [arg] leaves a front part without [%] alone. *)
Lemma arg_literal_prefix (a s t : string) :
  ~ has_percent s -> QString.arg a (s +:+ t) = s +:+ QString.arg a t.
Proof.
  intros Hs. unfold QString.arg. rewrite scan_literal, lowest_literal by done.
  destruct (QString.lowest (QString.scan 0 t)) as [m|]; [|done].
  by apply concat_literal.
Qed.

(** The message [%1: %2] of a file and the reason of a failure. *)
Lemma open_error_message (fileName reason : string) :
  ~ has_percent fileName ->
  QString.arg reason (QString.arg fileName "%1: %2")
  = fileName +:+ ": " +:+ reason.
Proof.
  intros Hname.
  change (QString.arg fileName "%1: %2") with (fileName +:+ ": %2").
  rewrite arg_literal_prefix by done.
  change (QString.arg reason ": %2") with (": " +:+ (reason +:+ "")).
  by rewrite append_nil_r.
Qed.

(** X10: when the schema file cannot be opened, the error string is set
    to the file name, a colon and the reason (for a name without [%],
    which [arg] would take for a place marker), and [addFile] goes on:
    the file is added all the same, with the empty description. *)
Theorem X10_file_that_cannot_be_opened
    (file_open : string -> OpenResult)
    (std_sort : (QVariant -> QVariant -> bool) -> list QVariant -> list QVariant)
    (generatorContext : DocGeneratorContext)
    (fileDescriptor : FileDescriptor.t) (files : list QVariant)
    (error reason : string) :
  file_open (FileDescriptor.name fileDescriptor) = OpenFailed reason ->
  ~ has_percent (FileDescriptor.name fileDescriptor) ->
  exists node,
    addFile file_open std_sort generatorContext fileDescriptor files error
    = Some (files ++ [node],
            FileDescriptor.name fileDescriptor +:+ ": " +:+ reason) /\
    file_description_in node = "" /\
    file_name_in node = fileName (FileDescriptor.name fileDescriptor).
Proof.
  intros Hopen Hname.
  assert (descriptionOfFile file_open generatorContext fileDescriptor error
          = Some ("", FileDescriptor.name fileDescriptor +:+ ": " +:+ reason,
                  false)) as Hdescription.
  { unfold descriptionOfFile. by rewrite Hopen, open_error_message. }
  unfold addFile. rewrite Hdescription. simpl.
  destruct (foldl _ _ _) as [messages enums].
  eexists. split; [reflexivity|]. by split.
Qed.

Lemma not_has_percent_compute (s : string) :
  bool_decide (has_percent s) = false -> ~ has_percent s.
Proof. by intros H%bool_decide_eq_false. Qed.

Lemma X10_file_that_cannot_be_opened_witness :
  no_files "dir/missing.proto" = OpenFailed "No such file or directory" /\
  exists node,
    addFile no_files stable_sort honor (empty_proto "dir/missing.proto")
      [] ""
    = Some ([] ++ [node],
            "dir/missing.proto: No such file or directory") /\
    file_description_in node = "" /\
    file_name_in node = "missing.proto".
Proof.
  split; [reflexivity|].
  apply (X10_file_that_cannot_be_opened no_files stable_sort honor
           (empty_proto "dir/missing.proto") [] ""
           "No such file or directory").
  - reflexivity.
  - by apply not_has_percent_compute.
Defined.

(** X11: a file whose header begins, after trimming, with [@exclude] is
    left out as a whole: [addFile] changes neither the list of files
    nor the error string, and none of the messages and enums of the
    file is visited.  When the [no-exclude] option is set the file is
    added, and its description is the header without the directive. *)
Theorem X11_excluded_file
    (file_open : string -> OpenResult)
    (std_sort : (QVariant -> QVariant -> bool) -> list QVariant -> list QVariant)
    (generatorContext : DocGeneratorContext)
    (fileDescriptor : FileDescriptor.t) (files : list QVariant)
    (error content text : string) :
  file_open (FileDescriptor.name fileDescriptor) = Opened content ->
  extractDescription (readLines content) = Some text ->
  QString.startsWith "@exclude" (QString.trimmed text) = true ->
  (noExclude generatorContext = false ->
   addFile file_open std_sort generatorContext fileDescriptor files error
   = Some (files, error)) /\
  (noExclude generatorContext = true ->
   exists node,
     addFile file_open std_sort generatorContext fileDescriptor files error
     = Some (files ++ [node], error) /\
     file_description_in node = QString.mid 8 (QString.trimmed text)).
Proof.
  intros Hopen Htext Hdirective.
  pose proof (descriptionOfFile_opened file_open generatorContext
                fileDescriptor error content text Hopen Htext)
    as Hdescription.
  unfold checked_header, checkExcluded in Hdescription.
  rewrite Hdirective in Hdescription. simpl in Hdescription.
  split; intros Hno; rewrite Hno in Hdescription; simpl in Hdescription.
  - unfold addFile. by rewrite Hdescription.
  - destruct (addFile_kept std_sort generatorContext file_open
                fileDescriptor files error _ _ Hdescription)
      as (node & Hadd & Hnode & _).
    by exists node.
Qed.

Lemma X11_excluded_file_witness :
  extractDescription (readLines excluded_source) = Some "@exclude internal" /\
  addFile (one_file "m.proto" excluded_source) stable_sort honor
    (empty_proto "m.proto") [QInt 7] ""
  = Some ([QInt 7], "") /\
  exists node,
    addFile (one_file "m.proto" excluded_source) stable_sort ignore
      (empty_proto "m.proto") [QInt 7] ""
    = Some ([QInt 7] ++ [node], "") /\
    file_description_in node = " internal".
Proof.
  split; [reflexivity|]. split.
  - apply (proj1 (X11_excluded_file (one_file "m.proto" excluded_source)
                    stable_sort honor (empty_proto "m.proto") [QInt 7] ""
                    excluded_source "@exclude internal"
                    eq_refl eq_refl eq_refl)).
    reflexivity.
  - apply (proj2 (X11_excluded_file (one_file "m.proto" excluded_source)
                    stable_sort ignore (empty_proto "m.proto") [QInt 7] ""
                    excluded_source "@exclude internal"
                    eq_refl eq_refl eq_refl)).
    reflexivity.
Defined.

(** * Further properties of the parameters and of rendering *)

Lemma parseParameter_succeeded
    (supportedFormats : list string) (file_open : string -> OpenResult)
    (parameter : string) (generatorContext generatorContext' : DocGeneratorContext)
    (error error' : string) :
  parseParameter supportedFormats file_open parameter generatorContext error
  = (true, generatorContext', error') ->
  exists name out,
    (QString.split "," parameter = [name; out] /\
     noExclude generatorContext' = false \/
     QString.split "," parameter = [name; out; "no-exclude"] /\
     noExclude generatorContext' = true) /\
    outputFileName generatorContext' = out /\
    files generatorContext' = files generatorContext /\
    (template_ generatorContext', error')
    = if bool_decide (name = "json")
      then (template_ generatorContext, error)
      else readTemplate supportedFormats file_open name error.
Proof.
  unfold parseParameter.
  destruct (QString.split "," parameter) as [|name [|out [|third [|? ?]]]];
    try done.
  - (* two tokens *)
    simpl. case_bool_decide as Hjson.
    + destruct (readTemplate _ _ _ _) as [template' e] eqn:Hread.
      intros [= <- <-]. exists name, out. simpl.
      rewrite bool_decide_false by done. naive_solver.
    + intros [= <- <-]. exists name, out. simpl.
      rewrite bool_decide_true by done.
      naive_solver.
  - (* three tokens *)
    simpl. case_bool_decide as Hthird; [|done]. subst third.
    case_bool_decide as Hjson.
    + destruct (readTemplate _ _ _ _) as [template' e] eqn:Hread.
      intros [= <- <-]. exists name, out. simpl.
      rewrite bool_decide_false by done. naive_solver.
    + intros [= <- <-]. exists name, out. simpl.
      rewrite bool_decide_true by done.
      naive_solver.
Qed.

(** X12: what a successful [parseParameter] leaves in the context.  The
    output name is the second token; directives are ignored exactly when
    the third token is there; the list of files is as before.  For the
    first token [json] neither the template nor the error string is
    touched, and no file is opened; for any other first token both are
    what [readTemplate] gives, also when it fails to read the
    template. *)
Theorem X12_parsed_parameter
    (supportedFormats : list string) (file_open : string -> OpenResult)
    (parameter : string) (generatorContext generatorContext' : DocGeneratorContext)
    (error error' : string) :
  parseParameter supportedFormats file_open parameter generatorContext error
  = (true, generatorContext', error') ->
  exists name out,
    (QString.split "," parameter = [name; out] /\
     noExclude generatorContext' = false \/
     QString.split "," parameter = [name; out; "no-exclude"] /\
     noExclude generatorContext' = true) /\
    outputFileName generatorContext' = out /\
    files generatorContext' = files generatorContext /\
    (template_ generatorContext', error')
    = if bool_decide (name = "json")
      then (template_ generatorContext, error)
      else readTemplate supportedFormats file_open name error.
Proof.
  unfold parseParameter.
  destruct (QString.split "," parameter) as [|name [|out [|third [|? ?]]]];
    try done.
  - (* two tokens *)
    simpl. case_bool_decide as Hjson.
    + destruct (readTemplate _ _ _ _) as [template' e] eqn:Hread.
      intros [= <- <-]. exists name, out. simpl.
      rewrite bool_decide_false by done. naive_solver.
    + intros [= <- <-]. exists name, out. simpl.
      rewrite bool_decide_true by done.
      naive_solver.
  - (* three tokens *)
    simpl. case_bool_decide as Hthird; [|done]. subst third.
    case_bool_decide as Hjson.
    + destruct (readTemplate _ _ _ _) as [template' e] eqn:Hread.
      intros [= <- <-]. exists name, out. simpl.
      rewrite bool_decide_false by done. naive_solver.
    + intros [= <- <-]. exists name, out. simpl.
      rewrite bool_decide_true by done.
      naive_solver.
Qed.

Lemma X12_parsed_parameter_witness :
  parseParameter [] two_files "good.mustache,out.html,no-exclude"
    initialContext ""
  = (true,
     {| template_ := "Files"; outputFileName := "out.html";
        noExclude := true; files := [] |}, "") /\
  exists name out,
    (QString.split "," "good.mustache,out.html,no-exclude" = [name; out] /\
     true = false \/
     QString.split "," "good.mustache,out.html,no-exclude"
     = [name; out; "no-exclude"] /\ true = true) /\
    "out.html" = out /\
    ("Files", "")
    = if bool_decide (name = "json") then ("", "")
      else readTemplate [] two_files name "".
Proof.
  split; [reflexivity|].
  destruct (X12_parsed_parameter [] two_files
              "good.mustache,out.html,no-exclude" initialContext
              {| template_ := "Files"; outputFileName := "out.html";
                 noExclude := true; files := [] |} "" "" eq_refl)
    as (name & out & Htokens & Hout & _ & Htemplate).
  exists name, out. split; [exact Htokens|]. split; [exact Hout|].
  exact Htemplate.
Defined.

Lemma template_name (name : string) :
  QString.arg name ":/templates/%1.mustache"
  = ":/templates/" +:+ name +:+ ".mustache".
Proof. reflexivity. Qed.

(** X13: [readTemplate] reads the template of a built-in format from
    the resources of the plugin, even when a file of that name exists,
    and opens any other name as a file.  On success the error string is
    the one before; on failure the template is empty and the error
    string names the file that could not be opened and the reason. *)
Theorem X13_template_lookup
    (supportedFormats : list string) (file_open : string -> OpenResult)
    (name error : string) :
  ~ has_percent name ->
  readTemplate supportedFormats file_open name error
  = match file_open (template_file supportedFormats name) with
    | Opened content => (content, error)
    | OpenFailed reason =>
        ("", template_file supportedFormats name +:+ ": " +:+ reason)
    end.
Proof.
  intros Hname. unfold readTemplate, QString.contains, template_file.
  rewrite template_name.
  destruct (file_open _) as [content|reason]; [done|].
  rewrite open_error_message; [done|].
  case_bool_decide; [|done].
  rewrite !has_percent_app. split; [|split]; [|done|];
    by apply not_has_percent_compute.
Qed.

Lemma X13_template_lookup_witness :
  readTemplate ["docbook"; "html"] built_in_html "html" "" = ("<html>", "") /\
  readTemplate ["docbook"; "html"] built_in_html "docbook" ""
  = ("", ":/templates/docbook.mustache: No such file or directory") /\
  readTemplate ["docbook"] built_in_html "html" "" = ("local", "").
Proof.
  split; [|split].
  - apply (X13_template_lookup ["docbook"; "html"] built_in_html "html" "").
    by apply not_has_percent_compute.
  - apply (X13_template_lookup ["docbook"; "html"] built_in_html "docbook" "").
    by apply not_has_percent_compute.
  - apply (X13_template_lookup ["docbook"] built_in_html "html" "").
    by apply not_has_percent_compute.
Defined.

Lemma not_has_comma_part (sep : string) (s : string) :
  ~ has_comma s -> Forall (fun part => ","%char ∉ list_ascii_of_string part) [s].
Proof. intros H. by repeat constructor. Qed.

Lemma split_two (name out : string) :
  ~ has_comma name -> ~ has_comma out ->
  QString.split "," (name +:+ "," +:+ out) = [name; out].
Proof.
  intros Hname Hout.
  apply (split_unique "," [name; out]); [done|]. by repeat constructor.
Qed.

(** X14: a template file that is empty selects the JSON output.  After
    [parseParameter] has read an empty template, [render] writes the
    JSON document of the files, or fails for want of one, and the
    template engine has no part in the result. *)
Theorem X14_empty_template_gives_json
    (supportedFormats : list string) (file_open : string -> OpenResult)
    (toJson : list QVariant -> option string)
    (mustache : Filter -> Filter -> list QVariant -> string -> Renderer.t)
    (name out : string) (generatorContext : DocGeneratorContext)
    (sink : Sink) (error : string) :
  ~ has_comma name -> ~ has_comma out -> name <> "json" ->
  file_open (template_file supportedFormats name) = Opened "" ->
  exists generatorContext',
    parseParameter supportedFormats file_open (name +:+ "," +:+ out)
      generatorContext error
    = (true, generatorContext', error) /\
    files generatorContext' = files generatorContext /\
    render toJson mustache generatorContext' sink error
    = json_rendering toJson (files generatorContext) out sink error.
Proof.
  intros Hname Hout Hjson Hopen.
  unfold parseParameter. rewrite split_two by done. simpl.
  rewrite bool_decide_true by done.
  assert (readTemplate supportedFormats file_open name error = ("", error))
    as ->.
  { unfold readTemplate, QString.contains. rewrite template_name.
    unfold template_file in Hopen. by rewrite Hopen. }
  eexists. split; [reflexivity|]. split; [reflexivity|].
  unfold render, json_rendering. simpl. by destruct (toJson _).
Qed.

Lemma not_has_comma_compute (s : string) :
  bool_decide (has_comma s) = false -> ~ has_comma s.
Proof. by intros H%bool_decide_eq_false. Qed.

Lemma X14_empty_template_gives_json_witness :
  empty_template (template_file [] "empty.mustache") = Opened "" /\
  exists generatorContext',
    parseParameter [] empty_template "empty.mustache,out.html"
      initialContext ""
    = (true, generatorContext', "") /\
    files generatorContext' = [] /\
    render count_json copy_engine generatorContext' [] ""
    = (true, [("out.html", "0")], "").
Proof.
  split; [reflexivity|].
  apply (X14_empty_template_gives_json [] empty_template count_json
           copy_engine "empty.mustache" "out.html" initialContext [] "").
  - by apply not_has_comma_compute.
  - by apply not_has_comma_compute.
  - done.
  - reflexivity.
Defined.

(** ** The message of a rendering error *)

Lemma string_of_uint_no_percent (d : Decimal.uint) :
  ~ has_percent (DecimalString.NilEmpty.string_of_uint d).
Proof.
  induction d; simpl;
    try (apply has_percent_cons; split; [done|exact IHd]).
  unfold has_percent. simpl. apply not_elem_of_nil.
Qed.

Lemma number_no_percent (n : Z) : ~ has_percent (QString.number n).
Proof.
  unfold QString.number, DecimalString.NilZero.string_of_int.
  assert (forall d,
            ~ has_percent (DecimalString.NilZero.string_of_uint d)) as Huint.
  { intros d. unfold DecimalString.NilZero.string_of_uint.
    destruct d; try apply string_of_uint_no_percent.
    by apply not_has_percent_compute. }
  destruct (Z.to_int n); [apply Huint|].
  apply has_percent_cons. split; [done|apply Huint].
Qed.

(** X15: the message of a rendering error is the text of the template
    (with [ in partial ] and the name of the partial when the error is
    in one), a colon, the position, a colon and a space, and the error
    of the renderer, when neither the template nor the name of the
    partial holds a [%]. *)
Theorem X15_rendering_error_message
    (template_ : string) (renderer : Renderer.t) :
  ~ has_percent template_ ->
  ~ has_percent (Renderer.errorPartial renderer) ->
  formattedError template_ renderer
  = error_location template_ (Renderer.errorPartial renderer)
    +:+ ":" +:+ QString.number (Renderer.errorPos renderer)
    +:+ ": " +:+ Renderer.error renderer.
Proof.
  intros Htemplate Hpartial. unfold formattedError.
  set (location := if negb _ then _ else _).
  assert (location
          = error_location template_ (Renderer.errorPartial renderer))
    as Hlocation.
  { unfold location, error_location.
    destruct (Renderer.errorPartial renderer); done. }
  assert (~ has_percent location) as Hfree.
  { rewrite Hlocation. unfold error_location. case_bool_decide; [done|].
    rewrite !has_percent_app. split; [done|]. split; [|done].
    by apply not_has_percent_compute. }
  rewrite <- Hlocation. clearbody location.
  change (QString.arg location "%1:%2: %3") with (location +:+ ":%2: %3").
  rewrite arg_literal_prefix by done.
  change (QString.arg ?n ":%2: %3") with (":" +:+ (n +:+ ": %3")).
  rewrite <- !append_assoc.
  rewrite arg_literal_prefix.
  - change (QString.arg ?e ": %3") with (": " +:+ (e +:+ "")).
    by rewrite append_nil_r, !append_assoc.
  - rewrite !has_percent_app. split; [split|]; [done| |].
    + by apply not_has_percent_compute.
    + apply number_no_percent.
Qed.

Lemma X15_rendering_error_message_witness :
  formattedError "{{#files}}"
    {| Renderer.output := ""; Renderer.error := "Unclosed section";
       Renderer.errorPos := 0; Renderer.errorPartial := "" |}
  = "{{#files}}:0: Unclosed section" /\
  formattedError "{{>head}}"
    {| Renderer.output := ""; Renderer.error := "Unclosed tag";
       Renderer.errorPos := 12; Renderer.errorPartial := "head" |}
  = "{{>head}} in partial head:12: Unclosed tag".
Proof.
  split.
  - apply (X15_rendering_error_message "{{#files}}"
             {| Renderer.output := ""; Renderer.error := "Unclosed section";
                Renderer.errorPos := 0; Renderer.errorPartial := "" |});
      by apply not_has_percent_compute.
  - apply (X15_rendering_error_message "{{>head}}"
             {| Renderer.output := ""; Renderer.error := "Unclosed tag";
                Renderer.errorPos := 12; Renderer.errorPartial := "head" |});
      by apply not_has_percent_compute.
Defined.

(** ** The filters *)

Lemma remove_char (c : ascii) (s : string) :
  remove (String c "") s = without_char c s.
Proof.
  unfold remove. induction s as [|d s IH]; [done|].
  cbn [remove_go without_char].
  rewrite startsWith_cons. cbn [QString.startsWith QString.isEmpty negb].
  rewrite !andb_true_r. case_bool_decide; simpl; by rewrite IH.
Qed.

Lemma without_both (s : string) :
  without_char LF (without_char CR s) = without_breaks s.
Proof.
  induction s as [|c s IH]; [done|].
  cbn [without_char without_breaks]. unfold is_newline.
  destruct (decide (c = CR)) as [->|Hcr].
  - rewrite (bool_decide_true (CR = CR)), (bool_decide_false (CR = LF))
      by done.
    by rewrite IH.
  - rewrite (bool_decide_false (CR = c)), (bool_decide_false (c = CR))
      by congruence.
    rewrite orb_false_r. cbn [without_char].
    destruct (decide (c = LF)) as [->|Hlf].
    + rewrite (bool_decide_true (LF = LF)) by done. by rewrite IH.
    + rewrite (bool_decide_false (LF = c)), (bool_decide_false (c = LF))
        by congruence.
      by rewrite IH.
Qed.

Lemma without_pairs (s : string) :
  without_breaks (remove (String CR (String LF "")) s) = without_breaks s.
Proof.
  unfold remove. induction s as [|c s IH]; [done|].
  cbn [remove_go]. rewrite startsWith_cons.
  cbn [QString.isEmpty negb String.length]. rewrite andb_true_r.
  case_bool_decide as Hcr.
  - subst c. destruct s as [|d s]; [done|].
    rewrite startsWith_cons. cbn [QString.startsWith]. rewrite andb_true_r.
    case_bool_decide as Hlf.
    + subst d. cbn [andb Nat.sub remove_go].
      revert IH. cbn [remove_go]. rewrite startsWith_cons.
      rewrite bool_decide_false by done. cbn [andb].
      by cbn [without_breaks is_newline bool_decide orb].
    + cbn [andb]. cbn [without_breaks]. by rewrite IH.
  - cbn [andb]. cbn [without_breaks]. by rewrite IH.
Qed.

(** X16: [nobrFilter] gives the rendered text without its carriage
    returns and line feeds, all other code units in their order. *)
Theorem X16_no_line_breaks_left (render : string -> string) (text : string) :
  nobrFilter render text = without_breaks (render text).
Proof.
  unfold nobrFilter. rewrite !remove_char, without_both. apply without_pairs.
Qed.

Lemma count_newlines_app (s t : string) :
  count_newlines (s +:+ t) = count_newlines s + count_newlines t.
Proof.
  induction s as [|c s IH]; [done|]. rewrite append_cons. simpl.
  rewrite IH. lia.
Qed.

Lemma newline_pair_count (sep : string) :
  newline_pair sep -> 2 <= count_newlines sep.
Proof.
  intros (a & ws & b & -> & Ha & _ & Hb).
  cbn [count_newlines]. rewrite Ha, count_newlines_app. simpl.
  rewrite Hb. lia.
Qed.

Lemma few_newlines_pair_free (s : string) :
  count_newlines s <= 1 -> newline_pair_free s.
Proof.
  intros Hs pre sep post -> Hsep%newline_pair_count.
  rewrite !count_newlines_app in Hs. lia.
Qed.

(** X17: a rendered text in which no two line-end code units (each a
    line feed or a carriage return; the two of a CR LF line end are such
    a pair) stand with nothing but white space between them is one
    paragraph: [pFilter] puts it between [<p>] and [</p>] as it is.  So
    a lone line feed, or a lone carriage return, does not start a
    paragraph. *)
Theorem X17_one_paragraph (render : string -> string) (text : string) :
  newline_pair_free (render text) ->
  pFilter render text = "<p>" +:+ render text +:+ "</p>".
Proof.
  intros Hfree. unfold pFilter, Regex.split.
  destruct (split_paragraph_go (render text) 0 None)
    as (first & rest & -> & Hweave & Hseps & _).
  cbn [QString.mid] in Hweave.
  destruct rest as [|[sep segment] rest].
  - simpl in *. by rewrite Hweave.
  - exfalso. inversion_clear Hseps as [|?? Hsep _].
    cbn [weave] in Hweave. by apply (Hfree first sep _ Hweave).
Qed.

Lemma X17_one_paragraph_witness :
  pFilter (fun text => text) ("one" +:+ nl +:+ "two")
  = "<p>one" +:+ nl +:+ "two</p>".
Proof.
  apply (X17_one_paragraph (fun text => text) ("one" +:+ nl +:+ "two")).
  apply few_newlines_pair_free. simpl. lia.
Defined.

(** * Further properties of a run *)

Lemma descriptionOfFile_flag (file_open : string -> OpenResult)
    (generatorContext reference : DocGeneratorContext)
    (fileDescriptor : FileDescriptor.t)
    (error description error' : string) (excluded : bool) :
  noExclude reference = noExclude generatorContext ->
  descriptionOfFile file_open generatorContext fileDescriptor error
  = Some (description, error', excluded) ->
  file_kept file_open reference fileDescriptor = negb excluded.
Proof.
  intros Hno. unfold file_kept, descriptionOfFile.
  destruct (file_open _) as [content|reason].
  - destruct (extractDescription _) as [text|]; [|done].
    cbn [mbind option_bind].
    assert ((checkExcluded reference (QString.trimmed text)).2
            = (checkExcluded generatorContext (QString.trimmed text)).2)
      as Hflag.
    { unfold checkExcluded. rewrite Hno. by destruct (QString.startsWith _ _). }
    destruct (checkExcluded generatorContext _) as [d x].
    destruct (checkExcluded reference _) as [d' x'].
    simpl in Hflag. subst x'. intros [= _ _ <-]. by destruct x.
  - by intros [= _ _ <-].
Qed.

Lemma documented_files_ext (file_open : string -> OpenResult)
    (generatorContext reference : DocGeneratorContext)
    (parsedFiles : list FileDescriptor.t) :
  noExclude reference = noExclude generatorContext ->
  documented_files file_open reference parsedFiles
  = documented_files file_open generatorContext parsedFiles.
Proof.
  intros Hno. unfold documented_files. f_equal.
  apply list_filter_iff. intros fd.
  assert (file_kept file_open reference fd
          = file_kept file_open generatorContext fd) as ->; [|done].
  unfold file_kept at 2.
  destruct (descriptionOfFile file_open generatorContext fd "")
    as [[[d e] x]|] eqn:Hd.
  - rewrite (descriptionOfFile_flag _ _ _ _ _ _ _ _ Hno Hd). by destruct x.
  - unfold file_kept. revert Hd. unfold descriptionOfFile.
    destruct (file_open _) as [content|reason]; [|done].
    destruct (extractDescription _) as [text|]; [|done].
    cbn [mbind option_bind]. by destruct (checkExcluded generatorContext _).
Qed.

Section RunMore.

Variable supportedFormats : list string.
Variable file_open : string -> OpenResult.
Variable std_sort :
  (QVariant -> QVariant -> bool) -> list QVariant -> list QVariant.
Variable toJson : list QVariant -> option string.
Variable mustache :
  Filter -> Filter -> list QVariant -> string -> Renderer.t.

Notation Generate' :=
  (Generate supportedFormats file_open std_sort toJson mustache).
Notation GenerateAll_from' :=
  (GenerateAll_from supportedFormats file_open std_sort toJson mustache).
Notation run' := (run supportedFormats file_open std_sort toJson mustache).

(** What [addFile] does to the list of files. *)
Lemma addFile_effect (generatorContext reference : DocGeneratorContext)
    (fileDescriptor : FileDescriptor.t) (files files' : list QVariant)
    (error error' : string) :
  noExclude reference = noExclude generatorContext ->
  addFile file_open std_sort generatorContext fileDescriptor files error
  = Some (files', error') ->
  file_name_in <$> files'
  = (file_name_in <$> files)
    ++ documented_files file_open reference [fileDescriptor] /\
  (std_sort_contract std_sort ->
   Forall file_sorted files -> Forall file_sorted files').
Proof.
  intros Hno Hadd.
  destruct (descriptionOfFile file_open generatorContext fileDescriptor error)
    as [[[description error1] excluded]|] eqn:Hdescription.
  2: { unfold addFile in Hadd. by rewrite Hdescription in Hadd. }
  pose proof (descriptionOfFile_flag _ _ reference _ _ _ _ _ Hno Hdescription)
    as Hkept.
  unfold documented_files. rewrite filter_cons, filter_nil, Hkept.
  destruct excluded; simpl.
  - unfold addFile in Hadd. rewrite Hdescription in Hadd. simpl in Hadd.
    injection Hadd as <- <-. by rewrite app_nil_r.
  - destruct (addFile_kept std_sort generatorContext file_open
                fileDescriptor files error _ _ Hdescription)
      as (node & Hadd' & _ & Hmessages & Henums).
    pose proof (C := Hadd). rewrite Hadd' in C. injection C as <- <-.
    split.
    + rewrite fmap_app. f_equal. simpl. f_equal.
      unfold addFile in Hadd'. rewrite Hdescription in Hadd'.
      simpl in Hadd'. destruct (foldl _ _ _) as [messages enums].
      injection Hadd' as Hnode%app_inv_head. by injection Hnode as <-.
    + intros Hsort Hfiles. apply Forall_app. split; [done|].
      constructor; [|constructor]. split.
      * rewrite Hmessages. apply Forall_flat_map, Forall_forall.
        intros d _. by apply messages_of_sorted.
      * rewrite Henums. apply Forall_app. split.
        -- apply Forall_flat_map, Forall_forall.
           intros d _. by apply messages_of_sorted.
        -- by apply enum_nodes_sorted.
Qed.

(** A call of [Generate] that succeeds. *)
Lemma Generate_succeeded (parsedFiles : list FileDescriptor.t)
    (fileDescriptor : FileDescriptor.t) (parameter : string)
    (generatorContext generatorContext' : DocGeneratorContext)
    (sink sink' : Sink) (error error' : string) :
  Generate' parsedFiles fileDescriptor parameter generatorContext sink error
  = Some (true, generatorContext', sink', error') ->
  exists parsedContext error1,
    (if is_first parsedFiles fileDescriptor
     then parseParameter supportedFormats file_open parameter
            generatorContext error
          = (true, parsedContext, error1)
     else parsedContext = generatorContext /\ error1 = error) /\
    addFile file_open std_sort parsedContext fileDescriptor
      (files parsedContext) error1
    = Some (files generatorContext', "") /\
    template_ generatorContext' = template_ parsedContext /\
    outputFileName generatorContext' = outputFileName parsedContext /\
    noExclude generatorContext' = noExclude parsedContext /\
    error' = "" /\
    (if is_last parsedFiles fileDescriptor
     then exists result,
            sink' = (outputFileName generatorContext', result) :: sink /\
            rendering_of toJson mustache generatorContext' result
     else sink' = sink).
Proof.
  unfold Generate. fold (is_first parsedFiles fileDescriptor).
  fold (is_last parsedFiles fileDescriptor).
  intros Hg.
  set (parsing :=
         if is_first parsedFiles fileDescriptor
         then parseParameter supportedFormats file_open parameter
                generatorContext error
         else (true, generatorContext, error)) in Hg.
  destruct parsing as [[parsed parsedContext] error1] eqn:Hparsing.
  destruct parsed; simpl in Hg; [|done].
  destruct (addFile _ _ _ _ _ _) as [[files' error2]|] eqn:Hadd;
    simpl in Hg; [|done].
  destruct (QString.isEmpty error2) eqn:He; simpl in Hg; [|done].
  apply isEmpty_true in He as ->.
  exists parsedContext, error1. split.
  { unfold parsing in Hparsing.
    destruct (is_first parsedFiles fileDescriptor); [done|].
    by injection Hparsing as <- <-. }
  destruct (is_last parsedFiles fileDescriptor).
  - destruct (render_cases toJson mustache (with_files parsedContext files')
                sink "") as [(message & Hr)|(result & Hr & Hresult)];
      rewrite Hr in Hg; [done|].
    injection Hg as <- <- <-. simpl. repeat split; try done. eauto.
  - injection Hg as <- <- <-. simpl. by repeat split.
Qed.

Lemma not_first (pre post : list FileDescriptor.t)
    (fileDescriptor : FileDescriptor.t) :
  NoDup (FileDescriptor.name <$> pre ++ fileDescriptor :: post) ->
  pre <> [] ->
  is_first (pre ++ fileDescriptor :: post) fileDescriptor = false.
Proof.
  intros Hnd Hpre. destruct pre as [|first pre]; [done|].
  unfold is_first, same_file. simpl.
  apply bool_decide_false. intros Hname.
  simpl in Hnd. apply NoDup_cons in Hnd as [Hnotin _]. apply Hnotin.
  rewrite <- Hname. apply list_elem_of_fmap_2. set_solver.
Qed.

Lemma last_is_last (pre : list FileDescriptor.t)
    (fileDescriptor : FileDescriptor.t) :
  is_last (pre ++ [fileDescriptor]) fileDescriptor = true.
Proof.
  unfold is_last, same_file. rewrite last_snoc. simpl.
  by apply bool_decide_true.
Qed.

Lemma documented_files_cons (reference : DocGeneratorContext)
    (fileDescriptor : FileDescriptor.t) (todo : list FileDescriptor.t) :
  documented_files file_open reference (fileDescriptor :: todo)
  = documented_files file_open reference [fileDescriptor]
    ++ documented_files file_open reference todo.
Proof.
  unfold documented_files. rewrite !filter_cons, filter_nil.
  by destruct (decide _).
Qed.

(** The calls of a run after the first: a run that succeeds keeps the
    settings, adds the kept files in their order, keeps the lists of
    the nodes in order, and writes once, at the last file. *)
Lemma GenerateAll_from_succeeded (parameter : string)
    (reference : DocGeneratorContext) (todo : list FileDescriptor.t) :
  forall pre generatorContext sink error generatorContext' sink' error',
    NoDup (FileDescriptor.name <$> pre ++ todo) ->
    pre <> [] ->
    noExclude reference = noExclude generatorContext ->
    GenerateAll_from' (pre ++ todo) todo parameter generatorContext sink error
    = Some (true, generatorContext', sink', error') ->
    template_ generatorContext' = template_ generatorContext /\
    outputFileName generatorContext' = outputFileName generatorContext /\
    noExclude generatorContext' = noExclude generatorContext /\
    file_name_in <$> files generatorContext'
    = (file_name_in <$> files generatorContext)
      ++ documented_files file_open reference todo /\
    (std_sort_contract std_sort ->
     Forall file_sorted (files generatorContext) ->
     Forall file_sorted (files generatorContext')) /\
    match todo with
    | [] =>
        sink' = sink /\ generatorContext' = generatorContext /\
        error' = error
    | _ :: _ =>
        error' = "" /\
        exists result,
          sink' = (outputFileName generatorContext, result) :: sink /\
          rendering_of toJson mustache generatorContext' result
    end.
Proof.
  induction todo as [|file todo IH];
    intros pre ctx sink error ctx' sink' error' Hnd Hpre Hno Hrun.
  { simpl in Hrun. injection Hrun as <- <- <-.
    unfold documented_files. rewrite filter_nil. simpl.
    by rewrite app_nil_r. }
  cbn [GenerateAll_from] in Hrun.
  destruct (Generate' (pre ++ file :: todo) file parameter ctx sink error)
    as [[[[ok1 ctx1] sink1] error1]|] eqn:Hg; simpl in Hrun; [|done].
  destruct ok1.
  2: { simpl in Hrun. destruct (QString.isEmpty error1) eqn:He;
         simpl in Hrun; rewrite ?He in Hrun; simpl in Hrun; done. }
  apply Generate_succeeded in Hg
    as (parsed & e1 & Hparse & Hadd & Ht & Ho & Hn & -> & Hsink).
  rewrite not_first in Hparse by done. destruct Hparse as [-> ->].
  simpl in Hrun.
  destruct (addFile_effect ctx reference file (files ctx) (files ctx1)
              error "" Hno Hadd) as [Hnames Hsorted].
  replace (pre ++ file :: todo) with ((pre ++ [file]) ++ todo) in Hrun, Hnd
    by by rewrite <- app_assoc.
  apply IH in Hrun as (Ht' & Ho' & Hn' & Hnames' & Hsorted' & Hsink');
    [|done|by destruct pre|congruence].
  split; [congruence|]. split; [congruence|]. split; [congruence|].
  split; [|split].
  - rewrite Hnames', Hnames, <- app_assoc. f_equal.
    symmetry. apply documented_files_cons.
  - intros Hsort Hfiles. by apply Hsorted', Hsorted.
  - destruct todo as [|next todo].
    + destruct Hsink' as (-> & -> & ->). rewrite last_is_last in Hsink.
      destruct Hsink as (result & -> & Hresult). split; [done|].
      exists result. by rewrite Ho.
    + rewrite (distinct_files_last (pre ++ file :: next :: todo) pre
                 (next :: todo) file) in Hsink; [|  |done|done].
      2: { by rewrite <- app_assoc in Hnd. }
      subst sink1. destruct Hsink' as (-> & result & -> & Hresult).
      split; [done|]. exists result. by rewrite Ho.
Qed.

(** A whole run that succeeds. *)
Lemma run_succeeded (parsedFiles : list FileDescriptor.t)
    (parameter : string) (generatorContext' : DocGeneratorContext)
    (sink' : Sink) (error' : string) :
  NoDup (FileDescriptor.name <$> parsedFiles) ->
  parsedFiles <> [] ->
  run' parsedFiles parameter = Some (true, generatorContext', sink', error') ->
  exists parsedContext error1,
    parseParameter supportedFormats file_open parameter initialContext ""
    = (true, parsedContext, error1) /\
    template_ generatorContext' = template_ parsedContext /\
    outputFileName generatorContext' = outputFileName parsedContext /\
    noExclude generatorContext' = noExclude parsedContext /\
    file_name_in <$> files generatorContext'
    = documented_files file_open generatorContext' parsedFiles /\
    (std_sort_contract std_sort ->
     Forall file_sorted (files generatorContext')) /\
    error' = "" /\
    exists result,
      sink' = [(outputFileName generatorContext', result)] /\
      rendering_of toJson mustache generatorContext' result.
Proof.
  intros Hnd Hne. unfold run.
  destruct parsedFiles as [|first rest]; [done|]. clear Hne.
  cbn [GenerateAll_from].
  destruct (Generate' (first :: rest) first parameter initialContext [] "")
    as [[[[ok1 ctx1] sink1] error1]|] eqn:Hg; simpl; [|done].
  destruct ok1.
  2: { simpl. destruct (QString.isEmpty error1) eqn:He;
         simpl; rewrite ?He; simpl; done. }
  apply Generate_succeeded in Hg
    as (parsed & e1 & Hparse & Hadd & Ht & Ho & Hn & -> & Hsink).
  assert (is_first (first :: rest) first = true) as Hfirst.
  { unfold is_first, same_file. simpl. by apply bool_decide_true. }
  rewrite Hfirst in Hparse.
  assert (files parsed = []) as Hfiles.
  { by destruct (parseParameter_succeeded _ _ _ _ _ _ _ Hparse)
      as (? & ? & _ & _ & -> & _). }
  simpl. intros Hrun.
  change (first :: rest) with ([first] ++ rest) in Hrun, Hnd.
  apply (GenerateAll_from_succeeded parameter ctx1) in Hrun
    as (Ht' & Ho' & Hn' & Hnames' & Hsorted' & Hsink'); [|done|done|done].
  exists parsed, e1. split; [done|].
  split; [congruence|]. split; [congruence|]. split; [congruence|].
  destruct (addFile_effect parsed ctx1 first (files parsed)
              (files ctx1) e1 "") as [Hnames Hsorted]; [congruence|done|].
  rewrite Hfiles in Hnames, Hsorted. simpl in Hnames.
  split; [|split].
  - rewrite Hnames', Hnames.
    rewrite (documented_files_ext _ ctx1 generatorContext') by done.
    symmetry. apply documented_files_cons.
  - intros Hsort. apply Hsorted'; [done|]. by apply Hsorted.
  - destruct rest as [|next rest].
    + destruct Hsink' as (-> & -> & ->).
      pose proof (last_is_last [] first) as Hlast. simpl in Hlast.
      rewrite Hlast in Hsink. by split.
    + rewrite (distinct_files_last (first :: next :: rest) [] (next :: rest)
                 first) in Hsink; [|done|done|done].
      subst sink1. destruct Hsink' as (-> & result & -> & Hresult).
      split; [done|]. exists result. by rewrite Ho'.
Qed.

(** X18: a run over distinct files that succeeds has written exactly
    once: the sink holds one output, under the name that is the second
    token of the parameter, and it is the complete rendering of the
    files of the context; and no error string is left. *)
Theorem X18_successful_run_writes_once
    (parsedFiles : list FileDescriptor.t) (parameter : string)
    (generatorContext' : DocGeneratorContext) (sink' : Sink)
    (error' : string) :
  NoDup (FileDescriptor.name <$> parsedFiles) ->
  parsedFiles <> [] ->
  run' parsedFiles parameter = Some (true, generatorContext', sink', error') ->
  error' = "" /\
  exists name out result,
    (QString.split "," parameter = [name; out] \/
     QString.split "," parameter = [name; out; "no-exclude"]) /\
    sink' = [(out, result)] /\
    rendering_of toJson mustache generatorContext' result.
Proof.
  intros Hnd Hne Hrun.
  destruct (run_succeeded _ _ _ _ _ Hnd Hne Hrun)
    as (parsed & e1 & Hparse & _ & Ho & _ & _ & _ & -> & result & -> & Hr).
  split; [done|].
  destruct (parseParameter_succeeded _ _ _ _ _ _ _ Hparse)
    as (name & out & Htokens & Hout & _).
  exists name, out, result. split; [naive_solver|].
  split; [|done]. by rewrite Ho, Hout.
Qed.

(** X19: after a run over distinct files that succeeded, the list of
    files of the context holds one node for each parsed file that is
    kept, in the order in which the compiler passed the files, each
    under its base name; the files whose header begins with [@exclude]
    are the ones left out, unless the parameter has the third token. *)
Theorem X19_files_in_the_order_of_the_run
    (parsedFiles : list FileDescriptor.t) (parameter : string)
    (generatorContext' : DocGeneratorContext) (sink' : Sink)
    (error' : string) :
  NoDup (FileDescriptor.name <$> parsedFiles) ->
  parsedFiles <> [] ->
  run' parsedFiles parameter = Some (true, generatorContext', sink', error') ->
  file_name_in <$> files generatorContext'
  = documented_files file_open generatorContext' parsedFiles /\
  exists name out,
    QString.split "," parameter = [name; out] /\
    noExclude generatorContext' = false \/
    QString.split "," parameter = [name; out; "no-exclude"] /\
    noExclude generatorContext' = true.
Proof.
  intros Hnd Hne Hrun.
  destruct (run_succeeded _ _ _ _ _ Hnd Hne Hrun)
    as (parsed & e1 & Hparse & _ & _ & Hn & Hnames & _).
  split; [done|].
  destruct (parseParameter_succeeded _ _ _ _ _ _ _ Hparse)
    as (name & out & Htokens & _).
  exists name, out. by rewrite Hn.
Qed.

(** X20: in the document that a run over distinct files renders, every
    list of fields and every list of enum values is in ascending order
    of the names: those of all messages and enums of all files, nested
    ones included. *)
Theorem X20_rendered_lists_sorted
    (parsedFiles : list FileDescriptor.t) (parameter : string)
    (generatorContext' : DocGeneratorContext) (sink' : Sink)
    (error' : string) :
  std_sort_contract std_sort ->
  NoDup (FileDescriptor.name <$> parsedFiles) ->
  parsedFiles <> [] ->
  run' parsedFiles parameter = Some (true, generatorContext', sink', error') ->
  Forall file_sorted (files generatorContext') /\
  exists out result,
    sink' = [(out, result)] /\
    rendering_of toJson mustache generatorContext' result.
Proof.
  intros Hsort Hnd Hne Hrun.
  destruct (run_succeeded _ _ _ _ _ Hnd Hne Hrun)
    as (parsed & e1 & _ & _ & _ & _ & _ & Hsorted & _ & result & -> & Hr).
  split; [by apply Hsorted|]. eauto.
Qed.

End RunMore.

Lemma NoDup_compute {A} `{EqDecision A} (l : list A) :
  bool_decide (NoDup l) = true -> NoDup l.
Proof. apply bool_decide_eq_true. Qed.

(** Three runs. *)
Lemma two_run :
  run [] two_files stable_sort count_json copy_engine
    [empty_proto "a.proto"; empty_proto "b.proto"] "good.mustache,out.html"
  = Some (true, two_run_context, [("out.html", "Files")], "").
Proof. vm_compute. reflexivity. Qed.

Lemma three_run :
  run [] three_files stable_sort count_json copy_engine
    [empty_proto "src/a.proto"; empty_proto "src/x.proto";
     empty_proto "src/b.proto"] "json,out.json"
  = Some (true, three_run_context, [("out.json", "2")], "").
Proof. vm_compute. reflexivity. Qed.

Lemma nested_run :
  run [] (one_file "nested.proto" nested_source) stable_sort count_json
    copy_engine [nested_proto] "json,out.json"
  = Some (true, nested_run_context, [("out.json", "1")], "").
Proof. vm_compute. reflexivity. Qed.

Lemma two_names :
  NoDup (FileDescriptor.name <$>
           [empty_proto "a.proto"; empty_proto "b.proto"]).
Proof. apply NoDup_compute. vm_compute. reflexivity. Qed.

Lemma three_names :
  NoDup (FileDescriptor.name <$>
           [empty_proto "src/a.proto"; empty_proto "src/x.proto";
            empty_proto "src/b.proto"]).
Proof. apply NoDup_compute. vm_compute. reflexivity. Qed.

Lemma X18_successful_run_writes_once_witness :
  run [] two_files stable_sort count_json copy_engine
    [empty_proto "a.proto"; empty_proto "b.proto"] "good.mustache,out.html"
  = Some (true, two_run_context, [("out.html", "Files")], "") /\
  exists name out result,
    (QString.split "," "good.mustache,out.html" = [name; out] \/
     QString.split "," "good.mustache,out.html" = [name; out; "no-exclude"]) /\
    [("out.html", "Files")] = [(out, result)] /\
    rendering_of count_json copy_engine two_run_context result.
Proof.
  split; [exact two_run|].
  exact (proj2 (X18_successful_run_writes_once [] two_files stable_sort
                  count_json copy_engine
                  [empty_proto "a.proto"; empty_proto "b.proto"]
                  "good.mustache,out.html" two_run_context
                  [("out.html", "Files")] "" two_names
                  ltac:(discriminate) two_run)).
Defined.

Lemma X19_files_in_the_order_of_the_run_witness :
  run [] three_files stable_sort count_json copy_engine
    [empty_proto "src/a.proto"; empty_proto "src/x.proto";
     empty_proto "src/b.proto"] "json,out.json"
  = Some (true, three_run_context, [("out.json", "2")], "") /\
  file_name_in <$> files three_run_context = ["a.proto"; "b.proto"] /\
  file_name_in <$> files three_run_context
  = documented_files three_files three_run_context
      [empty_proto "src/a.proto"; empty_proto "src/x.proto";
       empty_proto "src/b.proto"].
Proof.
  split; [exact three_run|].
  split; [vm_compute; reflexivity|].
  exact (proj1 (X19_files_in_the_order_of_the_run [] three_files
                  stable_sort count_json copy_engine
                  [empty_proto "src/a.proto"; empty_proto "src/x.proto";
                   empty_proto "src/b.proto"] "json,out.json"
                  three_run_context [("out.json", "2")] ""
                  three_names ltac:(discriminate) three_run)).
Defined.

Lemma X20_rendered_lists_sorted_witness :
  std_sort_contract (@stable_sort QVariant) /\
  run [] (one_file "nested.proto" nested_source) stable_sort count_json
    copy_engine [nested_proto] "json,out.json"
  = Some (true, nested_run_context, [("out.json", "1")], "") /\
  Forall file_sorted (files nested_run_context).
Proof.
  split; [apply stable_sort_contract|].
  split; [exact nested_run|].
  refine (proj1 (X20_rendered_lists_sorted [] (one_file "nested.proto" nested_source)
           stable_sort count_json copy_engine [nested_proto] "json,out.json"
           nested_run_context [("out.json", "1")] "" stable_sort_contract
           _ ltac:(discriminate) nested_run)).
  apply NoDup_compute. vm_compute. reflexivity.
Defined.

(** ** Runs for JSON, and runs with a malformed parameter *)

(** X21: a run over distinct files that succeeds with [json] as the
    first token of the parameter has written the JSON document of the
    list of files, and nothing else; the template engine is not
    used. *)
Theorem X21_json_run
    (supportedFormats : list string) (file_open : string -> OpenResult)
    (std_sort : (QVariant -> QVariant -> bool) -> list QVariant -> list QVariant)
    (toJson : list QVariant -> option string)
    (mustache : Filter -> Filter -> list QVariant -> string -> Renderer.t)
    (parsedFiles : list FileDescriptor.t) (parameter : string)
    (generatorContext' : DocGeneratorContext) (sink' : Sink)
    (error' : string) :
  NoDup (FileDescriptor.name <$> parsedFiles) ->
  parsedFiles <> [] ->
  head (QString.split "," parameter) = Some "json" ->
  run supportedFormats file_open std_sort toJson mustache parsedFiles
    parameter
  = Some (true, generatorContext', sink', error') ->
  exists out document,
    QString.split "," parameter !! 1 = Some out /\
    sink' = [(out, document)] /\
    toJson (files generatorContext') = Some document.
Proof.
  intros Hnd Hne Hjson Hrun.
  destruct (run_succeeded _ _ _ _ _ _ _ _ _ _ Hnd Hne Hrun)
    as (parsed & e1 & Hparse & Ht & Ho & _ & _ & _ & _ & result & -> & Hr).
  destruct (parseParameter_succeeded _ _ _ _ _ _ _ Hparse)
    as (name & out & Htokens & Hout & _ & Htemplate).
  assert (name = "json" /\ QString.split "," parameter !! 1 = Some out)
    as [-> Hsecond].
  { destruct Htokens as [[Hs _]|[Hs _]]; rewrite Hs in Hjson |- *;
      by injection Hjson as ->. }
  rewrite bool_decide_true in Htemplate by done.
  injection Htemplate as Htemplate _.
  exists out, result. split; [done|]. split; [by rewrite Ho, Hout|].
  destruct Hr as [[_ Hdocument]|[Hne' _]]; [done|].
  destruct Hne'. by rewrite Ht, Htemplate.
Qed.

Lemma X21_json_run_witness :
  run [] three_files stable_sort count_json copy_engine
    [empty_proto "src/a.proto"; empty_proto "src/x.proto";
     empty_proto "src/b.proto"] "json,out.json"
  = Some (true, three_run_context, [("out.json", "2")], "") /\
  exists out document,
    QString.split "," "json,out.json" !! 1 = Some out /\
    [("out.json", "2")] = [(out, document)] /\
    count_json (files three_run_context) = Some document.
Proof.
  split; [exact three_run|].
  exact (X21_json_run [] three_files stable_sort count_json copy_engine
           [empty_proto "src/a.proto"; empty_proto "src/x.proto";
            empty_proto "src/b.proto"] "json,out.json"
           three_run_context [("out.json", "2")] ""
           three_names ltac:(discriminate) eq_refl three_run).
Defined.

Lemma parseParameter_failed
    (supportedFormats : list string) (file_open : string -> OpenResult)
    (parameter : string) (generatorContext : DocGeneratorContext)
    (error : string) :
  ~ (two_tokens parameter \/ three_tokens parameter) ->
  parseParameter supportedFormats file_open parameter generatorContext error
  = (false, generatorContext, usage_message supportedFormats).
Proof.
  intros Hbad. rewrite <- usage_eq. unfold parseParameter.
  destruct (QString.split "," parameter) as [|name [|out [|third [|? ?]]]]
    eqn:Hsplit; try done.
  - destruct Hbad. left. apply two_tokens_split. eauto.
  - simpl. case_bool_decide as Hthird; [|done]. subst third.
    destruct Hbad. right. apply three_tokens_split. eauto.
Qed.

(** X22: with a parameter that is not made of two tokens, or of two
    tokens and [no-exclude], a run fails at its first file: no file is
    opened, the context stays as it was at the start, nothing is
    written, and the error is the name of the first file, a colon and
    the usage message. *)
Theorem X22_malformed_parameter
    (supportedFormats : list string) (file_open : string -> OpenResult)
    (std_sort : (QVariant -> QVariant -> bool) -> list QVariant -> list QVariant)
    (toJson : list QVariant -> option string)
    (mustache : Filter -> Filter -> list QVariant -> string -> Renderer.t)
    (first : FileDescriptor.t) (rest : list FileDescriptor.t)
    (parameter : string) :
  ~ (two_tokens parameter \/ three_tokens parameter) ->
  run supportedFormats file_open std_sort toJson mustache (first :: rest)
    parameter
  = Some (false, initialContext, [],
          FileDescriptor.name first +:+ ": "
          +:+ usage_message supportedFormats).
Proof.
  intros Hbad. unfold run. cbn [GenerateAll_from]. unfold Generate.
  assert (from_option (same_file first) false (head (first :: rest)) = true)
    as ->.
  { unfold same_file. simpl. by apply bool_decide_true. }
  rewrite parseParameter_failed by done. reflexivity.
Qed.

Lemma X22_malformed_parameter_witness :
  run ["html"] no_files stable_sort count_json copy_engine
    [empty_proto "a.proto"; empty_proto "b.proto"] "html,out.html,exclude"
  = Some (false, initialContext, [],
          "a.proto: Usage: --doc_out=html|<TEMPLATE_FILENAME>,<OUT_FILENAME>[,no-exclude]:<OUT_DIR>").
Proof.
  apply (X22_malformed_parameter ["html"] no_files stable_sort count_json
           copy_engine (empty_proto "a.proto") [empty_proto "b.proto"]
           "html,out.html,exclude").
  intros [H|H].
  - apply two_tokens_split in H as (a & b & H). by vm_compute in H.
  - apply three_tokens_split in H as (a & b & H). by vm_compute in H.
Defined.

(** * The types that are shown *)

(** X23: the type shown for a field that is kept is, within the marks
    of its cardinality, a link to the message or enum type of the
    field, or the link of one of the categories [bool], [string],
    [float], [int] and [time]; the text [<unknown>] that
    [scalarTypeName] has for other kinds is never shown. *)
Theorem X23_field_type_shapes
    (generatorContext : DocGeneratorContext)
    (fieldDescriptor : FieldDescriptor.t) (fields : list QVariant) :
  excluded generatorContext fieldDescriptor = false ->
  exists node shown,
    addField generatorContext fieldDescriptor fields = fields ++ [node] /\
    field_type_in node
    = with_label (FieldDescriptor.label fieldDescriptor) shown /\
    (shown = typeUrl (FieldDescriptor.message_type_name fieldDescriptor) \/
     shown = typeUrl (FieldDescriptor.enum_type_name fieldDescriptor) \/
     exists category,
       category ∈ ["bool"; "string"; "float"; "int"; "time"] /\
       shown = types_php category) /\
    shown <> "<unknown>".
Proof.
  intros Hkept.
  exists (field_node generatorContext fieldDescriptor).
  rewrite addField_node, Hkept.
  assert (forall shown,
            field_type_of fieldDescriptor
            = with_label (FieldDescriptor.label fieldDescriptor) shown ->
            field_type_in (field_node generatorContext fieldDescriptor)
            = with_label (FieldDescriptor.label fieldDescriptor) shown)
    as Hnode.
  { by intros shown <-. }
  unfold field_type_of in Hnode.
  fold (with_label (FieldDescriptor.label fieldDescriptor)) in Hnode.
  destruct (FieldDescriptor.type fieldDescriptor);
    try (eexists; split; [reflexivity|]; split; [by apply Hnode|];
         split; [by eauto|done]);
    case_bool_decide;
    (eexists; split; [reflexivity|]; split; [by apply Hnode|]; split;
       [right; right; eexists; split; [|reflexivity]; set_solver|done]).
Qed.

Lemma X23_field_type_shapes_witness :
  excluded honor created_date = false /\
  exists node shown,
    addField honor created_date [] = [] ++ [node] /\
    field_type_in node = with_label LABEL_REQUIRED shown /\
    shown <> "<unknown>".
Proof.
  split; [reflexivity|].
  destruct (X23_field_type_shapes honor created_date [] eq_refl)
    as (node & shown & Hadd & Htype & _ & Hknown).
  by exists node, shown.
Defined.
